(** * CLibvenice, [Sources/file.c]: the buffered, non-blocking file channel

    A shallow embedding of [struct mill_file] and of the operations
    [fileopen], [fileattach], [filewrite], [fileflush], [fileread],
    [filereadlh], [fileseek], [filetell], [filesize], [fileeof] and
    [filedetach], followed by the properties of the buffering and
    flow-control logic.

    The operating system and the scheduler are an explicit environment: a
    [world] holds [errno] and, for each kind of call the code makes
    ([read], [write], [fdwait]), the list of the answers the next calls of
    that kind will get.  Every operation returns the value the C function
    returns, the channel as the call leaves it, the world as the call leaves
    it, and the list of the calls it made, in order. *)

From Stdlib Require Import ZArith List Bool Lia.
From Stdlib Require Import Strings.Byte.
Import ListNotations.
Open Scope Z_scope.

(** ** Machine integers *)

(** [size_t] is 64 bits wide; its arithmetic wraps around. *)
Definition SIZE_MOD : Z := 18446744073709551616.
Definition SSIZE_MAX : Z := 9223372036854775807.
Definition wrap (x : Z) : Z := x mod SIZE_MOD.

(** [#define MILL_FILE_BUFLEN (4096)] *)
Definition MILL_FILE_BUFLEN : Z := 4096.

(** The values of [<errno.h>] (Linux numbering; [EAGAIN] and [EWOULDBLOCK]
    are one code there, and the source tests both). *)
Definition EIO : Z := 5.
Definition EAGAIN : Z := 11.
Definition EWOULDBLOCK : Z := 11.
Definition ENOMEM : Z := 12.
Definition ETIMEDOUT : Z := 110.

(** The file-type bits of [mode_t], from [<sys/stat.h>]. *)
Definition S_IFMT : Z := 61440.   (* 0170000 *)
Definition S_IFIFO : Z := 4096.   (* 0010000 *)
Definition S_IFDIR : Z := 16384.  (* 0040000 *)
Definition S_IFREG : Z := 32768.  (* 0100000 *)
Definition S_ISREG (m : Z) : bool := Z.land m S_IFMT =? S_IFREG.
Definition S_ISDIR (m : Z) : bool := Z.land m S_IFMT =? S_IFDIR.

(** ** The channel *)

Record mill_file : Type := MillFile {
  fd : Z;
  ifirst : Z;
  ilen : Z;
  olen : Z;
  ibuf : list byte;
  obuf : list byte;
  eof : Z;
  mode : Z
}.

Definition set_in (f : mill_file) (first len : Z) : mill_file :=
  MillFile (fd f) first len (olen f) (ibuf f) (obuf f) (eof f) (mode f).
Definition set_ibuf (f : mill_file) (b : list byte) : mill_file :=
  MillFile (fd f) (ifirst f) (ilen f) (olen f) b (obuf f) (eof f) (mode f).
Definition set_olen (f : mill_file) (n : Z) : mill_file :=
  MillFile (fd f) (ifirst f) (ilen f) n (ibuf f) (obuf f) (eof f) (mode f).
Definition set_obuf (f : mill_file) (b : list byte) : mill_file :=
  MillFile (fd f) (ifirst f) (ilen f) (olen f) (ibuf f) b (eof f) (mode f).
Definition set_eof (f : mill_file) (e : Z) : mill_file :=
  MillFile (fd f) (ifirst f) (ilen f) (olen f) (ibuf f) (obuf f) e (mode f).
Definition set_fd (f : mill_file) (d : Z) : mill_file :=
  MillFile d (ifirst f) (ilen f) (olen f) (ibuf f) (obuf f) (eof f) (mode f).
Definition set_mode (f : mill_file) (m : Z) : mill_file :=
  MillFile (fd f) (ifirst f) (ilen f) (olen f) (ibuf f) (obuf f) (eof f) m.

(** [&a[off]] read for [n] bytes, and [memcpy(&a[off], src, n)]. *)
Definition slice (a : list byte) (off n : Z) : list byte :=
  firstn (Z.to_nat n) (skipn (Z.to_nat off) a).
Definition memcpy_at (a : list byte) (off : Z) (src : list byte) : list byte :=
  firstn (Z.to_nat off) a ++ src ++ skipn (Z.to_nat off + length src) a.

(** The bytes the channel holds: input read ahead and not yet handed to the
    caller, and output accepted and not yet written to the descriptor. *)
Definition pending_in (f : mill_file) : list byte := slice (ibuf f) (ifirst f) (ilen f).
Definition pending_out (f : mill_file) : list byte := slice (obuf f) 0 (olen f).

(** [S_ISREG(f->mode) || S_ISDIR(f->mode)] *)
Definition skips_fdwait (f : mill_file) : bool := S_ISREG (mode f) || S_ISDIR (mode f).

(** ** The environment *)

(** What a system call gives back: [-1] with a (positive) code stored in
    [errno], or a result. *)
Inductive sysret (A : Type) : Type :=
| Failed (e : positive)
| Got (a : A).
Arguments Failed {A} e.
Arguments Got {A} a.

Inductive direction : Type := FDW_IN | FDW_OUT.

(** Modelled from the spec: [libvenice.h], which declares [fdwait] and the
    constants [FDW_IN] and [FDW_OUT], is not among the sources.  [fdwait]
    suspends the task until the descriptor is ready in some direction or the
    deadline elapses; it returns 0 on a timeout and the readiness it saw
    otherwise. *)
Inductive wait_rc : Type :=
| TimedOut
| Ready (d : direction).

Record world : Type := World {
  errno : Z;
  reads : list (sysret (list byte));   (* what the next [read]s find *)
  writes : list (sysret N);            (* what the next [write]s accept *)
  waits : list wait_rc                 (* what the next [fdwait]s return *)
}.

Definition set_errno (w : world) (e : Z) : world :=
  World e (reads w) (writes w) (waits w).

(** A call transfers at most [count] bytes, [count] being a [size_t], and
    at most [SSIZE_MAX]. *)
Definition xfer_max (count : Z) : Z := Z.min (wrap count) SSIZE_MAX.

Definition sys_read (count : Z) (r : sysret (list byte)) : sysret (list byte) :=
  match r with
  | Failed e => Failed e
  | Got bs => Got (firstn (Z.to_nat (xfer_max count)) bs)
  end.

Definition sys_write (count : Z) (r : sysret N) : sysret Z :=
  match r with
  | Failed e => Failed e
  | Got n => Got (Z.min (Z.of_N n) (xfer_max count))
  end.

(** The [ssize_t] a call returns, the bytes a [read] stored, and [errno]
    after the call. *)
Definition read_sz (r : sysret (list byte)) : Z :=
  match r with Failed _ => -1 | Got bs => Z.of_nat (length bs) end.
Definition read_bytes (r : sysret (list byte)) : list byte :=
  match r with Failed _ => [] | Got bs => bs end.
Definition write_sz (r : sysret Z) : Z :=
  match r with Failed _ => -1 | Got n => n end.
Definition errno_after {A : Type} (eno : Z) (r : sysret A) : Z :=
  match r with Failed e => Zpos e | Got _ => eno end.

(** [errno != EAGAIN && errno != EWOULDBLOCK] *)
Definition not_would_block (eno : Z) : bool :=
  negb (eno =? EAGAIN) && negb (eno =? EWOULDBLOCK).

(** The calls an operation makes, as the kernel and the scheduler see them. *)
Inductive event : Type :=
| EvRead (d : Z) (count : Z) (r : sysret (list byte))
| EvWrite (d : Z) (data : list byte) (r : sysret Z)
| EvWait (d : Z) (dir : direction) (deadline : Z) (rc : wait_rc).

(** ** Outcomes *)

(** A call returns, or a [mill_assert] aborts the process, or the call is
    still looping when the answers of the world run out. *)
Inductive run (A : Type) : Type :=
| Ret (a : A)
| Abort
| Starved.
Arguments Ret {A} a.
Arguments Abort {A}.
Arguments Starved {A}.

Record after (A : Type) : Type := After {
  ret : A;
  file : mill_file;
  env : world;
  calls : list event
}.
Arguments After {A} ret file env calls.
Arguments ret {A} a.
Arguments file {A} a.
Arguments env {A} a.
Arguments calls {A} a.

Definition emit {A : Type} (es : list event) (r : run (after A)) : run (after A) :=
  match r with
  | Ret a => Ret (After (ret a) (file a) (env a) (es ++ calls a))
  | Abort => Abort
  | Starved => Starved
  end.

(** ** [fileflush] *)

(** The loop [while(remaining)] of [fileflush]; [pos] is the offset of the
    C pointer [pos] in [f->obuf]. *)
Fixpoint fileflush_loop (wrs : list (sysret N)) (ws : list wait_rc) (rs : list (sysret (list byte)))
    (eno : Z) (f : mill_file) (deadline : Z) (pos remaining : Z) : run (after unit) :=
  if remaining =? 0 then
    Ret (After tt (set_olen f 0) (World 0 rs wrs ws) [])
  else
    match wrs with
    | [] => Starved
    | r :: wrs' =>
      let data := slice (obuf f) pos remaining in
      let res := sys_write remaining r in
      let sz := write_sz res in
      let eno := errno_after eno res in
      emit [EvWrite (fd f) data res]
        (if sz =? -1 then
           if not_would_block eno then
             Ret (After tt f (World eno rs wrs' ws) [])
           else if skips_fdwait f then
             fileflush_loop wrs' ws rs eno f deadline pos remaining
           else
             match ws with
             | [] => Starved
             | rc :: ws' =>
               emit [EvWait (fd f) FDW_OUT deadline rc]
                 match rc with
                 | TimedOut => Ret (After tt f (World ETIMEDOUT rs wrs' ws') [])
                 | Ready FDW_OUT => fileflush_loop wrs' ws' rs eno f deadline pos remaining
                 | Ready FDW_IN => Abort
                 end
             end
         else
           fileflush_loop wrs' ws rs eno f deadline (pos + sz) (wrap (remaining - sz)))
    end.

Definition fileflush (f : mill_file) (deadline : Z) (w : world) : run (after unit) :=
  if olen f =? 0 then
    Ret (After tt f (set_errno w 0) [])
  else
    fileflush_loop (writes w) (waits w) (reads w) (errno w) f deadline 0 (olen f).

(** ** [filewrite] *)

(** The loop [while(remaining)] of [filewrite]; [pos] is the offset of the
    C pointer [pos] in the caller's [buf], and [len] its length. *)
Fixpoint filewrite_loop (wrs : list (sysret N)) (ws : list wait_rc) (rs : list (sysret (list byte)))
    (eno : Z) (f : mill_file) (buf : list byte) (len : Z) (deadline : Z)
    (pos remaining : Z) : run (after Z) :=
  if remaining =? 0 then
    Ret (After len f (World eno rs wrs ws) [])
  else
    match wrs with
    | [] => Starved
    | r :: wrs' =>
      let data := slice buf pos remaining in
      let res := sys_write remaining r in
      let sz := write_sz res in
      let eno := errno_after eno res in
      emit [EvWrite (fd f) data res]
        (if sz =? -1 then
           if not_would_block eno then
             Ret (After 0 f (World eno rs wrs' ws) [])
           else if skips_fdwait f then
             filewrite_loop wrs' ws rs eno f buf len deadline pos remaining
           else
             match ws with
             | [] => Starved
             | rc :: ws' =>
               emit [EvWait (fd f) FDW_OUT deadline rc]
                 match rc with
                 | TimedOut =>
                   Ret (After (wrap (len - remaining)) f (World ETIMEDOUT rs wrs' ws') [])
                 | Ready FDW_OUT => filewrite_loop wrs' ws' rs eno f buf len deadline pos remaining
                 | Ready FDW_IN => Abort
                 end
             end
         else
           filewrite_loop wrs' ws rs eno f buf len deadline (pos + sz) (wrap (remaining - sz)))
    end.

(** [memcpy(&f->obuf[f->olen], buf, len); f->olen += len; errno = 0; return len;] *)
Definition buffer_output (f : mill_file) (buf : list byte) (len : Z) (w : world)
    (es : list event) : run (after Z) :=
  Ret (After len
         (set_olen (set_obuf f (memcpy_at (obuf f) (olen f) buf)) (wrap (olen f + len)))
         (set_errno w 0) es).

Definition filewrite (f : mill_file) (buf : list byte) (deadline : Z) (w : world) : run (after Z) :=
  let len := Z.of_nat (length buf) in
  if wrap (olen f + len) <=? MILL_FILE_BUFLEN then
    buffer_output f buf len w []
  else
    match fileflush f deadline w with
    | Ret a =>
      let f := file a in
      let w := env a in
      if negb (errno w =? 0) then
        Ret (After 0 f w (calls a))
      else if wrap (olen f + len) <=? MILL_FILE_BUFLEN then
        buffer_output f buf len w (calls a)
      else
        emit (calls a)
          (filewrite_loop (writes w) (waits w) (reads w) (errno w) f buf len deadline 0 len)
    | Abort => Abort
    | Starved => Starved
    end.

(** ** [fileread] *)

(** [read(f->fd, f->ibuf, MILL_FILE_BUFLEN)] stores the bytes it transfers
    at the start of [f->ibuf]. *)
Definition read_into (f : mill_file) (res : sysret (list byte)) : mill_file :=
  set_ibuf f (memcpy_at (ibuf f) 0 (read_bytes res)).

(** The loop [while(1)] of [fileread]; [got] is what the caller's [buf]
    holds below the C pointer [pos]. *)
Fixpoint fileread_loop (rs : list (sysret (list byte))) (ws : list wait_rc) (wrs : list (sysret N))
    (eno : Z) (f : mill_file) (len deadline : Z) (got : list byte) (remaining : Z)
    : run (after (Z * list byte)) :=
  match rs with
  | [] => Starved
  | r :: rs' =>
    (* the end of the loop body: skip or call [fdwait], and go round again *)
    let again (eno : Z) (f : mill_file) (got : list byte) (remaining : Z) :=
      if skips_fdwait f then
        fileread_loop rs' ws wrs eno f len deadline got remaining
      else
        match ws with
        | [] => Starved
        | rc :: ws' =>
          emit [EvWait (fd f) FDW_IN deadline rc]
            match rc with
            | TimedOut =>
              Ret (After (wrap (len - remaining), got) f (World ETIMEDOUT rs' wrs ws') [])
            | Ready _ => fileread_loop rs' ws' wrs eno f len deadline got remaining
            end
        end in
    if MILL_FILE_BUFLEN <? remaining then
      let res := sys_read remaining r in
      let sz := read_sz res in
      let eno := errno_after eno res in
      let rest (sz : Z) :=
        if wrap sz =? remaining then
          Ret (After (len, got ++ read_bytes res) f (World 0 rs' wrs ws) [])
        else
          again eno f (got ++ read_bytes res) (wrap (remaining - sz)) in
      emit [EvRead (fd f) remaining res]
        (if sz =? 0 then
           Ret (After (wrap (len - remaining), got) (set_eof f 1) (World eno rs' wrs ws) [])
         else if sz =? -1 then
           if not_would_block eno then
             Ret (After (wrap (len - remaining), got) f (World eno rs' wrs ws) [])
           else rest 0
         else rest sz)
    else
      let res := sys_read MILL_FILE_BUFLEN r in
      let sz := read_sz res in
      let eno := errno_after eno res in
      let rest (f : mill_file) (sz : Z) :=
        if wrap sz <? remaining then
          again eno (set_in f 0 0) (got ++ slice (ibuf f) 0 sz) (wrap (remaining - sz))
        else
          Ret (After (len, got ++ slice (ibuf f) 0 remaining)
                 (set_in f remaining (wrap (sz - remaining))) (World 0 rs' wrs ws) []) in
      emit [EvRead (fd f) MILL_FILE_BUFLEN res]
        (if sz =? 0 then
           Ret (After (wrap (len - remaining), got) (set_eof f 1) (World eno rs' wrs ws) [])
         else if sz =? -1 then
           if not_would_block eno then
             Ret (After (wrap (len - remaining), got) f (World eno rs' wrs ws) [])
           else rest f 0
         else rest (read_into f res) sz)
  end.

Definition fileread (f : mill_file) (len deadline : Z) (w : world) : run (after (Z * list byte)) :=
  if len <=? ilen f then
    Ret (After (len, slice (ibuf f) (ifirst f) len)
           (set_in f (wrap (ifirst f + len)) (wrap (ilen f - len))) (set_errno w 0) [])
  else
    let got := slice (ibuf f) (ifirst f) (ilen f) in
    let remaining := wrap (len - ilen f) in
    let f := set_in f 0 0 in
    if remaining =? 0 then Abort   (* mill_assert(remaining) *)
    else fileread_loop (reads w) (waits w) (writes w) (errno w) f len deadline got remaining.

(** ** [filereadlh] *)

Fixpoint filereadlh_loop (rs : list (sysret (list byte))) (ws : list wait_rc) (wrs : list (sysret N))
    (eno : Z) (f : mill_file) (lowwater highwater deadline : Z)
    (got : list byte) (remaining received : Z) : run (after (Z * list byte)) :=
  match rs with
  | [] => Starved
  | r :: rs' =>
    let again (eno : Z) (f : mill_file) (got : list byte) (remaining received : Z) :=
      if skips_fdwait f then
        filereadlh_loop rs' ws wrs eno f lowwater highwater deadline got remaining received
      else
        match ws with
        | [] => Starved
        | rc :: ws' =>
          emit [EvWait (fd f) FDW_IN deadline rc]
            match rc with
            | TimedOut =>
              Ret (After (received, got) f (World ETIMEDOUT rs' wrs ws') [])
            | Ready _ =>
              filereadlh_loop rs' ws' wrs eno f lowwater highwater deadline got remaining received
            end
        end in
    if MILL_FILE_BUFLEN <? remaining then
      let res := sys_read remaining r in
      let sz := read_sz res in
      let eno := errno_after eno res in
      let rest (sz : Z) :=
        if lowwater <=? wrap (received + wrap sz) then
          Ret (After (wrap (received + wrap sz), got ++ read_bytes res) f (World 0 rs' wrs ws) [])
        else
          again eno f (got ++ read_bytes res) (wrap (remaining - sz)) (wrap (received + sz)) in
      emit [EvRead (fd f) remaining res]
        (if sz =? 0 then
           Ret (After (received, got) (set_eof f 1) (World eno rs' wrs ws) [])
         else if sz =? -1 then
           if not_would_block eno then
             Ret (After (received, got) f (World eno rs' wrs ws) [])
           else rest 0
         else rest sz)
    else
      let res := sys_read MILL_FILE_BUFLEN r in
      let sz := read_sz res in
      let eno := errno_after eno res in
      let rest (f : mill_file) (sz : Z) :=
        if wrap (received + wrap sz) <? lowwater then
          again eno (set_in f 0 0) (got ++ slice (ibuf f) 0 sz)
            (wrap (remaining - sz)) (wrap (received + sz))
        else if highwater <? wrap (received + wrap sz) then
          Ret (After (highwater, got ++ slice (ibuf f) 0 remaining)
                 (set_in f remaining (wrap (sz - remaining))) (World 0 rs' wrs ws) [])
        else
          Ret (After (wrap (received + wrap sz), got ++ slice (ibuf f) 0 sz)
                 (set_in f 0 0) (World 0 rs' wrs ws) []) in
      emit [EvRead (fd f) MILL_FILE_BUFLEN res]
        (if sz =? 0 then
           Ret (After (received, got) (set_eof f 1) (World eno rs' wrs ws) [])
         else if sz =? -1 then
           if not_would_block eno then
             Ret (After (received, got) f (World eno rs' wrs ws) [])
           else rest f 0
         else rest (read_into f res) sz)
  end.

Definition filereadlh (f : mill_file) (lowwater highwater deadline : Z) (w : world)
    : run (after (Z * list byte)) :=
  if (lowwater <=? ilen f) && (ilen f <=? highwater) then
    Ret (After (ilen f, slice (ibuf f) (ifirst f) (ilen f)) (set_in f 0 0) (set_errno w 0) [])
  else if highwater <=? ilen f then
    Ret (After (highwater, slice (ibuf f) (ifirst f) highwater)
           (set_in f (wrap (ifirst f + highwater)) (wrap (ilen f - highwater)))
           (set_errno w 0) [])
  else
    let got := slice (ibuf f) (ifirst f) (ilen f) in
    let remaining := wrap (highwater - ilen f) in
    let received := wrap (0 + ilen f) in
    let f := set_in f 0 0 in
    if remaining =? 0 then Abort   (* mill_assert(remaining) *)
    else filereadlh_loop (reads w) (waits w) (writes w) (errno w) f
           lowwater highwater deadline got remaining received.

(** ** Creation, teardown and the accessors *)

(** [malloc] gives [None] for [NULL] and otherwise a block whose fields hold
    whatever the memory held; [opened] and [st] are what [open] and [fstat]
    return ([st] carries [sb.st_mode]). *)
Definition fileopen (opened : sysret Z) (block : option mill_file) (st : sysret Z) (w : world)
    : option mill_file * world :=
  match opened with
  | Failed e => (None, set_errno w (Zpos e))
  | Got d =>
    match block with
    | None => (None, set_errno w ENOMEM)
    | Some f =>
      let f := set_eof (set_olen (set_in (set_fd f d) 0 0) 0) 0 in
      match st with
      | Failed e => (None, set_errno w (Zpos e))
      | Got m => (Some (set_mode f m), set_errno w 0)
      end
    end
  end.

(** [mill_filetune]: the flags read by [fcntl(fd, F_GETFL, 0)] default to 0,
    and [mill_assert(rc != -1)] guards the [fcntl(fd, F_SETFL, ...)]. *)
Definition mill_filetune (getfl setfl : sysret Z) : bool :=
  match setfl with
  | Failed _ => false
  | Got _ => true
  end.

Definition fileattach (d : Z) (block : option mill_file) (getfl setfl : sysret Z) (w : world)
    : run (option mill_file * world) :=
  match block with
  | None => Ret (None, set_errno w ENOMEM)
  | Some f =>
    if mill_filetune getfl setfl then
      Ret (Some (set_olen (set_in (set_fd f d) 0 0) 0), set_errno w 0)
    else Abort
  end.

(** [fileclose]: [mill_assert(rc == 0)] on the result of [close]. *)
Definition fileclose (f : mill_file) (closed : sysret Z) : run unit :=
  match closed with
  | Got 0 => Ret tt
  | _ => Abort
  end.

Definition filedetach (f : mill_file) : Z := fd f.

(** The value an [off_t] takes from a [size_t] computation (two's
    complement, 64 bits). *)
Definition to_off (x : Z) : Z :=
  if wrap x <=? SSIZE_MAX then wrap x else wrap x - SIZE_MOD.

(** [lseek(f->fd, 0, SEEK_CUR) - f->ilen], computed in [size_t] and
    returned as an [off_t]. *)
Definition filetell (f : mill_file) (sought : sysret Z) : Z :=
  to_off (write_sz sought - ilen f).

Definition fileseek (f : mill_file) (offset : Z) (sought : sysret Z) (w : world)
    : Z * mill_file * world :=
  (write_sz sought,
   set_eof (set_olen (set_in f 0 0) 0) 0,
   set_errno w (errno_after (errno w) sought)).

(** [filesize]: [-1] unless the descriptor is a regular file; otherwise the
    end position, held in a [size_t], plus [f->olen], returned as an
    [off_t].  [cur], [last] and [back] are what the three [lseek]s return. *)
Definition filesize (f : mill_file) (cur last back : sysret Z) : Z :=
  if negb (S_ISREG (mode f)) then -1
  else to_off (wrap (write_sz last) + olen f).

Definition fileeof (f : mill_file) : Z := eof f.

(** ** The operations as one step function *)

Inductive op : Type :=
| OpWrite (buf : list byte) (deadline : Z)
| OpFlush (deadline : Z)
| OpRead (len deadline : Z)
| OpReadlh (lowwater highwater deadline : Z)
| OpSeek (offset : Z) (sought : sysret Z)
| OpTell (sought : sysret Z)
| OpSize (cur last back : sysret Z)
| OpEof.

Definition forget {A : Type} (r : run (after A)) : run (after unit) :=
  match r with
  | Ret a => Ret (After tt (file a) (env a) (calls a))
  | Abort => Abort
  | Starved => Starved
  end.

Definition exec (o : op) (f : mill_file) (w : world) : run (after unit) :=
  match o with
  | OpWrite buf deadline => forget (filewrite f buf deadline w)
  | OpFlush deadline => fileflush f deadline w
  | OpRead len deadline => forget (fileread f len deadline w)
  | OpReadlh lowwater highwater deadline => forget (filereadlh f lowwater highwater deadline w)
  | OpSeek offset sought =>
    let '(_, f', w') := fileseek f offset sought w in Ret (After tt f' w' [])
  | OpTell _ => Ret (After tt f w [])
  | OpSize _ _ _ => Ret (After tt f w [])
  | OpEof => Ret (After tt f w [])
  end.

(** The arguments a caller can pass: a [size_t] length, and for
    [filereadlh] a low-water mark that does not exceed the high-water mark,
    itself the size of an object in memory. *)
Definition valid_call (o : op) : Prop :=
  match o with
  | OpRead len _ => 0 <= len < SIZE_MOD
  | OpReadlh lowwater highwater _ => 0 <= lowwater <= highwater /\ highwater <= SSIZE_MAX
  | _ => True
  end.

(** The channels a program can hold: made by [fileopen] or [fileattach],
    then used through the operations. *)
Inductive reachable : mill_file -> Prop :=
| reach_open : forall opened block st w f w',
    fileopen opened block st w = (Some f, w') -> reachable f
| reach_attach : forall d block getfl setfl w f w',
    fileattach d block getfl setfl w = Ret (Some f, w') -> reachable f
| reach_step : forall f o w a,
    reachable f -> valid_call o -> exec o f w = Ret a -> reachable (file a).

(** The invariants of the two buffers. *)
Definition buf_inv (f : mill_file) : Prop :=
  0 <= ifirst f /\ 0 <= ilen f /\ ifirst f + ilen f <= MILL_FILE_BUFLEN /\
  0 <= olen f <= MILL_FILE_BUFLEN.

Arguments wrap : simpl never.
Arguments slice : simpl never.
Arguments memcpy_at : simpl never.
Arguments xfer_max : simpl never.
Arguments sys_read : simpl never.
Arguments sys_write : simpl never.
Arguments read_into : simpl never.

(** ** What the calls of an operation did *)

(** The number of bytes the [write]s of a trace transferred, and the bytes
    its [read]s delivered. *)
Fixpoint bytes_written (tr : list event) : Z :=
  match tr with
  | [] => 0
  | EvWrite _ _ (Got n) :: tr' => n + bytes_written tr'
  | _ :: tr' => bytes_written tr'
  end.

Fixpoint bytes_read (tr : list event) : list byte :=
  match tr with
  | [] => []
  | EvRead _ _ (Got bs) :: tr' => bs ++ bytes_read tr'
  | _ :: tr' => bytes_read tr'
  end.

Definition is_read (e : event) : bool :=
  match e with EvRead _ _ _ => true | _ => false end.
Definition is_write (e : event) : bool :=
  match e with EvWrite _ _ _ => true | _ => false end.
Definition is_wait (e : event) : bool :=
  match e with EvWait _ _ _ _ => true | _ => false end.

(** The last call of a trace. *)
Fixpoint last_call (tr : list event) : option event :=
  match tr with
  | [] => None
  | [e] => Some e
  | _ :: tr' => last_call tr'
  end.

(** How an operation that stopped early came to stop: its last call was an
    [fdwait] that timed out, a [read] that found the end of the stream, or a
    call that failed with an error other than would-block. *)
Definition ends_timed_out (tr : list event) : bool :=
  match last_call tr with
  | Some (EvWait _ _ _ TimedOut) => true
  | _ => false
  end.
Definition ends_at_eof (tr : list event) : bool :=
  match last_call tr with
  | Some (EvRead _ _ (Got [])) => true
  | _ => false
  end.
Definition ends_in_error (tr : list event) : option Z :=
  match last_call tr with
  | Some (EvRead _ _ (Failed e)) => if not_would_block (Zpos e) then Some (Zpos e) else None
  | Some (EvWrite _ _ (Failed e)) => if not_would_block (Zpos e) then Some (Zpos e) else None
  | _ => None
  end.

(** ** Predicates on traces and channels *)

(** A would-block failure of a [read] or a [write], and a [read] that
    delivered at least one byte. *)
Definition would_block (e : event) : bool :=
  match e with
  | EvRead _ _ (Failed c) => negb (not_would_block (Zpos c))
  | EvWrite _ _ (Failed c) => negb (not_would_block (Zpos c))
  | _ => false
  end.
Definition read_some (e : event) : bool :=
  match e with
  | EvRead _ _ (Got (_ :: _)) => true
  | _ => false
  end.

(** Every [fdwait] of the trace comes immediately after a call that
    satisfies [P]; [prev] is the call made just before the trace. *)
Fixpoint waits_follow (P : event -> bool) (prev : option event) (tr : list event) : bool :=
  match tr with
  | [] => true
  | e :: tr' =>
    (if is_wait e then match prev with Some p => P p | None => false end else true)
    && waits_follow P (Some e) tr'
  end.

Definition none_of (P : event -> bool) (tr : list event) : bool :=
  forallb (fun e => negb (P e)) tr.

(** The calls after which an operation may ask for suspension. *)
Definition may_precede_wait (o : op) (e : event) : bool :=
  match o with
  | OpRead _ _ | OpReadlh _ _ _ => would_block e || read_some e
  | _ => would_block e
  end.

(** The invariant of the input buffer. *)
Definition ibuf_inv (f : mill_file) : Prop :=
  0 <= ifirst f /\ 0 <= ilen f /\ ifirst f + ilen f <= MILL_FILE_BUFLEN.

(** Why a read stopped short: its last [read] returned zero bytes and the
    end-of-stream flag is set, or its last call is an [fdwait] that timed out
    and [errno] is [ETIMEDOUT], or its last [read] failed with an error other
    than would-block, which [errno] holds. *)
Definition read_stop (f : mill_file) (w : world) (tr : list event) : Prop :=
  (ends_at_eof tr = true /\ eof f = 1) \/
  (ends_timed_out tr = true /\ errno w = ETIMEDOUT) \/
  ends_in_error tr = Some (errno w).

(** The frame and the waiting discipline of a write loop: the channel is not
    touched (the caller alone resets [olen]), no [read] is made and none of
    the answers to [read]s is consumed, a regular file or directory is never
    waited for, and every [fdwait] comes right after a would-block. *)
Definition write_loop_ok (f : mill_file) (rs : list (sysret (list byte)))
    (base : mill_file) (a_file : mill_file) (a_env : world) (tr : list event) : Prop :=
  (a_file = f \/ a_file = base) /\
  reads a_env = rs /\
  none_of is_read tr = true /\
  (skips_fdwait f = true -> none_of is_wait tr = true) /\
  (forall prev, waits_follow would_block prev tr = true).

(** What [filewrite] and [fileflush] leave alone. *)
Definition write_op_ok (f : mill_file) (w : world) (a_file : mill_file) (a_env : world)
    (tr : list event) : Prop :=
  ifirst a_file = ifirst f /\ ilen a_file = ilen f /\ ibuf a_file = ibuf f /\
  eof a_file = eof f /\ fd a_file = fd f /\ mode a_file = mode f /\
  reads a_env = reads w /\
  none_of is_read tr = true /\
  (skips_fdwait f = true -> none_of is_wait tr = true) /\
  (forall prev, waits_follow would_block prev tr = true).

(** The frame and the waiting discipline of a read loop: the output side of
    the channel, the descriptor and its kind are not touched, no [write] is
    made and none of the answers to [write]s is consumed, a regular file or
    directory is never waited for, every [fdwait] comes right after a
    [read] that would block or that delivered some bytes, and the
    end-of-stream flag changes only when the last [read] returned zero. *)
Definition read_loop_ok (f : mill_file) (wrs : list (sysret N))
    (a_file : mill_file) (a_env : world) (tr : list event) : Prop :=
  olen a_file = olen f /\ obuf a_file = obuf f /\
  fd a_file = fd f /\ mode a_file = mode f /\
  writes a_env = wrs /\
  none_of is_write tr = true /\
  (skips_fdwait f = true -> none_of is_wait tr = true) /\
  (forall prev, waits_follow (fun e => would_block e || read_some e) prev tr = true) /\
  (eof a_file = eof f \/ (eof a_file = 1 /\ ends_at_eof tr = true)).

(** ** Sample channels *)

(** A channel on descriptor 3 with empty buffers, both arrays zeroed, and
    the given [st_mode]. *)
Definition fresh_channel (m : Z) : mill_file :=
  MillFile 3 0 0 0 (repeat x00 4096) (repeat x00 4096) 0 m.

(** The same channel with [bs] pending in the output buffer. *)
Definition channel_with_output (m : Z) (bs : list byte) : mill_file :=
  MillFile 3 0 0 (Z.of_nat (length bs)) (repeat x00 4096)
    (bs ++ repeat x00 (4096 - length bs)) 0 m.

(** The same channel with [bs] read ahead in the input buffer. *)
Definition channel_with_input (m : Z) (bs : list byte) : mill_file :=
  MillFile 3 0 (Z.of_nat (length bs)) 0 (bs ++ repeat x00 (4096 - length bs))
    (repeat x00 4096) 0 m.

(** A channel opened on a regular file that has read one of two bytes the
    descriptor delivered: the second byte stays in the input buffer. *)
Definition half_read_channel : mill_file :=
  MillFile 3 1 1 0 ([x61; x62] ++ repeat x00 4094) (repeat x00 4096) 0 S_IFREG.

(** ** Answers that end a loop *)

(** A [read] that ends [fileread] and [filereadlh] whatever they still
    need: the end of the stream, or an error other than would-block. *)
Definition final_read (r : sysret (list byte)) : bool :=
  match r with
  | Failed e => not_would_block (Zpos e)
  | Got [] => true
  | Got (_ :: _) => false
  end.

(** A [write] that ends a flush, and the answers of [fdwait] that the
    assertion of the write loops accepts. *)
Definition final_write (r : sysret N) : bool :=
  match r with
  | Failed e => not_would_block (Zpos e)
  | Got _ => false
  end.

Definition ready_to_write (rc : wait_rc) : bool :=
  match rc with
  | Ready FDW_IN => false
  | _ => true
  end.

(** ** Sequences of operations, and what the calls carried *)

(** The bytes the [write]s of a trace put on the descriptor, in order. *)
Fixpoint bytes_sent (tr : list event) : list byte :=
  match tr with
  | [] => []
  | EvWrite _ data (Got n) :: tr' => firstn (Z.to_nat n) data ++ bytes_sent tr'
  | _ :: tr' => bytes_sent tr'
  end.

Definition direction_eqb (a b : direction) : bool :=
  match a, b with
  | FDW_IN, FDW_IN | FDW_OUT, FDW_OUT => true
  | _, _ => false
  end.

(** A call made on descriptor [d]: a [read] asks for at least a buffer's
    worth, and an [fdwait] names the direction [dir] and the deadline [dl]. *)
Definition call_to (d : Z) (dir : direction) (dl : Z) (e : event) : bool :=
  match e with
  | EvRead d' count _ => (d' =? d) && (MILL_FILE_BUFLEN <=? count)
  | EvWrite d' _ _ => d' =? d
  | EvWait d' dir' dl' _ => (d' =? d) && direction_eqb dir' dir && (dl' =? dl)
  end.

(** A channel used through a sequence of operations, each in a world of its
    own. *)
Inductive runs : mill_file -> list op -> mill_file -> Prop :=
| runs_nil : forall f, runs f [] f
| runs_cons : forall f o w a os f',
    exec o f w = Ret a -> runs (file a) os f' -> runs f (o :: os) f'.

Definition is_seek (o : op) : bool :=
  match o with OpSeek _ _ => true | _ => false end.

(** The two arrays of the channel have the size the [struct] gives them. *)
Definition arrays_ok (f : mill_file) : Prop :=
  Z.of_nat (length (ibuf f)) = MILL_FILE_BUFLEN /\
  Z.of_nat (length (obuf f)) = MILL_FILE_BUFLEN.

(** The payload of a write is an object in memory. *)
Definition payload_ok (o : op) : Prop :=
  match o with
  | OpWrite buf _ => Z.of_nat (length buf) <= SSIZE_MAX
  | _ => True
  end.

(** * Properties *)

(** ** Arithmetic and list facts *)

Lemma wrap_small (x : Z) : 0 <= x < SIZE_MOD -> wrap x = x.
Proof. intros H. unfold wrap. apply Z.mod_small. exact H. Qed.

Lemma wrap_range (x : Z) : 0 <= wrap x < SIZE_MOD.
Proof. unfold wrap. apply Z.mod_pos_bound. reflexivity. Qed.

Lemma SIZE_MOD_val : SIZE_MOD = 18446744073709551616.
Proof. reflexivity. Qed.
Lemma SSIZE_MAX_val : SSIZE_MAX = 9223372036854775807.
Proof. reflexivity. Qed.
Lemma BUFLEN_val : MILL_FILE_BUFLEN = 4096.
Proof. reflexivity. Qed.

(** Rewrites every [wrap t] whose argument [lia] shows in range. *)
Ltac unwrap :=
  repeat match goal with
  | |- context [wrap ?t] => rewrite (wrap_small t) by lia
  | H : context [wrap ?t] |- _ => rewrite (wrap_small t) in H by lia
  end.

Ltac consts :=
  pose proof SIZE_MOD_val; pose proof SSIZE_MAX_val; pose proof BUFLEN_val.

Lemma xfer_max_bounds (count : Z) : 0 <= xfer_max count <= SSIZE_MAX.
Proof. unfold xfer_max. pose proof (wrap_range count). consts. lia. Qed.

Lemma xfer_max_le (count : Z) : 0 <= count < SIZE_MOD -> xfer_max count <= count.
Proof. intros H. unfold xfer_max. rewrite wrap_small by exact H. lia. Qed.

Lemma write_sz_bounds (count : Z) (n : N) :
  0 <= count < SIZE_MOD ->
  0 <= Z.min (Z.of_N n) (xfer_max count) <= count.
Proof.
  intros Hc. pose proof (xfer_max_bounds count). pose proof (xfer_max_le count Hc). lia.
Qed.

Lemma length_sys_read (count : Z) (bs : list byte) :
  0 <= Z.of_nat (length (firstn (Z.to_nat (xfer_max count)) bs)) <= xfer_max count.
Proof.
  pose proof (xfer_max_bounds count). rewrite length_firstn. lia.
Qed.

Lemma read_sz_bounds (count : Z) (bs : list byte) :
  0 <= count < SIZE_MOD ->
  0 <= Z.of_nat (length (firstn (Z.to_nat (xfer_max count)) bs)) <= count.
Proof.
  intros Hc. pose proof (length_sys_read count bs). pose proof (xfer_max_le count Hc). lia.
Qed.

(** A call that succeeds does not return [-1]. *)
Ltac absurd_sz :=
  match goal with
  | H : (Z.min (Z.of_N _) (xfer_max ?c) =? -1) = true |- _ =>
    exfalso; apply Z.eqb_eq in H; pose proof (xfer_max_bounds c); lia
  | H : (Z.of_nat _ =? -1) = true |- _ =>
    exfalso; apply Z.eqb_eq in H; lia
  end.

Lemma read_sz_bytes (r : sysret (list byte)) :
  read_sz r <> -1 -> read_sz r = Z.of_nat (length (read_bytes r)).
Proof. destruct r; simpl; [congruence|reflexivity]. Qed.

Lemma emit_ret {A : Type} (es : list event) (r : run (after A)) (a : after A) :
  emit es r = Ret a ->
  exists a', r = Ret a' /\ a = After (ret a') (file a') (env a') (es ++ calls a').
Proof.
  destruct r as [a'| |]; simpl; intros H; try discriminate.
  injection H as <-. exists a'. split; reflexivity.
Qed.

Lemma forget_ret {A : Type} (r : run (after A)) (a : after unit) :
  forget r = Ret a ->
  exists a', r = Ret a' /\ a = After tt (file a') (env a') (calls a').
Proof.
  destruct r as [a'| |]; simpl; intros H; try discriminate.
  injection H as <-. exists a'. split; reflexivity.
Qed.

Lemma last_call_cons (e : event) (tr : list event) :
  last_call (e :: tr) = match tr with [] => Some e | _ => last_call tr end.
Proof. destruct tr; reflexivity. Qed.

Lemma last_call_app (tr1 tr2 : list event) :
  tr2 <> [] -> last_call (tr1 ++ tr2) = last_call tr2.
Proof.
  intros H. induction tr1 as [|e tr1 IH]; [reflexivity|].
  change ((e :: tr1) ++ tr2) with (e :: (tr1 ++ tr2)).
  rewrite last_call_cons. destruct (tr1 ++ tr2) eqn:E; [|exact IH].
  apply app_eq_nil in E. destruct E; contradiction.
Qed.

Lemma bytes_written_app (tr1 tr2 : list event) :
  bytes_written (tr1 ++ tr2) = bytes_written tr1 + bytes_written tr2.
Proof.
  induction tr1 as [|e tr1 IH]; [reflexivity|].
  destruct e as [? ? ?|? ? [?|n]|? ? ? ?]; simpl; rewrite ?IH; lia.
Qed.

Lemma bytes_read_app (tr1 tr2 : list event) :
  bytes_read (tr1 ++ tr2) = bytes_read tr1 ++ bytes_read tr2.
Proof.
  induction tr1 as [|e tr1 IH]; [reflexivity|].
  destruct e as [? ? [?|bs]|? ? ?|? ? ? ?]; simpl; rewrite ?IH, ?app_assoc; reflexivity.
Qed.

Lemma ends_timed_out_cons (e : event) (tr : list event) :
  ends_timed_out tr = true -> ends_timed_out (e :: tr) = true.
Proof.
  unfold ends_timed_out. rewrite last_call_cons.
  destruct tr; [discriminate|]. trivial.
Qed.

Lemma ends_in_error_cons (e : event) (tr : list event) (x : Z) :
  ends_in_error tr = Some x -> ends_in_error (e :: tr) = Some x.
Proof.
  unfold ends_in_error. rewrite last_call_cons.
  destruct tr; [discriminate|]. trivial.
Qed.

Lemma ends_at_eof_cons (e : event) (tr : list event) :
  ends_at_eof tr = true -> ends_at_eof (e :: tr) = true.
Proof.
  unfold ends_at_eof. rewrite last_call_cons.
  destruct tr; [discriminate|]. trivial.
Qed.

Lemma ends_timed_out_cons_false (e : event) (tr : list event) :
  ends_timed_out [e] = false -> ends_timed_out tr = false ->
  ends_timed_out (e :: tr) = false.
Proof.
  unfold ends_timed_out. rewrite last_call_cons.
  destruct tr; simpl; trivial.
Qed.

(** Splits the hypothesis that a loop body returned into the paths through
    the body. *)
Ltac paths H :=
  repeat match type of H with
  | emit _ _ = Ret _ =>
    let a := fresh "a" in
    apply emit_ret in H; destruct H as (a & H & ->); cbn [ret file env calls]
  | (if ?c then _ else _) = Ret _ => destruct c eqn:?
  | match ?x with _ => _ end = Ret _ => destruct x eqn:?
  | Starved = Ret _ => discriminate H
  | Abort = Ret _ => discriminate H
  | Ret _ = Ret _ => injection H as <-; cbn [ret file env calls]
  end.

(** ** [fileflush]: what a return means *)

(** A flush that returns either wrote everything, emptied the buffer and
    cleared [errno], or stopped early, left the channel as it was and set
    [errno] to the cause. *)
Lemma fileflush_loop_spec (wrs : list (sysret N)) :
  forall ws rs eno f deadline pos remaining a,
  0 <= remaining < SIZE_MOD ->
  fileflush_loop wrs ws rs eno f deadline pos remaining = Ret a ->
  reads (env a) = rs /\
  ((file a = set_olen f 0 /\ errno (env a) = 0 /\ bytes_written (calls a) = remaining /\
    ends_timed_out (calls a) = false) \/
   (file a = f /\ 0 <= bytes_written (calls a) < remaining /\
    ((ends_timed_out (calls a) = true /\ errno (env a) = ETIMEDOUT) \/
     ends_in_error (calls a) = Some (errno (env a))))).
Proof.
  induction wrs as [|r wrs IH]; intros ws rs eno f deadline pos remaining a Hrem H;
    simpl in H.
  - destruct (remaining =? 0) eqn:E0; [|discriminate].
    injection H as <-. simpl. apply Z.eqb_eq in E0. split; [reflexivity|left].
    repeat split; lia.
  - destruct (remaining =? 0) eqn:E0.
    { injection H as <-. simpl. apply Z.eqb_eq in E0. split; [reflexivity|left].
      repeat split; lia. }
    apply Z.eqb_neq in E0.
    destruct r as [e|n]; simpl in H.
    2: { (* the write transferred some bytes *)
      pose proof (write_sz_bounds remaining n Hrem) as Hn.
      replace (Z.min (Z.of_N n) (xfer_max remaining) =? -1) with false in H
        by (symmetry; apply Z.eqb_neq; lia).
      paths H. rewrite (wrap_small (remaining - _)) in H by lia.
      apply IH in H; [|lia]. simpl.
      destruct H as [Hrd [(Hf & He & Hb & Hnt)|(Hf & Hb & Hend)]].
      * split; [exact Hrd|left]. repeat split; [exact Hf|exact He|lia|].
        apply ends_timed_out_cons_false; [reflexivity|exact Hnt].
      * split; [exact Hrd|right]. split; [exact Hf|]. split; [lia|].
        destruct Hend as [[Ht He]|He]; [left|right].
        -- split; [apply ends_timed_out_cons; exact Ht|exact He].
        -- apply ends_in_error_cons; exact He. }
    paths H; simpl.
    + (* the write failed with an error that is not would-block *)
      split; [reflexivity|right]. split; [reflexivity|]. split; [lia|right].
      unfold ends_in_error. simpl. rewrite Heqb. reflexivity.
    + (* would-block on a regular file or directory: the write is retried *)
      apply IH in H; [|exact Hrem].
      destruct H as [Hrd [(Hf & He & Hb & Hnt)|(Hf & Hb & Hend)]].
      * split; [exact Hrd|left]. repeat split; [exact Hf|exact He|exact Hb|].
        apply ends_timed_out_cons_false; [reflexivity|exact Hnt].
      * split; [exact Hrd|right]. split; [exact Hf|]. split; [exact Hb|].
        destruct Hend as [[Ht He]|He]; [left|right].
        -- split; [apply ends_timed_out_cons; exact Ht|exact He].
        -- apply ends_in_error_cons; exact He.
    + (* would-block, and fdwait timed out *)
      split; [reflexivity|right]. split; [reflexivity|]. split; [lia|left].
      split; reflexivity.
    + (* would-block, and the descriptor became writable *)
      apply IH in H; [|exact Hrem].
      destruct H as [Hrd [(Hf & He & Hb & Hnt)|(Hf & Hb & Hend)]].
      * split; [exact Hrd|left]. repeat split; [exact Hf|exact He|exact Hb|].
        do 2 (apply ends_timed_out_cons_false; [reflexivity|]). exact Hnt.
      * split; [exact Hrd|right]. split; [exact Hf|]. split; [exact Hb|].
        destruct Hend as [[Ht He]|He]; [left|right].
        -- split; [do 2 apply ends_timed_out_cons; exact Ht|exact He].
        -- do 2 apply ends_in_error_cons; exact He.
Qed.

Lemma ends_in_error_pos (tr : list event) (x : Z) :
  ends_in_error tr = Some x -> 0 < x /\ not_would_block x = true.
Proof.
  unfold ends_in_error.
  destruct (last_call tr) as [[? ? [e|?]|? ? [e|?]|? ? ? ?]|]; try discriminate;
    destruct (not_would_block (Z.pos e)) eqn:E; try discriminate;
    intros H; injection H as <-; (split; [lia|exact E]).
Qed.

Lemma ends_in_error_not_timed_out (tr : list event) (x : Z) :
  ends_in_error tr = Some x -> ends_timed_out tr = false.
Proof.
  unfold ends_in_error, ends_timed_out.
  destruct (last_call tr) as [[? ? ?|? ? ?|? ? ? ?]|]; try discriminate; reflexivity.
Qed.

Lemma firstn_app_exact {A : Type} (l1 l2 : list A) :
  firstn (length l1) (l1 ++ l2) = l1.
Proof.
  rewrite firstn_app, firstn_all, Nat.sub_diag, firstn_O. apply app_nil_r.
Qed.

Lemma slice_0 (a : list byte) (n : Z) : slice a 0 n = firstn (Z.to_nat n) a.
Proof. reflexivity. Qed.

Lemma slice_memcpy_at_end (a src : list byte) (off : Z) :
  0 <= off <= Z.of_nat (length a) ->
  slice (memcpy_at a off src) 0 (off + Z.of_nat (length src)) = slice a 0 off ++ src.
Proof.
  intros Hoff. rewrite !slice_0. unfold memcpy_at. rewrite app_assoc.
  replace (Z.to_nat (off + Z.of_nat (length src)))
    with (length (firstn (Z.to_nat off) a ++ src)).
  - apply firstn_app_exact.
  - rewrite length_app, length_firstn. lia.
Qed.

Lemma set_errno_same (w : world) : errno w = 0 -> set_errno w 0 = w.
Proof. destruct w as [e rs wrs ws]. simpl. intros ->. reflexivity. Qed.

(** A run of [fileflush] that returns: either success with an empty buffer,
    or a failure that leaves the channel untouched. *)
Lemma fileflush_spec (f : mill_file) (deadline : Z) (w : world) (a : after unit) :
  0 <= olen f < SIZE_MOD ->
  fileflush f deadline w = Ret a ->
  reads (env a) = reads w /\
  ((file a = set_olen f 0 /\ errno (env a) = 0 /\ bytes_written (calls a) = olen f /\
    ends_timed_out (calls a) = false) \/
   (file a = f /\ 0 <= bytes_written (calls a) < olen f /\
    ((ends_timed_out (calls a) = true /\ errno (env a) = ETIMEDOUT) \/
     ends_in_error (calls a) = Some (errno (env a))))).
Proof.
  intros Hol H. unfold fileflush in H. destruct (olen f =? 0) eqn:E0.
  - injection H as <-. simpl. apply Z.eqb_eq in E0. split; [reflexivity|left].
    split; [|split; [reflexivity|split; [lia|reflexivity]]].
    destruct f; simpl in *. subst. reflexivity.
  - apply fileflush_loop_spec in H; [exact H|exact Hol].
Qed.

(** ** The calls of the loops: what they touch and when they wait *)

Lemma none_of_app (P : event -> bool) (tr1 tr2 : list event) :
  none_of P (tr1 ++ tr2) = none_of P tr1 && none_of P tr2.
Proof. apply forallb_app. Qed.

Lemma waits_follow_app (P : event -> bool) (tr1 tr2 : list event) (prev : option event) :
  waits_follow P prev tr1 = true ->
  (forall p, waits_follow P p tr2 = true) ->
  waits_follow P prev (tr1 ++ tr2) = true.
Proof.
  revert prev. induction tr1 as [|e tr1 IH]; intros prev H1 H2; simpl in *.
  - apply H2.
  - apply andb_true_iff in H1. destruct H1 as [Ha Hb].
    rewrite Ha. simpl. apply IH; assumption.
Qed.

Ltac write_leaf :=
  unfold write_loop_ok; simpl;
  repeat match goal with
  | H : not_would_block _ = _ |- _ => rewrite H
  end; simpl;
  repeat split; auto; try discriminate; try congruence.

Ltac write_step IH H :=
  apply IH in H; unfold write_loop_ok in *; simpl;
  repeat match goal with
  | E : not_would_block _ = _ |- _ => rewrite E
  end; simpl;
  destruct H as (Hf & Hrd & Hnr & Hnw & Hwf);
  repeat split; auto; try discriminate; try congruence.

Lemma fileflush_loop_ok (wrs : list (sysret N)) :
  forall ws rs eno f deadline pos remaining a,
  fileflush_loop wrs ws rs eno f deadline pos remaining = Ret a ->
  write_loop_ok f rs (set_olen f 0) (file a) (env a) (calls a).
Proof.
  induction wrs as [|r wrs IH]; intros ws rs eno f deadline pos remaining a H;
    simpl in H.
  - paths H. write_leaf.
  - destruct r as [e|n]; simpl in H; paths H; try absurd_sz;
      try (write_leaf; fail); try (write_step IH H; fail).
Qed.

Lemma filewrite_loop_ok (wrs : list (sysret N)) :
  forall ws rs eno f buf len deadline pos remaining a,
  filewrite_loop wrs ws rs eno f buf len deadline pos remaining = Ret a ->
  write_loop_ok f rs f (file a) (env a) (calls a).
Proof.
  induction wrs as [|r wrs IH]; intros ws rs eno f buf len deadline pos remaining a H;
    simpl in H.
  - paths H. write_leaf.
  - destruct r as [e|n]; simpl in H; paths H; try absurd_sz;
      try (write_leaf; fail); try (write_step IH H; fail).
Qed.

Ltac same_kind :=
  repeat match goal with
  | E : skips_fdwait _ = _ |- _ =>
    unfold skips_fdwait, read_into in E; simpl in E; revert E
  end; intros; unfold skips_fdwait, read_into in *.

Ltac read_leaf :=
  unfold read_loop_ok; same_kind; simpl;
  repeat match goal with
  | H : not_would_block _ = _ |- _ => rewrite H
  end; simpl;
  repeat split; auto; try discriminate; try congruence.

Ltac read_step IH H :=
  apply IH in H; unfold read_loop_ok in H |- *; same_kind; simpl in H |- *;
  repeat match goal with
  | E : not_would_block _ = _ |- _ => rewrite E
  end; simpl;
  destruct H as (Hol & Hob & Hfd & Hmo & Hwr & Hnw & Hnwt & Hwf & Heof);
  repeat split; auto; try discriminate; try congruence;
  try (destruct Heof as [Heof|[Heof Hend]]; [left; exact Heof|right; split; [exact Heof|]];
       repeat apply ends_at_eof_cons; exact Hend).

(** Names the result of the [read] of this iteration and splits on it:
    failure, no byte, some bytes. *)
Ltac on_read H :=
  match type of H with
  | context [sys_read ?c ?r] =>
    let res := fresh "res" in
    let Eres := fresh "Eres" in
    remember (sys_read c r) as res eqn:Eres;
    destruct res as [?e|[|?b ?bs']]; simpl in H
  end.

Lemma fileread_loop_ok (rs : list (sysret (list byte))) :
  forall ws wrs eno f len deadline got remaining a,
  fileread_loop rs ws wrs eno f len deadline got remaining = Ret a ->
  read_loop_ok f wrs (file a) (env a) (calls a).
Proof.
  induction rs as [|r rs IH]; intros ws wrs eno f len deadline got remaining a H;
    simpl in H; [discriminate|].
  destruct (MILL_FILE_BUFLEN <? remaining) eqn:Ebig; on_read H; paths H;
    try (read_leaf; fail); try (read_step IH H; fail).
Qed.

Lemma filereadlh_loop_ok (rs : list (sysret (list byte))) :
  forall ws wrs eno f lowwater highwater deadline got remaining received a,
  filereadlh_loop rs ws wrs eno f lowwater highwater deadline got remaining received = Ret a ->
  read_loop_ok f wrs (file a) (env a) (calls a).
Proof.
  induction rs as [|r rs IH];
    intros ws wrs eno f lowwater highwater deadline got remaining received a H;
    simpl in H; [discriminate|].
  destruct (MILL_FILE_BUFLEN <? remaining) eqn:Ebig; on_read H; paths H;
    try (read_leaf; fail); try (read_step IH H; fail).
Qed.

(** ** The operations: frame and waiting discipline *)

Lemma write_loop_op_ok (f base : mill_file) (w : world) (a_file : mill_file) (a_env : world)
    (tr : list event) :
  (exists n, base = set_olen f n) ->
  write_loop_ok f (reads w) base a_file a_env tr ->
  write_op_ok f w a_file a_env tr.
Proof.
  intros [n ->] (Hf & Hrd & Hnr & Hnw & Hwf).
  unfold write_op_ok. destruct Hf as [-> | ->]; simpl; repeat split; auto.
Qed.

Lemma fileflush_ok (f : mill_file) (deadline : Z) (w : world) (a : after unit) :
  fileflush f deadline w = Ret a ->
  write_op_ok f w (file a) (env a) (calls a) /\
  (file a = f \/ file a = set_olen f 0).
Proof.
  intros H. unfold fileflush in H. destruct (olen f =? 0).
  - injection H as <-. simpl. split; [|left; reflexivity].
    unfold write_op_ok. simpl. repeat split; auto.
  - apply fileflush_loop_ok in H. split.
    + apply (write_loop_op_ok f (set_olen f 0)); [exists 0; reflexivity|exact H].
    + destruct H as (Hf & _). exact Hf.
Qed.

Lemma write_op_ok_buffered (f : mill_file) (w : world) (b : list byte) (n e : Z) :
  write_op_ok f w (set_olen (set_obuf f b) n) (set_errno w e) [].
Proof. unfold write_op_ok. simpl. repeat split; auto. Qed.

Lemma filewrite_ok (f : mill_file) (buf : list byte) (deadline : Z) (w : world)
    (a : after Z) :
  filewrite f buf deadline w = Ret a ->
  write_op_ok f w (file a) (env a) (calls a).
Proof.
  intros H. unfold filewrite, buffer_output in H.
  destruct (wrap (olen f + Z.of_nat (length buf)) <=? MILL_FILE_BUFLEN).
  { injection H as <-. apply write_op_ok_buffered. }
  destruct (fileflush f deadline w) as [a1| |] eqn:Hfl; try discriminate.
  apply fileflush_ok in Hfl. destruct Hfl as [Hfl Hfile].
  destruct Hfl as (H1 & H2 & H3 & H4 & H5 & H6 & H7 & H8 & H9 & H10).
  assert (Hskip : skips_fdwait (file a1) = skips_fdwait f).
  { unfold skips_fdwait. rewrite H6. reflexivity. }
  paths H; cbn [ret file env calls].
  - unfold write_op_ok. repeat split; assumption.
  - unfold write_op_ok. simpl. repeat split; assumption.
  - apply filewrite_loop_ok in H. destruct H as (Hf & Hrd & Hnr & Hnw & Hwf).
    assert (Hf' : file a0 = file a1) by (destruct Hf; assumption).
    unfold write_op_ok. rewrite Hf', Hrd, none_of_app, none_of_app, H8, Hnr.
    repeat split; try assumption; try reflexivity.
    + intros Hs. rewrite H9 by exact Hs. rewrite Hnw by (rewrite Hskip; exact Hs).
      reflexivity.
    + intros prev. apply waits_follow_app; [apply H10|exact Hwf].
Qed.

Lemma read_loop_ok_start (f : mill_file) (wrs : list (sysret N))
    (a_file : mill_file) (a_env : world) (tr : list event) :
  read_loop_ok (set_in f 0 0) wrs a_file a_env tr -> read_loop_ok f wrs a_file a_env tr.
Proof. unfold read_loop_ok, skips_fdwait. simpl. trivial. Qed.

Lemma fileread_ok (f : mill_file) (len deadline : Z) (w : world)
    (a : after (Z * list byte)) :
  fileread f len deadline w = Ret a ->
  read_loop_ok f (writes w) (file a) (env a) (calls a).
Proof.
  intros H. unfold fileread in H. paths H.
  - unfold read_loop_ok. simpl. repeat split; auto.
  - apply fileread_loop_ok in H. apply read_loop_ok_start. exact H.
Qed.

Lemma filereadlh_ok (f : mill_file) (lowwater highwater deadline : Z) (w : world)
    (a : after (Z * list byte)) :
  filereadlh f lowwater highwater deadline w = Ret a ->
  read_loop_ok f (writes w) (file a) (env a) (calls a).
Proof.
  intros H. unfold filereadlh in H. paths H.
  - unfold read_loop_ok. simpl. repeat split; auto.
  - unfold read_loop_ok. simpl. repeat split; auto.
  - apply filereadlh_loop_ok in H. apply read_loop_ok_start. exact H.
Qed.

(** ** The read loops: how many bytes, and why fewer *)

Lemma read_stop_cons (e : event) (f : mill_file) (w : world) (tr : list event) :
  read_stop f w tr -> read_stop f w (e :: tr).
Proof.
  intros [[H1 H2]|[[H1 H2]|H1]]; [left|right; left|right; right].
  - split; [apply ends_at_eof_cons; exact H1|exact H2].
  - split; [apply ends_timed_out_cons; exact H1|exact H2].
  - apply ends_in_error_cons; exact H1.
Qed.

Lemma sys_read_got (count : Z) (r : sysret (list byte)) (bs : list byte) :
  Got bs = sys_read count r ->
  0 <= Z.of_nat (length bs) <= xfer_max count.
Proof.
  unfold sys_read. destruct r as [e|bs0]; [discriminate|].
  intros H. injection H as ->. apply length_sys_read.
Qed.

(** Names the result of the [read] of this iteration and splits on it,
    keeping the number of bytes symbolic. *)
Ltac on_read_sz H :=
  match type of H with
  | context [sys_read ?c ?r] =>
    let res := fresh "res" in
    let Eres := fresh "Eres" in
    remember (sys_read c r) as res eqn:Eres;
    destruct res as [?e|?bs'];
    cbn [read_sz read_bytes errno_after] in H;
    [change (-1 =? 0) with false in H; change (-1 =? -1) with true in H; cbv iota in H
    |apply sys_read_got in Eres]
  end.

Lemma xfer_max_buflen : xfer_max MILL_FILE_BUFLEN = MILL_FILE_BUFLEN.
Proof. reflexivity. Qed.

(** Turns the boolean tests met on a path into arithmetic facts. *)
Ltac bools :=
  repeat match goal with
  | H : (_ <? _) = true |- _ => apply Z.ltb_lt in H
  | H : (_ <? _) = false |- _ => apply Z.ltb_ge in H
  | H : (_ <=? _) = true |- _ => apply Z.leb_le in H
  | H : (_ <=? _) = false |- _ => apply Z.leb_gt in H
  | H : (_ =? _) = true |- _ => apply Z.eqb_eq in H
  | H : (_ =? _) = false |- _ => apply Z.eqb_neq in H
  | H : _ && _ = true |- _ => apply andb_true_iff in H; destruct H
  end.

(** The facts about sizes on a path: the constants, the range of the count
    passed to [read], and the length of what it delivered. *)
Ltac sizes :=
  consts; pose proof xfer_max_buflen;
  repeat match goal with
  | H : 0 <= Z.of_nat (length _) <= xfer_max ?c |- _ =>
    lazymatch goal with
    | _ : xfer_max c <= c |- _ => fail
    | _ => try (assert (xfer_max c <= c) by (apply xfer_max_le; lia))
    end; revert H
  end; intros;
  repeat match goal with
  | H : Z.of_nat (length ?bs) = 0 |- _ =>
    destruct bs; [clear H|simpl in H; lia]
  end.

Ltac stop_here :=
  unfold read_stop; cbn [eof errno set_eof set_in read_into set_ibuf app];
  first
  [ left; split; reflexivity
  | right; left; split; reflexivity
  | right; right; unfold ends_in_error; cbn;
    match goal with E : not_would_block _ = true |- _ => rewrite E end; reflexivity ].

Ltac inv_here :=
  unfold ibuf_inv in *;
  cbn [ifirst ilen set_eof set_in read_into set_ibuf]; unwrap; lia.

Ltac count_rec IH H :=
  apply IH in H; [|inv_here|lia|lia];
  destruct H as [Hi [[Hr He]|[Hr Hs]]];
  (split; [exact Hi|]);
  [left; split; assumption
  |right; split; [lia|cbn [app]; repeat apply read_stop_cons; exact Hs]].

Lemma fileread_loop_count (rs : list (sysret (list byte))) :
  forall ws wrs eno f len deadline got remaining a,
  ibuf_inv f ->
  0 < remaining <= len -> len < SIZE_MOD ->
  fileread_loop rs ws wrs eno f len deadline got remaining = Ret a ->
  ibuf_inv (file a) /\
  ((fst (ret a) = len /\ errno (env a) = 0) \/
   (len - remaining <= fst (ret a) < len /\ read_stop (file a) (env a) (calls a))).
Proof.
  induction rs as [|r rs IH]; intros ws wrs eno f len deadline got remaining a Hinv Hrem Hlen H;
    simpl in H; [discriminate|].
  destruct (MILL_FILE_BUFLEN <? remaining) eqn:Ebig; on_read_sz H; paths H; try absurd_sz;
    bools; sizes; unwrap; try lia.
  all: try (split; [inv_here|first [left; split; reflexivity
                                   |right; split; [cbn [fst]; unwrap; lia|stop_here]]]; fail).
  all: count_rec IH H.
Qed.

Lemma filereadlh_loop_count (rs : list (sysret (list byte))) :
  forall ws wrs eno f lowwater highwater deadline got remaining received a,
  ibuf_inv f ->
  0 <= received < lowwater -> lowwater <= highwater <= SSIZE_MAX ->
  remaining = highwater - received ->
  filereadlh_loop rs ws wrs eno f lowwater highwater deadline got remaining received = Ret a ->
  ibuf_inv (file a) /\
  ((lowwater <= fst (ret a) <= highwater /\ errno (env a) = 0) \/
   (received <= fst (ret a) < lowwater /\ read_stop (file a) (env a) (calls a))).
Proof.
  induction rs as [|r rs IH];
    intros ws wrs eno f lowwater highwater deadline got remaining received a
           Hinv Hrec Hlh Hrem H;
    simpl in H; [discriminate|].
  destruct (MILL_FILE_BUFLEN <? remaining) eqn:Ebig; on_read_sz H; paths H; try absurd_sz;
    bools; sizes; unwrap; try lia.
  all: try (split; [inv_here|first [left; split; [cbn [fst]; unwrap; lia|reflexivity]
                                   |right; split; [cbn [fst]; unwrap; lia|stop_here]]]; fail).
  all: apply IH in H; [|inv_here|lia|lia|lia];
    destruct H as [Hi [[Hr He]|[Hr Hs]]];
    (split; [exact Hi|]);
    [left; split; assumption
    |right; split; [lia|cbn [app]; repeat apply read_stop_cons; exact Hs]].
Qed.

Lemma fileread_count (f : mill_file) (len deadline : Z) (w : world)
    (a : after (Z * list byte)) :
  0 <= ilen f ->
  0 <= len < SIZE_MOD ->
  fileread f len deadline w = Ret a ->
  (ibuf_inv f -> ibuf_inv (file a)) /\
  ((fst (ret a) = len /\ errno (env a) = 0) \/
   (0 <= fst (ret a) < len /\ read_stop (file a) (env a) (calls a))).
Proof.
  intros Hil Hlen H. unfold fileread in H. paths H; bools; consts.
  - split; [|left; split; reflexivity].
    unfold ibuf_inv. cbn [ifirst ilen set_in]. intros Hinv. unwrap. lia.
  - rewrite (wrap_small (len - ilen f)) in H by lia.
    apply fileread_loop_count in H; [| |lia|lia].
    + destruct H as [Hi [Hok|[Hr Hs]]]; split; auto.
      right. split; [lia|exact Hs].
    + unfold ibuf_inv. cbn [ifirst ilen set_in]. lia.
Qed.

Lemma filereadlh_count (f : mill_file) (lowwater highwater deadline : Z) (w : world)
    (a : after (Z * list byte)) :
  0 <= ilen f ->
  0 <= lowwater <= highwater -> highwater <= SSIZE_MAX ->
  filereadlh f lowwater highwater deadline w = Ret a ->
  (ibuf_inv f -> ibuf_inv (file a)) /\
  ((lowwater <= fst (ret a) <= highwater /\ errno (env a) = 0) \/
   (0 <= fst (ret a) < lowwater /\ read_stop (file a) (env a) (calls a))).
Proof.
  intros Hil Hlh Hhw H. unfold filereadlh in H. paths H; bools; consts.
  - split; [|left; split; [cbn [fst]; lia|reflexivity]].
    unfold ibuf_inv. cbn [ifirst ilen set_in]. lia.
  - split; [|left; split; [cbn [fst]; lia|reflexivity]].
    unfold ibuf_inv. cbn [ifirst ilen set_in]. intros Hinv. unwrap. lia.
  - assert (Hlow : ilen f < lowwater).
    { destruct (lowwater <=? ilen f) eqn:E1; bools; [|lia].
      destruct (ilen f <=? highwater) eqn:E2; bools; [discriminate|lia]. }
    rewrite (wrap_small (highwater - ilen f)), (wrap_small (0 + ilen f)) in H by lia.
    apply filereadlh_loop_count in H; [| |lia|lia|lia].
    + destruct H as [Hi [Hok|[Hr Hs]]]; split; auto.
      right. split; [lia|exact Hs].
    + unfold ibuf_inv. cbn [ifirst ilen set_in]. lia.
Qed.

(** ** The direct write loop: how many bytes it reports *)

Ltac on_write_sz H :=
  match type of H with
  | context [sys_write ?c ?r] =>
    let res := fresh "res" in
    let Eres := fresh "Eres" in
    remember (sys_write c r) as res eqn:Eres;
    destruct res as [?e|?n];
    cbn [write_sz errno_after] in H;
    [change (-1 =? -1) with true in H; cbv iota in H|]
  end.

Lemma sys_write_got (count : Z) (r : sysret N) (n : Z) :
  Got n = sys_write count r -> 0 <= n <= xfer_max count.
Proof.
  unfold sys_write. destruct r as [e|m]; [discriminate|].
  intros H. injection H as ->. pose proof (xfer_max_bounds count). lia.
Qed.

Lemma last_call_app_error (tr1 tr2 : list event) :
  tr2 <> [] -> ends_in_error (tr1 ++ tr2) = ends_in_error tr2.
Proof. intros H. unfold ends_in_error. rewrite last_call_app by exact H. reflexivity. Qed.

Lemma filewrite_loop_count (wrs : list (sysret N)) :
  forall ws rs eno f buf len deadline pos remaining a,
  0 <= remaining <= len -> len < SIZE_MOD ->
  filewrite_loop wrs ws rs eno f buf len deadline pos remaining = Ret a ->
  0 <= bytes_written (calls a) <= remaining /\
  ((ret a = len /\ bytes_written (calls a) = remaining /\
    (errno (env a) = eno \/ not_would_block (errno (env a)) = false)) \/
   (ends_timed_out (calls a) = true /\ errno (env a) = ETIMEDOUT /\
    ret a = len - remaining + bytes_written (calls a)) \/
   (ends_in_error (calls a) = Some (errno (env a)) /\ ret a = 0)).
Proof.
  induction wrs as [|r wrs IH]; intros ws rs eno f buf len deadline pos remaining a Hrem Hlen H;
    simpl in H.
  - paths H. bools. cbn [bytes_written]. split; [lia|left]. repeat split; auto; lia.
  - destruct (remaining =? 0) eqn:E0.
    { paths H. bools. cbn [bytes_written]. split; [lia|left]. repeat split; auto; lia. }
    apply Z.eqb_neq in E0. consts.
    assert (Hx : xfer_max remaining <= remaining) by (apply xfer_max_le; lia).
    on_write_sz H.
    + paths H; cbn [app bytes_written ret env errno].
      * split; [lia|right; right]. split; [|reflexivity].
        unfold ends_in_error. cbn. rewrite Heqb. reflexivity.
      * apply IH in H; [|lia|lia].
        destruct H as [Hb [(Hr & Hw & He)|[(Ht & He & Hr)|(He & Hr)]]]; (split; [exact Hb|]).
        -- left. repeat split; try assumption. right.
           destruct He as [-> | He]; assumption.
        -- right; left. split; [apply ends_timed_out_cons; exact Ht|]. split; assumption.
        -- right; right. split; [apply ends_in_error_cons; exact He|exact Hr].
      * split; [lia|right; left]. split; [reflexivity|]. split; [reflexivity|].
        unwrap. lia.
      * apply IH in H; [|lia|lia].
        destruct H as [Hb [(Hr & Hw & He)|[(Ht & He & Hr)|(He & Hr)]]]; (split; [exact Hb|]).
        -- left. repeat split; try assumption. right.
           destruct He as [-> | He]; assumption.
        -- right; left. split; [do 2 apply ends_timed_out_cons; exact Ht|].
           split; assumption.
        -- right; right. split; [do 2 apply ends_in_error_cons; exact He|exact Hr].
    + apply sys_write_got in Eres.
      replace (n =? -1) with false in H by (symmetry; apply Z.eqb_neq; lia).
      paths H. cbn [app bytes_written]. rewrite (wrap_small (remaining - n)) in H by lia.
      apply IH in H; [|lia|lia].
      destruct H as [Hb [(Hr & Hw & He)|[(Ht & He & Hr)|(He & Hr)]]]; (split; [lia|]).
      * left. repeat split; [exact Hr|lia|exact He].
      * right; left. split; [apply ends_timed_out_cons; exact Ht|]. split; [exact He|lia].
      * right; right. split; [apply ends_in_error_cons; exact He|exact Hr].
Qed.

(** Whenever the last call of [filewrite] failed with an error other than
    would-block, [filewrite] returns 0, whatever it transferred before;
    when the direct loop is cut short by the deadline it returns what the
    loop transferred ([filewrite_loop_count]). *)
Lemma filewrite_error_returns_0 (f : mill_file) (buf : list byte) (deadline : Z) (w : world)
    (a : after Z) :
  0 <= olen f < SIZE_MOD ->
  Z.of_nat (length buf) < SIZE_MOD ->
  filewrite f buf deadline w = Ret a ->
  ends_in_error (calls a) = Some (errno (env a)) ->
  ret a = 0.
Proof.
  intros Hol Hlen H Herr. unfold filewrite, buffer_output in H.
  destruct (wrap (olen f + Z.of_nat (length buf)) <=? MILL_FILE_BUFLEN).
  { injection H as <-. discriminate Herr. }
  destruct (fileflush f deadline w) as [a1| |] eqn:Hfl; try discriminate.
  paths H; cbn [ret calls env] in *.
  - reflexivity.
  - exfalso. apply ends_in_error_pos in Herr. cbn [errno set_errno] in Herr. lia.
  - apply filewrite_loop_count in H; [|lia|lia].
    destruct H as [_ [(Hr & Hw & He)|[(Ht & He & Hr)|(He & Hr)]]].
    + exfalso. apply ends_in_error_pos in Herr. destruct Herr as [Hpos Hnb].
      destruct (errno (env a1) =? 0) eqn:E0; [|discriminate]. bools.
      destruct He as [He|He]; [lia|congruence].
    + exfalso. destruct (calls a0) as [|e0 tr0] eqn:Ec; [discriminate|].
      rewrite last_call_app_error in Herr by discriminate.
      apply ends_in_error_not_timed_out in Herr. congruence.
    + exact Hr.
Qed.

(** ** The bytes a watermark read delivers and keeps *)

Lemma slice_nil (a : list byte) (off : Z) : slice a off 0 = [].
Proof. reflexivity. Qed.

Lemma firstn_add {A : Type} (n m : nat) (l : list A) :
  firstn (n + m) l = firstn n l ++ firstn m (skipn n l).
Proof.
  revert l. induction n as [|n IH]; intros l; [reflexivity|].
  destruct l as [|x l]; simpl.
  - rewrite firstn_nil. reflexivity.
  - rewrite IH. reflexivity.
Qed.

Lemma slice_split (a : list byte) (off n m : Z) :
  0 <= off -> 0 <= n <= m ->
  slice a off n ++ slice a (off + n) (m - n) = slice a off m.
Proof.
  intros Hoff Hn. unfold slice.
  replace (Z.to_nat m) with (Z.to_nat n + Z.to_nat (m - n))%nat by lia.
  rewrite firstn_add, skipn_skipn.
  replace (Z.to_nat (off + n)) with (Z.to_nat n + Z.to_nat off)%nat by lia.
  reflexivity.
Qed.

Lemma length_slice (a : list byte) (off n : Z) :
  0 <= off -> 0 <= n -> off + n <= Z.of_nat (length a) ->
  Z.of_nat (length (slice a off n)) = n.
Proof.
  intros Hoff Hn Hle. unfold slice. rewrite length_firstn, length_skipn. lia.
Qed.

Lemma slice_read_prefix (a bs : list byte) (n : Z) :
  0 <= n <= Z.of_nat (length bs) ->
  slice (memcpy_at a 0 bs) 0 n = firstn (Z.to_nat n) bs.
Proof.
  intros Hn. rewrite slice_0. unfold memcpy_at. simpl.
  rewrite firstn_app. replace (Z.to_nat n - length bs)%nat with 0%nat by lia.
  rewrite firstn_O. apply app_nil_r.
Qed.

Lemma slice_read_suffix (a bs : list byte) (n : Z) :
  0 <= n <= Z.of_nat (length bs) ->
  slice (memcpy_at a 0 bs) n (Z.of_nat (length bs) - n) = skipn (Z.to_nat n) bs.
Proof.
  intros Hn. unfold slice, memcpy_at. simpl.
  rewrite skipn_app. replace (Z.to_nat n - length bs)%nat with 0%nat by lia.
  rewrite skipn_O, firstn_app.
  rewrite firstn_all2 by (rewrite length_skipn; lia).
  replace (Z.to_nat (Z.of_nat (length bs) - n) - length (skipn (Z.to_nat n) bs))%nat
    with 0%nat by (rewrite length_skipn; lia).
  rewrite firstn_O. apply app_nil_r.
Qed.

Lemma slice_read_all (a bs : list byte) :
  slice (memcpy_at a 0 bs) 0 (Z.of_nat (length bs)) = bs.
Proof.
  rewrite slice_read_prefix by lia. rewrite Nat2Z.id. apply firstn_all.
Qed.

Ltac data_norm :=
  cbn [fst snd app bytes_read ret file env calls] in *;
  unfold pending_in in *;
  unfold read_into in *;
  cbn [ibuf ifirst ilen set_in set_eof set_ibuf read_bytes] in *;
  repeat match goal with
  | H : ilen _ = 0 |- _ => rewrite H in *
  end;
  rewrite ?slice_nil, ?app_nil_r, ?slice_read_all in *.

Ltac data_leaf :=
  split; [rewrite ?length_app; lia|];
  split; [reflexivity|];
  rewrite ?length_app; intros; lia.

Ltac data_rec IH H :=
  apply IH in H;
  [|first [assumption|reflexivity]|lia|lia|lia|rewrite ?length_app; lia];
  destruct H as (Hd1 & Hd2 & Hd3);
  split; [exact Hd1|];
  split; [rewrite Hd2, ?app_assoc; reflexivity|rewrite ?app_assoc in *; exact Hd3].

Lemma filereadlh_loop_data (rs : list (sysret (list byte))) :
  forall ws wrs eno f lowwater highwater deadline got remaining received a,
  ilen f = 0 ->
  0 <= received < lowwater -> lowwater <= highwater <= SSIZE_MAX ->
  remaining = highwater - received ->
  Z.of_nat (length got) = received ->
  filereadlh_loop rs ws wrs eno f lowwater highwater deadline got remaining received = Ret a ->
  Z.of_nat (length (snd (ret a))) = fst (ret a) /\
  snd (ret a) ++ pending_in (file a) = got ++ bytes_read (calls a) /\
  (highwater < Z.of_nat (length (got ++ bytes_read (calls a))) -> fst (ret a) = highwater).
Proof.
  induction rs as [|r rs IH];
    intros ws wrs eno f lowwater highwater deadline got remaining received a
           Hil Hrec Hlh Hrem Hgot H;
    simpl in H; [discriminate|].
  destruct (MILL_FILE_BUFLEN <? remaining) eqn:Ebig; on_read_sz H; paths H; try absurd_sz;
    bools; sizes; unwrap; try lia.
  all: data_norm.
  all: try (data_leaf; fail).
  all: try (data_rec IH H; fail).
  rewrite slice_read_prefix, slice_read_suffix by lia.
  split; [rewrite length_app, length_firstn; lia|].
  split; [rewrite <- app_assoc, firstn_skipn; reflexivity|reflexivity].
Qed.

Lemma filereadlh_data (f : mill_file) (lowwater highwater deadline : Z) (w : world)
    (a : after (Z * list byte)) :
  ibuf_inv f ->
  Z.of_nat (length (ibuf f)) = MILL_FILE_BUFLEN ->
  0 <= lowwater <= highwater -> highwater <= SSIZE_MAX ->
  filereadlh f lowwater highwater deadline w = Ret a ->
  Z.of_nat (length (snd (ret a))) = fst (ret a) /\
  snd (ret a) ++ pending_in (file a) = pending_in f ++ bytes_read (calls a) /\
  (highwater < Z.of_nat (length (pending_in f ++ bytes_read (calls a))) ->
   fst (ret a) = highwater).
Proof.
  intros Hinv Hbuf Hlh Hhw H. unfold ibuf_inv in Hinv.
  assert (Hpl : Z.of_nat (length (pending_in f)) = ilen f)
    by (apply length_slice; lia).
  unfold filereadlh in H. paths H; bools; consts; cbn [fst snd calls bytes_read file].
  - rewrite !app_nil_r. fold (pending_in f).
    split; [exact Hpl|]. split; [reflexivity|]. intros Hgt. lia.
  - rewrite app_nil_r. unfold pending_in. cbn [ibuf ifirst ilen set_in].
    rewrite !wrap_small by lia.
    split; [apply length_slice; lia|]. split; [apply slice_split; lia|reflexivity].
  - assert (Hlow : ilen f < lowwater).
    { destruct (lowwater <=? ilen f) eqn:E1; bools; [|lia].
      destruct (ilen f <=? highwater) eqn:E2; bools; [discriminate|lia]. }
    rewrite (wrap_small (highwater - ilen f)), (wrap_small (0 + ilen f)) in H by lia.
    apply filereadlh_loop_data in H;
      [exact H|reflexivity|lia|lia|lia|fold (pending_in f); lia].
Qed.

(** ** The bytes a read delivers and keeps *)

Lemma fileread_loop_data (rs : list (sysret (list byte))) :
  forall ws wrs eno f len deadline got remaining a,
  ilen f = 0 ->
  0 < remaining <= len -> len < SIZE_MOD ->
  Z.of_nat (length got) = len - remaining ->
  fileread_loop rs ws wrs eno f len deadline got remaining = Ret a ->
  Z.of_nat (length (snd (ret a))) = fst (ret a) /\
  snd (ret a) ++ pending_in (file a) = got ++ bytes_read (calls a).
Proof.
  induction rs as [|r rs IH];
    intros ws wrs eno f len deadline got remaining a Hil Hrem Hlen Hgot H;
    simpl in H; [discriminate|].
  destruct (MILL_FILE_BUFLEN <? remaining) eqn:Ebig; on_read_sz H; paths H; try absurd_sz;
    bools; sizes; unwrap; try lia.
  all: data_norm.
  all: try (split; [rewrite ?length_app; lia|reflexivity]; fail).
  all: try (apply IH in H;
    [|first [assumption|reflexivity]|lia|lia|rewrite ?length_app; lia];
    destruct H as (Hd1 & Hd2);
    split; [exact Hd1|rewrite Hd2, ?app_assoc; reflexivity]; fail).
  - destruct remaining; try discriminate; lia.
  - rewrite slice_read_prefix, slice_read_suffix by lia.
    split; [rewrite length_app, length_firstn; lia|].
    rewrite <- app_assoc, firstn_skipn. reflexivity.
Qed.

(** [fileread] hands over the bytes in the order they arrived, none lost
    and none twice: what it returns, followed by what it keeps in the input
    buffer, is what was buffered followed by what its [read]s delivered. *)
Lemma fileread_data (f : mill_file) (len deadline : Z) (w : world)
    (a : after (Z * list byte)) :
  ibuf_inv f ->
  Z.of_nat (length (ibuf f)) = MILL_FILE_BUFLEN ->
  0 <= len < SIZE_MOD ->
  fileread f len deadline w = Ret a ->
  Z.of_nat (length (snd (ret a))) = fst (ret a) /\
  snd (ret a) ++ pending_in (file a) = pending_in f ++ bytes_read (calls a).
Proof.
  intros Hinv Hbuf Hlen H. unfold ibuf_inv in Hinv.
  assert (Hpl : Z.of_nat (length (pending_in f)) = ilen f)
    by (apply length_slice; lia).
  unfold fileread in H. paths H; bools; consts; cbn [fst snd calls bytes_read file].
  - rewrite app_nil_r. unfold pending_in. cbn [ibuf ifirst ilen set_in].
    rewrite !wrap_small by lia.
    split; [apply length_slice; lia|apply slice_split; lia].
  - rewrite (wrap_small (len - ilen f)) in H by lia.
    apply fileread_loop_data in H;
      [exact H|reflexivity|lia|lia|fold (pending_in f); lia].
Qed.

(** ** When the operations return *)

Lemma emit_returns {A : Type} (es : list event) (r : run (after A)) :
  (exists a, r = Ret a) -> exists a, emit es r = Ret a.
Proof. intros [a ->]. eexists. reflexivity. Qed.

(** Follows the paths of a loop body in the goal, down to the returns and
    the next iteration. *)
Ltac forward :=
  repeat match goal with
  | |- exists a, emit _ _ = Ret a => apply emit_returns
  | |- exists a, (if ?c then _ else _) = Ret a => destruct c eqn:?
  | |- exists a, match ?x with _ => _ end = Ret a => destruct x eqn:?
  | |- exists a, Ret _ = Ret a => eexists; reflexivity
  end.

Lemma sys_read_failed (count : Z) (e : positive) : sys_read count (Failed e) = Failed e.
Proof. reflexivity. Qed.

Lemma sys_read_eof (count : Z) : sys_read count (Got []) = Got [].
Proof. unfold sys_read. rewrite firstn_nil. reflexivity. Qed.

Ltac next_round IH :=
  match goal with
  | Hws : (length (_ :: _) <= length ?ws)%nat |- exists a, Starved = Ret a =>
    exfalso; subst; simpl in Hws; lia
  | Hfin : _ || existsb _ _ = true, Hws : (length (_ :: _) <= length ?ws)%nat
    |- exists a, _ = Ret a =>
    apply IH; [exact Hfin|subst; simpl in Hws |- *; lia]
  end.

Ltac read_cases r :=
  destruct r as [e|[|b bs]]; rewrite ?sys_read_failed, ?sys_read_eof;
  [change (read_sz (Failed e)) with (-1);
   change (-1 =? 0) with false; change (-1 =? -1) with true;
   cbn [read_bytes errno_after]; cbv iota
  |change (read_sz (Got [])) with 0; change (0 =? 0) with true; cbv iota
  |unfold sys_read;
   match goal with |- context [firstn ?n (b :: bs)] =>
     destruct (firstn n (b :: bs)) as [|b' bs']
   end;
   [change (read_sz (Got [])) with 0; change (0 =? 0) with true; cbv iota
   |cbn [read_bytes errno_after]]].

Lemma fileread_loop_returns (rs : list (sysret (list byte))) :
  forall ws wrs eno f len deadline got remaining,
  existsb final_read rs = true ->
  (length rs <= length ws)%nat ->
  exists a, fileread_loop rs ws wrs eno f len deadline got remaining = Ret a.
Proof.
  induction rs as [|r rs IH]; intros ws wrs eno f len deadline got remaining Hfin Hws;
    [discriminate|].
  cbn [existsb] in Hfin. simpl fileread_loop.
  read_cases r; cbn [final_read] in Hfin; forward; try next_round IH.
Qed.

Lemma filereadlh_loop_returns (rs : list (sysret (list byte))) :
  forall ws wrs eno f lowwater highwater deadline got remaining received,
  existsb final_read rs = true ->
  (length rs <= length ws)%nat ->
  exists a,
    filereadlh_loop rs ws wrs eno f lowwater highwater deadline got remaining received = Ret a.
Proof.
  induction rs as [|r rs IH];
    intros ws wrs eno f lowwater highwater deadline got remaining received Hfin Hws;
    [discriminate|].
  cbn [existsb] in Hfin. simpl filereadlh_loop.
  read_cases r; cbn [final_read] in Hfin; forward; try next_round IH.
Qed.

(** [fileread] returns whenever the descriptor eventually reaches the end
    of the stream or fails for good, and the scheduler answers every
    [fdwait]; likewise [filereadlh]. *)
Lemma fileread_returns (f : mill_file) (len deadline : Z) (w : world) :
  0 <= ilen f -> 0 <= len < SIZE_MOD ->
  existsb final_read (reads w) = true ->
  (length (reads w) <= length (waits w))%nat ->
  exists a, fileread f len deadline w = Ret a.
Proof.
  intros Hil Hlen Hfin Hws. unfold fileread.
  destruct (len <=? ilen f) eqn:E; [eexists; reflexivity|]. bools.
  rewrite (wrap_small (len - ilen f)) by lia.
  destruct (len - ilen f =? 0) eqn:E0; bools; [lia|].
  apply fileread_loop_returns; assumption.
Qed.

Lemma filereadlh_returns (f : mill_file) (lowwater highwater deadline : Z) (w : world) :
  0 <= ilen f -> 0 <= highwater < SIZE_MOD ->
  existsb final_read (reads w) = true ->
  (length (reads w) <= length (waits w))%nat ->
  exists a, filereadlh f lowwater highwater deadline w = Ret a.
Proof.
  intros Hil Hhw Hfin Hws. unfold filereadlh.
  destruct ((lowwater <=? ilen f) && (ilen f <=? highwater)); [eexists; reflexivity|].
  destruct (highwater <=? ilen f) eqn:E; [eexists; reflexivity|]. bools.
  rewrite (wrap_small (highwater - ilen f)) by lia.
  destruct (highwater - ilen f =? 0) eqn:E0; bools; [lia|].
  apply filereadlh_loop_returns; assumption.
Qed.

Lemma sys_write_failed (count : Z) (e : positive) : sys_write count (Failed e) = Failed e.
Proof. reflexivity. Qed.

Ltac next_write IH :=
  match goal with
  | Hws : (length (_ :: _) <= length ?ws)%nat |- exists a, Starved = Ret a =>
    exfalso; subst; simpl in Hws; lia
  | Hok : forallb ready_to_write _ = true |- exists a, Abort = Ret a =>
    exfalso; subst; simpl in Hok; discriminate
  | Hfin : _ || existsb _ _ = true, Hws : (length (_ :: _) <= length ?ws)%nat,
    Hok : forallb ready_to_write _ = true
    |- exists a, _ = Ret a =>
    apply IH; [exact Hfin|subst; simpl in Hws |- *; lia|subst; simpl in Hok; exact Hok]
  end.

Lemma fileflush_loop_returns (wrs : list (sysret N)) :
  forall ws rs eno f deadline pos remaining,
  existsb final_write wrs = true ->
  (length wrs <= length ws)%nat ->
  forallb ready_to_write ws = true ->
  exists a, fileflush_loop wrs ws rs eno f deadline pos remaining = Ret a.
Proof.
  induction wrs as [|r wrs IH]; intros ws rs eno f deadline pos remaining Hfin Hws Hok;
    [discriminate|].
  cbn [existsb] in Hfin. simpl fileflush_loop.
  destruct r as [e|n]; rewrite ?sys_write_failed; cbn [final_write] in Hfin.
  - change (write_sz (Failed e)) with (-1). change (-1 =? -1) with true.
    cbn [errno_after]. cbv iota. forward; next_write IH.
  - cbn [errno_after]. forward; next_write IH.
Qed.

(** [fileflush] returns whenever the descriptor eventually fails for good
    (it may well complete before), the scheduler answers every [fdwait],
    and none of its answers trips the assertion. *)
Lemma fileflush_returns (f : mill_file) (deadline : Z) (w : world) :
  existsb final_write (writes w) = true ->
  (length (writes w) <= length (waits w))%nat ->
  forallb ready_to_write (waits w) = true ->
  exists a, fileflush f deadline w = Ret a.
Proof.
  intros Hfin Hws Hok. unfold fileflush.
  destruct (olen f =? 0); [eexists; reflexivity|].
  apply fileflush_loop_returns; assumption.
Qed.

(** A [write] that takes all that is pending completes the flush in one
    call. *)
Lemma fileflush_completes (f : mill_file) (deadline : Z) (w : world) (n : N)
    (wrs : list (sysret N)) :
  0 < olen f <= SSIZE_MAX ->
  writes w = Got n :: wrs ->
  olen f <= Z.of_N n ->
  fileflush f deadline w =
    Ret (After tt (set_olen f 0) (World 0 (reads w) wrs (waits w))
           [EvWrite (fd f) (pending_out f) (Got (olen f))]).
Proof.
  intros Hol Hw Hn. consts. unfold fileflush.
  destruct (olen f =? 0) eqn:E0; [apply Z.eqb_eq in E0; lia|].
  rewrite Hw. simpl fileflush_loop. rewrite E0.
  unfold sys_write, xfer_max. rewrite (wrap_small (olen f)) by lia.
  replace (Z.min (Z.of_N n) (Z.min (olen f) SSIZE_MAX)) with (olen f) by lia.
  cbn [write_sz errno_after].
  replace (olen f =? -1) with false by (symmetry; apply Z.eqb_neq; lia).
  replace (wrap (olen f - olen f)) with 0 by (rewrite Z.sub_diag; reflexivity).
  destruct wrs; reflexivity.
Qed.

(** ** C1: an error in the middle of a direct write *)

(** C1. A payload of 4097 bytes on an empty output buffer takes the direct
    path; the first [write] transfers one byte and the second fails with
    [EIO].  [filewrite] returns 0 with [errno = EIO], although one byte of
    the payload was transferred. *)
Theorem filewrite_error_drops_count :
  exists a,
    filewrite (fresh_channel S_IFIFO) (repeat x61 4097) 0
      (World 0 [] [Got 1%N; Failed 5%positive] []) = Ret a /\
    calls a = [EvWrite 3 (repeat x61 4097) (Got 1); EvWrite 3 (repeat x61 4096) (Failed 5)] /\
    bytes_written (calls a) = 1 /\
    errno (env a) = EIO /\
    ret a = 0.
Proof.
  eexists. split; [vm_compute; reflexivity|].
  repeat split; vm_compute; reflexivity.
Qed.

(** ** C2: a flush cut short by the deadline *)

Lemma fileflush_first_call (f : mill_file) (deadline : Z) (w : world) (a : after unit) :
  olen f <> 0 ->
  fileflush f deadline w = Ret a ->
  exists r tr, calls a = EvWrite (fd f) (pending_out f) r :: tr.
Proof.
  intros Hol H. unfold fileflush in H.
  destruct (olen f =? 0) eqn:E0; [apply Z.eqb_eq in E0; contradiction|].
  destruct (writes w) as [|r wrs]; simpl in H; rewrite E0 in H; [discriminate|].
  apply emit_ret in H. destruct H as (a' & _ & ->).
  eexists. eexists. reflexivity.
Qed.

(** Two bytes are pending; the first [write] takes one of them, the second
    would block, and [fdwait] times out.  The buffer still holds both bytes
    and [olen] is still 2, where a compacted buffer would hold the one
    unsent byte; the next flush offers the byte already written once more. *)
Lemma fileflush_timeout_not_compacted :
  exists a,
    fileflush (channel_with_output S_IFIFO [x61; x62]) 0
      (World 0 [] [Got 1%N; Failed 11%positive] [TimedOut]) = Ret a /\
    calls a = [EvWrite 3 [x61; x62] (Got 1); EvWrite 3 [x62] (Failed 11);
               EvWait 3 FDW_OUT 0 TimedOut] /\
    errno (env a) = ETIMEDOUT /\
    bytes_written (calls a) = 1 /\
    olen (file a) = 2 /\
    pending_out (file a) = [x61; x62] /\
    olen (file a) <> olen (channel_with_output S_IFIFO [x61; x62]) - bytes_written (calls a) /\
    pending_out (file a) <> [x62] /\
    exists a',
      fileflush (file a) 0 (World 0 [] [Got 2%N] []) = Ret a' /\
      calls a' = [EvWrite 3 [x61; x62] (Got 2)].
Proof.
  eexists. split; [vm_compute; reflexivity|].
  repeat split; try (vm_compute; reflexivity); try (vm_compute; discriminate).
  eexists. split; vm_compute; reflexivity.
Qed.

(** C2, as the code has it.  When [fileflush] returns after a deadline
    expiry, [errno] is [ETIMEDOUT] and the channel is exactly as it was
    before the call: [olen] and the pending bytes are unchanged, so the
    unsent bytes are preserved, but the bytes already written stay pending
    with them (fewer bytes were written than were pending), and the next
    flush offers the whole pending region again from its first byte. *)
Theorem fileflush_timeout_keeps_buffer (f : mill_file) (deadline : Z) (w : world)
    (a : after unit) :
  0 <= olen f < SIZE_MOD ->
  fileflush f deadline w = Ret a ->
  ends_timed_out (calls a) = true ->
  errno (env a) = ETIMEDOUT /\
  file a = f /\
  0 <= bytes_written (calls a) < olen f /\
  forall deadline' w' a',
    fileflush (file a) deadline' w' = Ret a' ->
    exists r tr, calls a' = EvWrite (fd f) (pending_out f) r :: tr.
Proof.
  intros Hol H Hto.
  destruct (fileflush_spec f deadline w a Hol H)
    as [_ [(_ & _ & _ & Hnt)|(Hf & Hb & Hend)]].
  - rewrite Hnt in Hto. discriminate.
  - assert (He : errno (env a) = ETIMEDOUT).
    { destruct Hend as [[_ He]|He]; [exact He|].
      apply ends_in_error_not_timed_out in He. rewrite He in Hto. discriminate. }
    repeat split; try assumption; try lia.
    intros deadline' w' a' H'. rewrite Hf in H'.
    apply (fileflush_first_call f deadline' w' a'); [lia|exact H'].
Qed.

Lemma fileflush_timeout_keeps_buffer_witness :
  exists a,
    fileflush (channel_with_output S_IFIFO [x61; x62]) 0
      (World 0 [] [Got 1%N; Failed 11%positive] [TimedOut]) = Ret a /\
    errno (env a) = ETIMEDOUT /\
    file a = channel_with_output S_IFIFO [x61; x62].
Proof.
  eexists. split; [vm_compute; reflexivity|].
  destruct (fileflush_timeout_keeps_buffer (channel_with_output S_IFIFO [x61; x62]) 0
              (World 0 [] [Got 1%N; Failed 11%positive] [TimedOut])
              (After tt (channel_with_output S_IFIFO [x61; x62])
                 (World ETIMEDOUT [] [] [])
                 [EvWrite 3 [x61; x62] (Got 1); EvWrite 3 [x62] (Failed 11);
                  EvWait 3 FDW_OUT 0 TimedOut]))
    as (He & Hf & _).
  - vm_compute. split; [discriminate|reflexivity].
  - vm_compute. reflexivity.
  - reflexivity.
  - split; [exact He|exact Hf].
Defined.

(** ** C3: a short read and its causes *)

(** One byte is asked of a FIFO whose first [read] fails with [EIO]:
    [fileread] returns 0 bytes, the end-of-stream flag is not set, no
    [fdwait] timed out and [errno] is not [ETIMEDOUT]. *)
Lemma fileread_short_on_error :
  exists a,
    fileread (fresh_channel S_IFIFO) 1 0 (World 0 [Failed 5%positive] [] []) = Ret a /\
    calls a = [EvRead 3 4096 (Failed 5)] /\
    fst (ret a) = 0 /\ fst (ret a) < 1 /\
    eof (file a) = 0 /\
    ends_at_eof (calls a) = false /\
    ends_timed_out (calls a) = false /\
    errno (env a) = EIO /\
    errno (env a) <> ETIMEDOUT.
Proof.
  eexists. split; [vm_compute; reflexivity|].
  repeat split; try (vm_compute; reflexivity). vm_compute. discriminate.
Qed.

(** C3, as the code has it.  [fileread] returns at most [len] bytes, and
    [len] bytes with [errno = 0] unless it stopped short; whenever it
    returns fewer than [len] bytes, its last [read] returned zero bytes and
    the end-of-stream flag is set, or its last call is an [fdwait] that timed
    out and [errno] is [ETIMEDOUT], or its last [read] failed with an error
    other than would-block and [errno] holds that error. *)
Theorem fileread_short_causes (f : mill_file) (len deadline : Z) (w : world)
    (a : after (Z * list byte)) :
  0 <= ilen f ->
  0 <= len < SIZE_MOD ->
  fileread f len deadline w = Ret a ->
  0 <= fst (ret a) <= len /\
  (fst (ret a) = len -> errno (env a) = 0) /\
  (fst (ret a) < len ->
   (ends_at_eof (calls a) = true /\ eof (file a) = 1) \/
   (ends_timed_out (calls a) = true /\ errno (env a) = ETIMEDOUT) \/
   ends_in_error (calls a) = Some (errno (env a))).
Proof.
  intros Hil Hlen H.
  destruct (fileread_count f len deadline w a Hil Hlen H) as [_ [[Hr He]|[Hr Hs]]].
  - split; [lia|]. split; [intros _; exact He|intros Hlt; lia].
  - split; [lia|]. split; [intros Heq; lia|intros _; exact Hs].
Qed.

Lemma fileread_short_causes_witness :
  exists a,
    fileread (fresh_channel S_IFIFO) 2 0 (World 0 [Got [x61]; Got []] [] [Ready FDW_IN]) = Ret a /\
    fst (ret a) = 1 /\
    ((ends_at_eof (calls a) = true /\ eof (file a) = 1) \/
     (ends_timed_out (calls a) = true /\ errno (env a) = ETIMEDOUT) \/
     ends_in_error (calls a) = Some (errno (env a))).
Proof.
  eexists. split; [vm_compute; reflexivity|]. split; [reflexivity|].
  match goal with |- (ends_at_eof (calls ?a) = _ /\ _) \/ _ =>
    destruct (fileread_short_causes (fresh_channel S_IFIFO) 2 0
                (World 0 [Got [x61]; Got []] [] [Ready FDW_IN]) a) as (_ & _ & Hs)
  end.
  - simpl. lia.
  - vm_compute. split; [discriminate|reflexivity].
  - vm_compute. reflexivity.
  - apply Hs. vm_compute. reflexivity.
Defined.

(** ** C4: the watermark bounds *)

(** With marks 1 and 2 on a FIFO whose first [read] fails with [EIO],
    [filereadlh] returns 0 bytes, fewer than the low-water mark, with neither
    end of stream nor a timeout. *)
Lemma filereadlh_short_on_error :
  exists a,
    filereadlh (fresh_channel S_IFIFO) 1 2 0 (World 0 [Failed 5%positive] [] []) = Ret a /\
    calls a = [EvRead 3 4096 (Failed 5)] /\
    fst (ret a) = 0 /\ fst (ret a) < 1 /\
    eof (file a) = 0 /\
    ends_at_eof (calls a) = false /\
    ends_timed_out (calls a) = false /\
    errno (env a) = EIO /\
    errno (env a) <> ETIMEDOUT.
Proof.
  eexists. split; [vm_compute; reflexivity|].
  repeat split; try (vm_compute; reflexivity). vm_compute. discriminate.
Qed.

(** C4, as the code has it.  For [lowwater <= highwater <= capacity],
    [filereadlh] returns at most [highwater] bytes; it returns fewer than
    [lowwater] only when its last [read] found the end of the stream, its
    last [fdwait] timed out, or its last [read] failed with an error other
    than would-block.  The bytes returned followed by the bytes kept in the
    input buffer are the bytes that were buffered followed by the bytes the
    [read]s delivered; when these are more than [highwater], exactly
    [highwater] bytes are returned and the excess stays in the input
    buffer. *)
Theorem filereadlh_watermarks (f : mill_file) (lowwater highwater deadline : Z) (w : world)
    (a : after (Z * list byte)) :
  ibuf_inv f ->
  Z.of_nat (length (ibuf f)) = MILL_FILE_BUFLEN ->
  0 <= lowwater <= highwater -> highwater <= MILL_FILE_BUFLEN ->
  filereadlh f lowwater highwater deadline w = Ret a ->
  0 <= fst (ret a) <= highwater /\
  Z.of_nat (length (snd (ret a))) = fst (ret a) /\
  (fst (ret a) < lowwater ->
   (ends_at_eof (calls a) = true /\ eof (file a) = 1) \/
   (ends_timed_out (calls a) = true /\ errno (env a) = ETIMEDOUT) \/
   ends_in_error (calls a) = Some (errno (env a))) /\
  snd (ret a) ++ pending_in (file a) = pending_in f ++ bytes_read (calls a) /\
  (highwater < Z.of_nat (length (pending_in f ++ bytes_read (calls a))) ->
   fst (ret a) = highwater /\
   pending_in (file a) = skipn (Z.to_nat highwater) (pending_in f ++ bytes_read (calls a))).
Proof.
  intros Hinv Hbuf Hlh Hhw H. consts.
  assert (Hil : 0 <= ilen f) by (unfold ibuf_inv in Hinv; lia).
  assert (Hmax : highwater <= SSIZE_MAX) by lia.
  destruct (filereadlh_count f lowwater highwater deadline w a Hil Hlh Hmax H)
    as [_ Hcount].
  destruct (filereadlh_data f lowwater highwater deadline w a Hinv Hbuf Hlh Hmax H)
    as (Hlen & Hcons & Hover).
  split; [destruct Hcount as [[Hr _]|[Hr _]]; lia|].
  split; [exact Hlen|].
  split; [intros Hlt; destruct Hcount as [[Hr _]|[_ Hs]]; [lia|exact Hs]|].
  split; [exact Hcons|].
  intros Hgt. split; [apply Hover; exact Hgt|].
  rewrite <- Hcons, skipn_app.
  replace (Z.to_nat highwater) with (length (snd (ret a))) by (rewrite <- (Hover Hgt); lia).
  rewrite skipn_all, Nat.sub_diag, skipn_O. reflexivity.
Qed.

Lemma filereadlh_watermarks_witness :
  exists a,
    filereadlh (channel_with_input S_IFIFO [x61]) 2 3 0
      (World 0 [Got [x62; x63; x64; x65]] [] []) = Ret a /\
    ret a = (3, [x61; x62; x63]) /\
    pending_in (file a) = [x64; x65].
Proof.
  eexists. split; [vm_compute; reflexivity|]. split; [reflexivity|].
  match goal with |- pending_in (file ?a) = _ =>
    destruct (filereadlh_watermarks (channel_with_input S_IFIFO [x61]) 2 3 0
                (World 0 [Got [x62; x63; x64; x65]] [] []) a)
      as (_ & _ & _ & _ & Hover)
  end.
  - unfold ibuf_inv, MILL_FILE_BUFLEN. cbn [ifirst ilen channel_with_input length]. lia.
  - vm_compute. reflexivity.
  - lia.
  - vm_compute. discriminate.
  - vm_compute. reflexivity.
  - apply proj2 in Hover; [|vm_compute; reflexivity].
    rewrite Hover. vm_compute. reflexivity.
Defined.

(** ** C5: when the loops ask to be suspended *)

(** On a FIFO, [fileread] of two bytes gets one byte from its first [read]
    and calls [fdwait] at once, before any further [read]: the suspension
    follows a call that transferred a byte, not one that would block. *)
Lemma fileread_waits_after_partial_read :
  exists a,
    fileread (fresh_channel S_IFIFO) 2 7 (World 0 [Got [x61]; Got [x62]] [] [TimedOut]) = Ret a /\
    calls a = [EvRead 3 4096 (Got [x61]); EvWait 3 FDW_IN 7 TimedOut] /\
    would_block (EvRead 3 4096 (Got [x61])) = false /\
    waits_follow would_block None (calls a) = false.
Proof.
  eexists. split; [vm_compute; reflexivity|].
  repeat split; vm_compute; reflexivity.
Qed.

(** C5, as the code has it.  No operation calls [fdwait] on a regular file
    or a directory.  In [filewrite] and [fileflush] every [fdwait] comes
    immediately after a [write] that reported would-block, so a [write] that
    transfers bytes is never followed by a suspension.  In [fileread] and
    [filereadlh] every [fdwait] comes immediately after a [read] that either
    reported would-block or delivered at least one byte without completing
    the request; never after a [read] of zero bytes or another error. *)
Theorem fdwait_discipline (o : op) (f : mill_file) (w : world) (a : after unit) :
  exec o f w = Ret a ->
  waits_follow (may_precede_wait o) None (calls a) = true /\
  (skips_fdwait f = true -> none_of is_wait (calls a) = true).
Proof.
  intros H. destruct o; simpl in H.
  - apply forget_ret in H. destruct H as (a' & H & ->). cbn [calls].
    apply filewrite_ok in H.
    destruct H as (_ & _ & _ & _ & _ & _ & _ & _ & Hnw & Hwf).
    split; [apply Hwf|exact Hnw].
  - apply fileflush_ok in H. destruct H as [H _].
    destruct H as (_ & _ & _ & _ & _ & _ & _ & _ & Hnw & Hwf).
    split; [apply Hwf|exact Hnw].
  - apply forget_ret in H. destruct H as (a' & H & ->). cbn [calls].
    apply fileread_ok in H. destruct H as (_ & _ & _ & _ & _ & _ & Hnw & Hwf & _).
    split; [apply Hwf|exact Hnw].
  - apply forget_ret in H. destruct H as (a' & H & ->). cbn [calls].
    apply filereadlh_ok in H. destruct H as (_ & _ & _ & _ & _ & _ & Hnw & Hwf & _).
    split; [apply Hwf|exact Hnw].
  - injection H as <-. split; reflexivity.
  - injection H as <-. split; reflexivity.
  - injection H as <-. split; reflexivity.
  - injection H as <-. split; reflexivity.
Qed.

Lemma fdwait_discipline_witness :
  exists a,
    exec (OpRead 2 7) (fresh_channel S_IFIFO)
      (World 0 [Got [x61]; Got [x62]] [] [TimedOut]) = Ret a /\
    calls a = [EvRead 3 4096 (Got [x61]); EvWait 3 FDW_IN 7 TimedOut] /\
    waits_follow (may_precede_wait (OpRead 2 7)) None (calls a) = true.
Proof.
  eexists. split; [vm_compute; reflexivity|]. split; [reflexivity|].
  match goal with |- waits_follow _ _ (calls ?a) = true =>
    apply (fdwait_discipline (OpRead 2 7) (fresh_channel S_IFIFO)
             (World 0 [Got [x61]; Got [x62]] [] [TimedOut]) a)
  end.
  vm_compute. reflexivity.
Defined.

(** ** C6: the end-of-stream flag *)

(** C6. [fileattach] sets [fd], [ifirst], [ilen] and [olen] and leaves
    [f->eof] as [malloc] handed it over: attached to a block whose [eof]
    field holds 1, the channel reports end of stream before any read. *)
Theorem fileattach_eof_not_cleared :
  (forall d block getfl rc w,
     exists f, fileattach d (Some block) getfl (Got rc) w = Ret (Some f, set_errno w 0) /\
               fileeof f = eof block) /\
  (exists f w',
     fileattach 3 (Some (MillFile 0 9 9 9 (repeat xff 4096) (repeat xff 4096) 1 0))
       (Got 0) (Got 0) (World 0 [] [] []) = Ret (Some f, w') /\
     ifirst f = 0 /\ ilen f = 0 /\ olen f = 0 /\
     fileeof f = 1).
Proof.
  split.
  - intros d block getfl rc w. eexists. split; reflexivity.
  - eexists. eexists. split; [reflexivity|]. repeat split.
Qed.

(** Everywhere else the flag behaves as a sticky end-of-stream mark:
    [fileopen] clears it, [fileseek] clears it, [fileeof] returns it, and no
    other operation changes it except a read whose last [read] returned zero
    bytes, which sets it. *)
Lemma fileopen_eof (opened : sysret Z) (block : option mill_file) (st : sysret Z)
    (w w' : world) (f : mill_file) :
  fileopen opened block st w = (Some f, w') -> fileeof f = 0.
Proof.
  unfold fileopen. destruct opened; [discriminate|].
  destruct block; [|discriminate]. destruct st; [discriminate|].
  intros H. injection H as <- _. reflexivity.
Qed.

Lemma fileseek_eof (f : mill_file) (offset : Z) (sought : sysret Z) (w : world) :
  fileeof (snd (fst (fileseek f offset sought w))) = 0.
Proof. reflexivity. Qed.

Lemma eof_changes_only_at_end_of_stream (o : op) (f : mill_file) (w : world)
    (a : after unit) :
  exec o f w = Ret a ->
  eof (file a) = eof f \/
  (eof (file a) = 1 /\ ends_at_eof (calls a) = true) \/
  (eof (file a) = 0 /\ exists offset sought, o = OpSeek offset sought).
Proof.
  intros H. destruct o; simpl in H.
  - apply forget_ret in H. destruct H as (a' & H & ->). cbn [file].
    apply filewrite_ok in H. destruct H as (_ & _ & _ & He & _). left. exact He.
  - apply fileflush_ok in H. destruct H as [H _].
    destruct H as (_ & _ & _ & He & _). left. exact He.
  - apply forget_ret in H. destruct H as (a' & H & ->). cbn [file calls].
    apply fileread_ok in H. destruct H as (_ & _ & _ & _ & _ & _ & _ & _ & He).
    destruct He as [He|He]; [left|right; left]; exact He.
  - apply forget_ret in H. destruct H as (a' & H & ->). cbn [file calls].
    apply filereadlh_ok in H. destruct H as (_ & _ & _ & _ & _ & _ & _ & _ & He).
    destruct He as [He|He]; [left|right; left]; exact He.
  - injection H as <-. right. right. split; [reflexivity|]. eexists. eexists. reflexivity.
  - injection H as <-. left. reflexivity.
  - injection H as <-. left. reflexivity.
  - injection H as <-. left. reflexivity.
Qed.

Lemma eof_sticky (o : op) (f : mill_file) (w : world) (a : after unit) :
  exec o f w = Ret a ->
  (forall offset sought, o <> OpSeek offset sought) ->
  eof f = 1 -> eof (file a) = 1.
Proof.
  intros H Hns He.
  destruct (eof_changes_only_at_end_of_stream o f w a H) as [H1|[[H1 _]|[_ (x & y & H1)]]].
  - congruence.
  - exact H1.
  - exfalso. apply (Hns x y). exact H1.
Qed.

(** ** C7: a write that fits is buffered *)

(** C7. When [olen + len(data) <= capacity], [filewrite] copies the whole
    payload behind the pending output, adds [len(data)] to [olen], returns
    [len(data)] with [errno = 0] and makes no call on the descriptor;
    nothing else in the channel or the world changes.  In particular a
    payload of exactly [capacity] bytes on an empty output buffer is fully
    accepted, returning [capacity], with no direct write (so at most one). *)
Theorem filewrite_fits (f : mill_file) (buf : list byte) (deadline : Z) (w : world) :
  0 <= olen f ->
  olen f + Z.of_nat (length buf) <= MILL_FILE_BUFLEN ->
  Z.of_nat (length (obuf f)) = MILL_FILE_BUFLEN ->
  exists a,
    filewrite f buf deadline w = Ret a /\
    ret a = Z.of_nat (length buf) /\
    errno (env a) = 0 /\
    calls a = [] /\
    olen (file a) = olen f + Z.of_nat (length buf) /\
    pending_out (file a) = pending_out f ++ buf /\
    set_olen (set_obuf (file a) (obuf f)) (olen f) = f /\
    env a = set_errno w 0 /\
    (olen f = 0 -> Z.of_nat (length buf) = MILL_FILE_BUFLEN ->
     ret a = MILL_FILE_BUFLEN /\ (length (filter is_write (calls a)) <= 1)%nat).
Proof.
  intros H0 Hfit Hlen. consts.
  unfold filewrite. rewrite (wrap_small (olen f + _)) by lia.
  destruct (olen f + Z.of_nat (length buf) <=? MILL_FILE_BUFLEN) eqn:E;
    [|apply Z.leb_gt in E; lia].
  unfold buffer_output. rewrite (wrap_small (olen f + _)) by lia.
  eexists. split; [reflexivity|]. simpl.
  repeat split; try reflexivity.
  - unfold pending_out. simpl. apply slice_memcpy_at_end. lia.
  - destruct f; reflexivity.
  - lia.
  - lia.
Qed.

Lemma filewrite_fits_witness :
  exists a,
    filewrite (fresh_channel S_IFIFO) (repeat x61 4096) 0 (World 0 [] [] []) = Ret a /\
    ret a = 4096 /\ calls a = [] /\ olen (file a) = 4096.
Proof.
  destruct (filewrite_fits (fresh_channel S_IFIFO) (repeat x61 4096) 0 (World 0 [] [] []))
    as (a & Hrun & Hret & _ & Hcalls & Holen & _).
  - simpl. lia.
  - vm_compute. discriminate.
  - vm_compute. reflexivity.
  - exists a. split; [exact Hrun|]. split; [|split]; [|exact Hcalls|].
    + rewrite Hret. vm_compute. reflexivity.
    + rewrite Holen. vm_compute. reflexivity.
Defined.

(** ** C8: flushing an empty buffer *)

(** C8. [fileflush] on a channel with [olen = 0] returns with [errno = 0],
    makes no call and leaves the channel and the rest of the world as they
    are; and after a flush that returned with [errno = 0], a second flush
    makes no call, changes neither the channel nor the world, and succeeds. *)
Theorem fileflush_idempotent :
  (forall f deadline w,
     olen f = 0 -> fileflush f deadline w = Ret (After tt f (set_errno w 0) [])) /\
  (forall f deadline deadline' w a,
     0 <= olen f < SIZE_MOD ->
     fileflush f deadline w = Ret a ->
     errno (env a) = 0 ->
     fileflush (file a) deadline' (env a) = Ret (After tt (file a) (env a) [])).
Proof.
  assert (Hempty : forall f deadline w,
     olen f = 0 -> fileflush f deadline w = Ret (After tt f (set_errno w 0) [])).
  { intros f deadline w H. unfold fileflush. rewrite H. reflexivity. }
  split; [exact Hempty|].
  intros f deadline deadline' w a Hol H Herr.
  destruct (fileflush_spec f deadline w a Hol H) as [_ [(Hf & _)|(_ & _ & Hend)]].
  - rewrite Hempty by (rewrite Hf; reflexivity).
    rewrite set_errno_same by exact Herr. reflexivity.
  - exfalso. destruct Hend as [[_ He]|He].
    + rewrite Herr in He. discriminate.
    + apply ends_in_error_pos in He. lia.
Qed.

Lemma fileflush_idempotent_witness :
  exists a,
    fileflush (channel_with_output S_IFIFO [x61; x62]) 0 (World 0 [] [Got 2%N] []) = Ret a /\
    calls a = [EvWrite 3 [x61; x62] (Got 2)] /\
    fileflush (file a) 1 (env a) = Ret (After tt (file a) (env a) []) /\
    fileflush (fresh_channel S_IFIFO) 0 (World 5 [] [] []) =
      Ret (After tt (fresh_channel S_IFIFO) (World 0 [] [] []) []).
Proof.
  eexists. split; [vm_compute; reflexivity|]. split; [reflexivity|]. split.
  - apply (proj2 fileflush_idempotent (channel_with_output S_IFIFO [x61; x62]) 0 1
             (World 0 [] [Got 2%N] [])).
    + vm_compute. split; [discriminate|reflexivity].
    + vm_compute. reflexivity.
    + reflexivity.
  - apply (proj1 fileflush_idempotent (fresh_channel S_IFIFO) 0 (World 5 [] [] [])).
    reflexivity.
Defined.

(** ** C9: the buffer invariants *)

Lemma buf_inv_split (f : mill_file) :
  buf_inv f <-> ibuf_inv f /\ 0 <= olen f <= MILL_FILE_BUFLEN.
Proof. unfold buf_inv, ibuf_inv. tauto. Qed.

Lemma filewrite_olen (f : mill_file) (buf : list byte) (deadline : Z) (w : world)
    (a : after Z) :
  0 <= olen f <= MILL_FILE_BUFLEN ->
  filewrite f buf deadline w = Ret a ->
  0 <= olen (file a) <= MILL_FILE_BUFLEN.
Proof.
  intros Hol H. unfold filewrite, buffer_output in H.
  destruct (wrap (olen f + Z.of_nat (length buf)) <=? MILL_FILE_BUFLEN) eqn:E.
  { injection H as <-. cbn [file olen set_olen]. bools.
    pose proof (wrap_range (olen f + Z.of_nat (length buf))). lia. }
  destruct (fileflush f deadline w) as [a1| |] eqn:Hfl; try discriminate.
  apply fileflush_ok in Hfl. destruct Hfl as [_ Hfile].
  assert (Hol1 : 0 <= olen (file a1) <= MILL_FILE_BUFLEN).
  { destruct Hfile as [-> | ->]; [exact Hol|]. cbn [olen set_olen]. consts. lia. }
  paths H.
  - exact Hol1.
  - cbn [olen set_olen]. bools.
    pose proof (wrap_range (olen (file a1) + Z.of_nat (length buf))). lia.
  - apply filewrite_loop_ok in H. destruct H as (Hf & _).
    assert (Hf' : file a0 = file a1) by (destruct Hf; assumption).
    rewrite Hf'. exact Hol1.
Qed.

(** Every operation keeps the invariants of both buffers. *)
Lemma exec_buf_inv (o : op) (f : mill_file) (w : world) (a : after unit) :
  valid_call o -> buf_inv f -> exec o f w = Ret a -> buf_inv (file a).
Proof.
  intros Hv Hinv H. apply buf_inv_split in Hinv. destruct Hinv as [Hin Hol].
  apply buf_inv_split. destruct o; simpl in H, Hv.
  - apply forget_ret in H. destruct H as (a' & H & ->). cbn [file].
    split; [|apply (filewrite_olen f buf deadline w a' Hol H)].
    apply filewrite_ok in H. destruct H as (H1 & H2 & _).
    unfold ibuf_inv in *. rewrite H1, H2. exact Hin.
  - apply fileflush_ok in H. destruct H as [_ [-> | ->]]; [split; assumption|].
    split; [exact Hin|]. cbn [olen set_olen]. consts. lia.
  - apply forget_ret in H. destruct H as (a' & H & ->). cbn [file].
    assert (Hil : 0 <= ilen f) by (unfold ibuf_inv in Hin; lia).
    destruct (fileread_count f len deadline w a' Hil Hv H) as [Hi _].
    apply fileread_ok in H. destruct H as (H1 & _).
    split; [apply Hi; exact Hin|rewrite H1; exact Hol].
  - apply forget_ret in H. destruct H as (a' & H & ->). cbn [file].
    assert (Hil : 0 <= ilen f) by (unfold ibuf_inv in Hin; lia).
    destruct Hv as [Hlh Hhw].
    destruct (filereadlh_count f lowwater highwater deadline w a' Hil Hlh Hhw H) as [Hi _].
    apply filereadlh_ok in H. destruct H as (H1 & _).
    split; [apply Hi; exact Hin|rewrite H1; exact Hol].
  - injection H as <-. cbn [file]. unfold ibuf_inv. simpl. consts. lia.
  - injection H as <-. split; assumption.
  - injection H as <-. split; assumption.
  - injection H as <-. split; assumption.
Qed.

(** C9. Every channel made by [fileopen] or [fileattach] and then used
    through the operations ([filewrite], [fileflush], [fileread],
    [filereadlh] with [lowwater <= highwater], [fileseek], [filetell],
    [filesize], [fileeof]) satisfies [0 <= ifirst], [0 <= ilen],
    [ifirst + ilen <= capacity] and [0 <= olen <= capacity]. *)
Theorem reachable_buf_inv (f : mill_file) : reachable f -> buf_inv f.
Proof.
  intros H. induction H as [opened block st w f w' H|d block getfl setfl w f w' H
                           |f o w a Hreach IH Hv H].
  - unfold fileopen in H.
    destruct opened; [discriminate|]. destruct block; [|discriminate].
    destruct st; [discriminate|]. injection H as <- _.
    unfold buf_inv. simpl. consts. lia.
  - unfold fileattach in H. destruct block; [|discriminate].
    destruct (mill_filetune getfl setfl); [|discriminate].
    injection H as <- _. unfold buf_inv. simpl. consts. lia.
  - apply (exec_buf_inv o f w a Hv IH H).
Qed.

Lemma reachable_buf_inv_witness :
  reachable half_read_channel /\ buf_inv half_read_channel.
Proof.
  assert (Hr : reachable half_read_channel).
  { apply (reach_step (fresh_channel S_IFREG) (OpRead 1 0)
             (World 0 [Got [x61; x62]] [] [])
             (After tt half_read_channel (World 0 [] [] [])
                [EvRead 3 4096 (Got [x61; x62])])).
    - apply (reach_open (Got 3) (Some (fresh_channel 0)) (Got S_IFREG) (World 0 [] [] [])
               (fresh_channel S_IFREG) (World 0 [] [] [])).
      reflexivity.
    - simpl. split; [lia|reflexivity].
    - vm_compute. reflexivity. }
  split; [exact Hr|]. apply reachable_buf_inv. exact Hr.
Defined.

(** ** C10: the two directions are separate *)

(** C10. [fileread] and [filereadlh] never change [olen] or the output
    buffer, make no [write] and consume none of the answers to [write]s,
    whether they succeed, time out or fail; [filewrite] and [fileflush]
    never change [ifirst], [ilen], the input buffer or the end-of-stream
    flag, make no [read] and consume none of the answers to [read]s. *)
Theorem direction_separation :
  (forall f len deadline w a,
     fileread f len deadline w = Ret a ->
     olen (file a) = olen f /\ obuf (file a) = obuf f /\
     pending_out (file a) = pending_out f /\
     none_of is_write (calls a) = true /\ writes (env a) = writes w) /\
  (forall f lowwater highwater deadline w a,
     filereadlh f lowwater highwater deadline w = Ret a ->
     olen (file a) = olen f /\ obuf (file a) = obuf f /\
     pending_out (file a) = pending_out f /\
     none_of is_write (calls a) = true /\ writes (env a) = writes w) /\
  (forall f buf deadline w a,
     filewrite f buf deadline w = Ret a ->
     ifirst (file a) = ifirst f /\ ilen (file a) = ilen f /\ ibuf (file a) = ibuf f /\
     pending_in (file a) = pending_in f /\ eof (file a) = eof f /\
     none_of is_read (calls a) = true /\ reads (env a) = reads w) /\
  (forall f deadline w a,
     fileflush f deadline w = Ret a ->
     ifirst (file a) = ifirst f /\ ilen (file a) = ilen f /\ ibuf (file a) = ibuf f /\
     pending_in (file a) = pending_in f /\ eof (file a) = eof f /\
     none_of is_read (calls a) = true /\ reads (env a) = reads w).
Proof.
  repeat split.
  1-5: apply fileread_ok in H; destruct H as (H1 & H2 & H3 & H4 & H5 & H6 & _);
    unfold pending_out; congruence.
  1-5: apply filereadlh_ok in H; destruct H as (H1 & H2 & H3 & H4 & H5 & H6 & _);
    unfold pending_out; congruence.
  1-7: apply filewrite_ok in H;
    destruct H as (H1 & H2 & H3 & H4 & H5 & H6 & H7 & H8 & _);
    unfold pending_in; congruence.
  1-7: apply fileflush_ok in H; destruct H as [H _];
    destruct H as (H1 & H2 & H3 & H4 & H5 & H6 & H7 & H8 & _);
    unfold pending_in; congruence.
Qed.

Lemma direction_separation_witness :
  (exists a,
     fileread (channel_with_output S_IFIFO [x61]) 2 0
       (World 0 [Got [x62]] [Got 1%N] [TimedOut]) = Ret a /\
     pending_out (file a) = [x61] /\ writes (env a) = [Got 1%N]) /\
  (exists a,
     filereadlh (channel_with_output S_IFIFO [x61]) 1 2 0
       (World 0 [Got [x62]] [Got 1%N] []) = Ret a /\
     pending_out (file a) = [x61] /\ writes (env a) = [Got 1%N]) /\
  (exists a,
     filewrite (channel_with_input S_IFIFO [x61]) [x62] 0
       (World 0 [Got [x63]] [] []) = Ret a /\
     pending_in (file a) = [x61] /\ reads (env a) = [Got [x63]]) /\
  (exists a,
     fileflush (channel_with_output S_IFIFO [x61]) 0
       (World 0 [Got [x63]] [Got 1%N] []) = Ret a /\
     eof (file a) = 0 /\ reads (env a) = [Got [x63]]).
Proof.
  destruct direction_separation as (Hr & Hlh & Hw & Hfl).
  split; [|split; [|split]].
  - eexists. split; [vm_compute; reflexivity|].
    match goal with |- pending_out (file ?a) = _ /\ _ =>
      destruct (Hr (channel_with_output S_IFIFO [x61]) 2 0
                  (World 0 [Got [x62]] [Got 1%N] [TimedOut]) a) as (_ & _ & Hp & _ & Hws)
    end; [vm_compute; reflexivity|].
    split; [rewrite Hp|rewrite Hws]; reflexivity.
  - eexists. split; [vm_compute; reflexivity|].
    match goal with |- pending_out (file ?a) = _ /\ _ =>
      destruct (Hlh (channel_with_output S_IFIFO [x61]) 1 2 0
                  (World 0 [Got [x62]] [Got 1%N] []) a) as (_ & _ & Hp & _ & Hws)
    end; [vm_compute; reflexivity|].
    split; [rewrite Hp|rewrite Hws]; reflexivity.
  - eexists. split; [vm_compute; reflexivity|].
    match goal with |- pending_in (file ?a) = _ /\ _ =>
      destruct (Hw (channel_with_input S_IFIFO [x61]) [x62] 0
                  (World 0 [Got [x63]] [] []) a) as (_ & _ & _ & Hp & _ & _ & Hrs)
    end; [vm_compute; reflexivity|].
    split; [rewrite Hp|rewrite Hrs]; reflexivity.
  - eexists. split; [vm_compute; reflexivity|].
    match goal with |- eof (file ?a) = _ /\ _ =>
      destruct (Hfl (channel_with_output S_IFIFO [x61]) 0
                  (World 0 [Got [x63]] [Got 1%N] []) a) as (_ & _ & _ & _ & He & _ & Hrs)
    end; [vm_compute; reflexivity|].
    split; [rewrite He|rewrite Hrs]; reflexivity.
Defined.

(** * Further properties *)

(** ** The bytes the write loops send *)

Lemma bytes_sent_app (tr1 tr2 : list event) :
  bytes_sent (tr1 ++ tr2) = bytes_sent tr1 ++ bytes_sent tr2.
Proof.
  induction tr1 as [|e tr1 IH]; [reflexivity|].
  destruct e as [? ? ?|? ? [?|n]|? ? ? ?]; simpl; rewrite ?IH, ?app_assoc; reflexivity.
Qed.

Lemma firstn_slice (a : list byte) (pos n m : Z) :
  0 <= n <= m -> firstn (Z.to_nat n) (slice a pos m) = slice a pos n.
Proof.
  intros H. unfold slice. rewrite firstn_firstn.
  replace (Nat.min (Z.to_nat n) (Z.to_nat m)) with (Z.to_nat n) by lia. reflexivity.
Qed.

Lemma sent_step (a : list byte) (pos n m k : Z) :
  0 <= pos -> 0 <= n <= m -> 0 <= k ->
  firstn (Z.to_nat n) (slice a pos m) ++ slice a (pos + n) k = slice a pos (n + k).
Proof.
  intros Hp Hn Hk. rewrite firstn_slice by exact Hn.
  rewrite <- (slice_split a pos n (n + k)) by lia.
  replace (n + k - n) with k by lia. reflexivity.
Qed.

Lemma ends_in_error_cons_none (e : event) (tr : list event) :
  ends_in_error [e] = None -> ends_in_error tr = None -> ends_in_error (e :: tr) = None.
Proof.
  unfold ends_in_error. rewrite last_call_cons. destruct tr; simpl; trivial.
Qed.

Lemma fileflush_loop_sent (wrs : list (sysret N)) :
  forall ws rs eno f deadline pos remaining a,
  0 <= pos -> 0 <= remaining < SIZE_MOD ->
  fileflush_loop wrs ws rs eno f deadline pos remaining = Ret a ->
  0 <= bytes_written (calls a) <= remaining /\
  bytes_sent (calls a) = slice (obuf f) pos (bytes_written (calls a)).
Proof.
  induction wrs as [|r wrs IH]; intros ws rs eno f deadline pos remaining a Hpos Hrem H;
    simpl in H.
  - paths H. cbn [bytes_written bytes_sent]. rewrite slice_nil. split; [lia|reflexivity].
  - destruct (remaining =? 0) eqn:E0.
    { paths H. cbn [bytes_written bytes_sent]. rewrite slice_nil. split; [lia|reflexivity]. }
    apply Z.eqb_neq in E0. consts.
    assert (Hx : xfer_max remaining <= remaining) by (apply xfer_max_le; lia).
    on_write_sz H.
    + paths H; cbn [app bytes_written bytes_sent]; rewrite ?slice_nil;
        try (split; [lia|reflexivity]); apply IH in H; try lia; exact H.
    + apply sys_write_got in Eres.
      replace (n =? -1) with false in H by (symmetry; apply Z.eqb_neq; lia).
      paths H. cbn [app bytes_written bytes_sent].
      rewrite (wrap_small (remaining - n)) in H by lia.
      apply IH in H; [|lia|lia]. destruct H as [Hb Hs]. split; [lia|].
      rewrite Hs. apply sent_step; lia.
Qed.

Lemma filewrite_loop_sent (wrs : list (sysret N)) :
  forall ws rs eno f buf len deadline pos remaining a,
  0 <= pos -> 0 <= remaining <= len -> len < SIZE_MOD ->
  filewrite_loop wrs ws rs eno f buf len deadline pos remaining = Ret a ->
  0 <= bytes_written (calls a) <= remaining /\
  bytes_sent (calls a) = slice buf pos (bytes_written (calls a)) /\
  ((ret a = len /\ bytes_written (calls a) = remaining /\
    ends_timed_out (calls a) = false /\ ends_in_error (calls a) = None /\
    (errno (env a) = eno \/ not_would_block (errno (env a)) = false)) \/
   (ends_timed_out (calls a) = true /\ errno (env a) = ETIMEDOUT /\
    ret a = len - remaining + bytes_written (calls a) /\
    bytes_written (calls a) < remaining) \/
   (ends_in_error (calls a) = Some (errno (env a)) /\ ret a = 0)).
Proof.
  induction wrs as [|r wrs IH];
    intros ws rs eno f buf len deadline pos remaining a Hpos Hrem Hlen H;
    simpl in H.
  - paths H. bools. cbn [bytes_written bytes_sent]. rewrite slice_nil.
    split; [lia|]. split; [reflexivity|left]. repeat split; auto; lia.
  - destruct (remaining =? 0) eqn:E0.
    { paths H. bools. cbn [bytes_written bytes_sent]. rewrite slice_nil.
      split; [lia|]. split; [reflexivity|left]. repeat split; auto; lia. }
    apply Z.eqb_neq in E0. consts.
    assert (Hx : xfer_max remaining <= remaining) by (apply xfer_max_le; lia).
    on_write_sz H.
    + assert (Hwb : forall d dat, not_would_block (Z.pos e) = false ->
                ends_in_error [EvWrite d dat (Failed e)] = None).
      { intros d dat Hnb. unfold ends_in_error. cbn. rewrite Hnb. reflexivity. }
      paths H; cbn [app bytes_written bytes_sent ret env errno]; rewrite ?slice_nil.
      * split; [lia|]. split; [reflexivity|right; right]. split; [|reflexivity].
        unfold ends_in_error. cbn. rewrite Heqb. reflexivity.
      * apply IH in H; [|lia|lia|lia].
        destruct H as (Hb & Hs & [(Hr & Hw & Hnt & Hne & He)|[(Ht & He & Hr & Hlt)|(He & Hr)]]);
          (split; [exact Hb|]); (split; [exact Hs|]).
        -- left. repeat split; try assumption.
           ++ apply ends_timed_out_cons_false; [reflexivity|exact Hnt].
           ++ apply ends_in_error_cons_none; [apply Hwb; reflexivity|exact Hne].
           ++ right. destruct He as [-> | He]; assumption.
        -- right; left. split; [apply ends_timed_out_cons; exact Ht|]. repeat split; assumption.
        -- right; right. split; [apply ends_in_error_cons; exact He|exact Hr].
      * split; [lia|]. split; [reflexivity|right; left].
        split; [reflexivity|]. split; [reflexivity|]. unwrap. lia.
      * apply IH in H; [|lia|lia|lia].
        destruct H as (Hb & Hs & [(Hr & Hw & Hnt & Hne & He)|[(Ht & He & Hr & Hlt)|(He & Hr)]]);
          (split; [exact Hb|]); (split; [exact Hs|]).
        -- left. repeat split; try assumption.
           ++ do 2 (apply ends_timed_out_cons_false; [reflexivity|]). exact Hnt.
           ++ apply ends_in_error_cons_none; [apply Hwb; reflexivity|].
              apply ends_in_error_cons_none; [reflexivity|exact Hne].
           ++ right. destruct He as [-> | He]; assumption.
        -- right; left. split; [do 2 apply ends_timed_out_cons; exact Ht|].
           repeat split; assumption.
        -- right; right. split; [do 2 apply ends_in_error_cons; exact He|exact Hr].
    + apply sys_write_got in Eres.
      replace (n =? -1) with false in H by (symmetry; apply Z.eqb_neq; lia).
      paths H. cbn [app bytes_written bytes_sent].
      rewrite (wrap_small (remaining - n)) in H by lia.
      apply IH in H; [|lia|lia|lia].
      destruct H as (Hb & Hs & [(Hr & Hw & Hnt & Hne & He)|[(Ht & He & Hr & Hlt)|(He & Hr)]]);
        (split; [lia|]); (split; [rewrite Hs; apply sent_step; lia|]).
      * left. repeat split; try assumption; try lia.
        -- apply ends_timed_out_cons_false; [reflexivity|exact Hnt].
        -- apply ends_in_error_cons_none; [reflexivity|exact Hne].
      * right; left. split; [apply ends_timed_out_cons; exact Ht|].
        repeat split; try assumption; lia.
      * right; right. split; [apply ends_in_error_cons; exact He|exact Hr].
Qed.

Lemma fileflush_sent (f : mill_file) (deadline : Z) (w : world) (a : after unit) :
  0 <= olen f < SIZE_MOD ->
  fileflush f deadline w = Ret a ->
  0 <= bytes_written (calls a) <= olen f /\
  bytes_sent (calls a) = firstn (Z.to_nat (bytes_written (calls a))) (pending_out f).
Proof.
  intros Hol H. unfold fileflush in H. destruct (olen f =? 0) eqn:E0.
  - injection H as <-. cbn [calls bytes_written bytes_sent]. split; [lia|reflexivity].
  - apply fileflush_loop_sent in H; [|lia|exact Hol]. destruct H as [Hb Hs].
    split; [exact Hb|]. rewrite Hs. unfold pending_out. symmetry. apply firstn_slice. exact Hb.
Qed.

Lemma not_would_block_false (e : Z) : not_would_block e = false -> e = EAGAIN.
Proof.
  unfold not_would_block, EWOULDBLOCK, EAGAIN. intros H.
  destruct (e =? 11) eqn:E; [apply Z.eqb_eq in E; exact E|discriminate].
Qed.

Lemma slice_all (a : list byte) : slice a 0 (Z.of_nat (length a)) = a.
Proof. rewrite slice_0, Nat2Z.id. apply firstn_all. Qed.

Lemma ends_timed_out_app (tr1 tr2 : list event) :
  tr2 <> [] -> ends_timed_out (tr1 ++ tr2) = ends_timed_out tr2.
Proof. intros H. unfold ends_timed_out. rewrite last_call_app by exact H. reflexivity. Qed.

(** [filewrite] on each of its four paths: buffered at once, stopped by a
    failed flush, buffered after a flush, or written directly after a flush. *)
Lemma filewrite_cases (f : mill_file) (buf : list byte) (deadline : Z) (w : world)
    (a : after Z) :
  0 <= olen f <= MILL_FILE_BUFLEN ->
  Z.of_nat (length (obuf f)) = MILL_FILE_BUFLEN ->
  Z.of_nat (length buf) <= SSIZE_MAX ->
  filewrite f buf deadline w = Ret a ->
  let len := Z.of_nat (length buf) in
  (* buffered at once *)
  (olen f + len <= MILL_FILE_BUFLEN /\ ret a = len /\ errno (env a) = 0 /\ calls a = [] /\
   pending_out (file a) = pending_out f ++ buf) \/
  (* the flush failed *)
  (MILL_FILE_BUFLEN < olen f + len /\ ret a = 0 /\ errno (env a) <> 0 /\ file a = f /\
   bytes_written (calls a) < olen f /\
   (ends_timed_out (calls a) = true /\ errno (env a) = ETIMEDOUT \/
    ends_in_error (calls a) = Some (errno (env a)))) \/
  (* flushed, then buffered *)
  (MILL_FILE_BUFLEN < olen f + len /\ len <= MILL_FILE_BUFLEN /\
   ret a = len /\ errno (env a) = 0 /\
   bytes_sent (calls a) = pending_out f /\ ends_timed_out (calls a) = false /\
   pending_out (file a) = buf) \/
  (* flushed, then written directly *)
  (MILL_FILE_BUFLEN < len /\ olen (file a) = 0 /\
   exists sent,
     0 <= sent <= len /\
     bytes_sent (calls a) = pending_out f ++ firstn (Z.to_nat sent) buf /\
     ((ret a = len /\ sent = len /\ ends_timed_out (calls a) = false /\
       ends_in_error (calls a) = None /\
       (errno (env a) = 0 \/ errno (env a) = EAGAIN)) \/
      (ends_timed_out (calls a) = true /\ errno (env a) = ETIMEDOUT /\
       ret a = sent /\ sent < len) \/
      (ends_in_error (calls a) = Some (errno (env a)) /\ ret a = 0))).
Proof.
  intros Hol Hob Hlen H len. consts. unfold filewrite, buffer_output in H. fold len in H.
  assert (Hl0 : 0 <= len) by (unfold len; lia).
  rewrite (wrap_small (olen f + len)) in H by lia.
  destruct (olen f + len <=? MILL_FILE_BUFLEN) eqn:Efit; bools.
  { left. injection H as <-. cbn [ret env calls file errno set_errno].
    repeat split; auto. unfold pending_out. cbn [obuf olen set_olen set_obuf].
    apply slice_memcpy_at_end. lia. }
  right.
  destruct (fileflush f deadline w) as [a1| |] eqn:Hfl; try discriminate.
  assert (Hsent := fileflush_sent f deadline w a1 ltac:(lia) Hfl).
  apply fileflush_spec in Hfl; [|lia].
  destruct Hfl as [_ Hfl]. destruct Hsent as [Hbw Hsent].
  destruct (negb (errno (env a1) =? 0)) eqn:Eerr.
  - (* the flush failed *)
    left. injection H as <-. cbn [ret env calls file].
    apply negb_true_iff in Eerr. bools.
    destruct Hfl as [(_ & He & _)|(Hf & Hb & Hend)]; [contradiction|].
    repeat split; auto; lia.
  - right. apply negb_false_iff in Eerr. bools.
    destruct Hfl as [(Hf & _ & Hb & Hnt)|(_ & _ & Hend)].
    2: { exfalso. destruct Hend as [[_ He]|He]; [rewrite Eerr in He; discriminate|].
         apply ends_in_error_pos in He. lia. }
    assert (Hs1 : bytes_sent (calls a1) = pending_out f).
    { rewrite Hsent, Hb. unfold pending_out. rewrite firstn_slice by lia. reflexivity. }
    rewrite Hf in H. cbn [olen set_olen obuf] in H.
    rewrite (wrap_small (0 + len)) in H by lia.
    destruct (0 + len <=? MILL_FILE_BUFLEN) eqn:Efit2; bools.
    + (* flushed, then buffered *)
      left. injection H as <-. cbn [ret env calls file errno set_errno].
      repeat split; auto; try lia.
      unfold pending_out. cbn [obuf olen set_olen set_obuf].
      change (slice (memcpy_at (obuf f) 0 buf) 0 len)
        with (slice (memcpy_at (obuf f) 0 buf) 0 (Z.of_nat (length buf))).
      apply slice_read_all.
    + (* flushed, then written directly *)
      right. apply emit_ret in H. destruct H as (a0 & H & ->). cbn [ret env calls file].
      assert (Hfile := filewrite_loop_ok _ _ _ _ _ _ _ _ _ _ _ H).
      destruct Hfile as (Hfile & _).
      assert (Hfile' : file a0 = set_olen f 0) by (destruct Hfile; assumption).
      apply filewrite_loop_sent in H; [|lia|lia|lia].
      destruct H as (Hb0 & Hs0 & Hout).
      split; [lia|]. split; [rewrite Hfile'; reflexivity|].
      exists (bytes_written (calls a0)). split; [exact Hb0|].
      split; [rewrite bytes_sent_app, Hs1, Hs0, slice_0; reflexivity|].
      assert (Hne : calls a0 <> []).
      { intros Hnil. rewrite Hnil in Hout. cbn in Hout.
        destruct Hout as [(_ & Hw & _)|[(Ht & _)|(He & _)]]; [lia|discriminate|discriminate]. }
      rewrite ends_timed_out_app, last_call_app_error by exact Hne.
      destruct Hout as [(Hr & Hw & Hnt0 & Hne0 & He)|[(Ht & He & Hr & Hlt)|(He & Hr)]].
      * left. repeat split; try assumption.
        destruct He as [He|He]; [left; congruence|right; apply not_would_block_false; exact He].
      * right; left. repeat split; try assumption; lia.
      * right; right. split; assumption.
Qed.

(** ** X1: a flush sends the pending bytes in order *)

(** X1. Whenever [fileflush] returns, the bytes its [write]s put on the
    descriptor are the first bytes of the pending output, in their order and
    none twice; when it returns with [errno = 0] they are all the pending
    bytes and [olen] is 0. *)
Theorem fileflush_sends_in_order (f : mill_file) (deadline : Z) (w : world)
    (a : after unit) :
  0 <= olen f < SIZE_MOD ->
  fileflush f deadline w = Ret a ->
  0 <= bytes_written (calls a) <= olen f /\
  bytes_sent (calls a) = firstn (Z.to_nat (bytes_written (calls a))) (pending_out f) /\
  (errno (env a) = 0 ->
   bytes_sent (calls a) = pending_out f /\ olen (file a) = 0 /\ pending_out (file a) = []).
Proof.
  intros Hol H.
  destruct (fileflush_sent f deadline w a Hol H) as [Hb Hs].
  split; [exact Hb|]. split; [exact Hs|]. intros He.
  destruct (fileflush_spec f deadline w a Hol H) as [_ [(Hf & _ & Hw & _)|(_ & _ & Hend)]].
  - rewrite Hs, Hw, Hf. unfold pending_out. rewrite firstn_slice by lia.
    repeat split.
  - exfalso. destruct Hend as [[_ Ht]|Ht]; [rewrite He in Ht; discriminate|].
    apply ends_in_error_pos in Ht. lia.
Qed.

Lemma fileflush_sends_in_order_witness :
  exists a,
    fileflush (channel_with_output S_IFIFO [x61; x62; x63]) 0
      (World 0 [] [Got 1%N; Failed 11%positive; Got 9%N] [Ready FDW_OUT]) = Ret a /\
    errno (env a) = 0 /\
    bytes_sent (calls a) = [x61; x62; x63].
Proof.
  eexists. split; [vm_compute; reflexivity|]. split; [reflexivity|].
  match goal with |- bytes_sent (calls ?a) = _ =>
    destruct (fileflush_sends_in_order (channel_with_output S_IFIFO [x61; x62; x63]) 0
                (World 0 [] [Got 1%N; Failed 11%positive; Got 9%N] [Ready FDW_OUT]) a)
      as (_ & _ & Hall)
  end.
  - vm_compute. split; [discriminate|reflexivity].
  - vm_compute. reflexivity.
  - specialize (Hall eq_refl). apply proj1 in Hall. rewrite Hall. vm_compute. reflexivity.
Defined.

(** ** X2: an accepted payload keeps its place *)

(** X2. Whenever [filewrite] returns the full length of the payload, the
    bytes sent to the descriptor followed by the bytes left pending are the
    bytes that were pending followed by the payload: nothing is lost,
    repeated or reordered.  [errno] is then 0, or [EAGAIN] when the direct
    loop met a would-block on its way. *)
Theorem filewrite_keeps_order (f : mill_file) (buf : list byte) (deadline : Z) (w : world)
    (a : after Z) :
  0 <= olen f <= MILL_FILE_BUFLEN ->
  Z.of_nat (length (obuf f)) = MILL_FILE_BUFLEN ->
  Z.of_nat (length buf) <= SSIZE_MAX ->
  filewrite f buf deadline w = Ret a ->
  ret a = Z.of_nat (length buf) ->
  bytes_sent (calls a) ++ pending_out (file a) = pending_out f ++ buf /\
  (errno (env a) = 0 \/ errno (env a) = EAGAIN).
Proof.
  intros Hol Hob Hlen H Hret. consts.
  destruct (filewrite_cases f buf deadline w a Hol Hob Hlen H)
    as [(_ & _ & He & Hc & Hp)|[(Hbig & Hr & _)|[(_ & _ & _ & He & Hs & _ & Hp)
       |(Hbig & Ho & sent & Hsent & Hs & Hout)]]].
  - rewrite Hc, Hp. split; [reflexivity|left; exact He].
  - lia.
  - rewrite Hs, Hp. split; [reflexivity|left; exact He].
  - assert (Hp : pending_out (file a) = []) by (unfold pending_out; rewrite Ho; reflexivity).
    destruct Hout as [(_ & Hall & _ & _ & He)|[(_ & _ & Hr & Hlt)|(_ & Hr)]]; try lia.
    rewrite Hs, Hp, Hall, Nat2Z.id, firstn_all, app_nil_r. split; [reflexivity|exact He].
Qed.

Lemma filewrite_keeps_order_witness :
  exists a,
    filewrite (channel_with_output S_IFIFO [x61]) (repeat x62 4097) 0
      (World 0 [] [Got 1%N; Got 7%N; Failed 11%positive; Got 5000%N] [Ready FDW_OUT]) = Ret a /\
    ret a = 4097 /\ errno (env a) = EAGAIN /\
    bytes_sent (calls a) ++ pending_out (file a) = x61 :: repeat x62 4097.
Proof.
  eexists. split; [vm_compute; reflexivity|]. split; [reflexivity|]. split; [reflexivity|].
  match goal with |- bytes_sent (calls ?a) ++ _ = _ =>
    destruct (filewrite_keeps_order (channel_with_output S_IFIFO [x61]) (repeat x62 4097) 0
                (World 0 [] [Got 1%N; Got 7%N; Failed 11%positive; Got 5000%N] [Ready FDW_OUT])
                a) as [Hkeep _]
  end.
  - vm_compute. split; discriminate.
  - vm_compute. reflexivity.
  - vm_compute. discriminate.
  - vm_compute. reflexivity.
  - vm_compute. reflexivity.
  - rewrite Hkeep. vm_compute. reflexivity.
Defined.

(** ** X3: what a timed-out write reports *)

(** X3. When [filewrite] returns after a deadline expiry, [errno] is
    [ETIMEDOUT] and the count returned is exact: either the expiry came
    during the flush, nothing of the payload was taken, the channel is as it
    was and 0 is returned; or it came in the direct loop, all that was
    pending has been sent and the count returned is the number of payload
    bytes sent, which are the first bytes of the payload. *)
Theorem filewrite_timeout_count (f : mill_file) (buf : list byte) (deadline : Z) (w : world)
    (a : after Z) :
  0 <= olen f <= MILL_FILE_BUFLEN ->
  Z.of_nat (length (obuf f)) = MILL_FILE_BUFLEN ->
  Z.of_nat (length buf) <= SSIZE_MAX ->
  filewrite f buf deadline w = Ret a ->
  ends_timed_out (calls a) = true ->
  errno (env a) = ETIMEDOUT /\
  ((ret a = 0 /\ file a = f /\ bytes_written (calls a) < olen f) \/
   (0 <= ret a < Z.of_nat (length buf) /\ olen (file a) = 0 /\
    bytes_sent (calls a) = pending_out f ++ firstn (Z.to_nat (ret a)) buf)).
Proof.
  intros Hol Hob Hlen H Hto.
  destruct (filewrite_cases f buf deadline w a Hol Hob Hlen H)
    as [(_ & _ & _ & Hc & _)|[(_ & Hr & _ & Hf & Hb & Hend)|[(_ & _ & _ & _ & _ & Hnt & _)
       |(_ & Ho & sent & Hsent & Hs & Hout)]]].
  - rewrite Hc in Hto. discriminate.
  - destruct Hend as [[_ He]|He].
    + split; [exact He|left]. repeat split; assumption.
    + apply ends_in_error_not_timed_out in He. congruence.
  - congruence.
  - destruct Hout as [(_ & _ & Hnt & _)|[(_ & He & Hr & Hlt)|(He & _)]].
    + congruence.
    + split; [exact He|right]. rewrite Hr. repeat split; try assumption; lia.
    + apply ends_in_error_not_timed_out in He. congruence.
Qed.

Lemma filewrite_timeout_count_witness :
  exists a,
    filewrite (channel_with_output S_IFIFO [x61]) (repeat x62 4097) 0
      (World 0 [] [Got 1%N; Got 7%N; Failed 11%positive] [TimedOut]) = Ret a /\
    ret a = 7 /\ errno (env a) = ETIMEDOUT /\
    bytes_sent (calls a) = x61 :: repeat x62 7.
Proof.
  eexists. split; [vm_compute; reflexivity|]. split; [reflexivity|].
  match goal with |- errno (env ?a) = _ /\ _ =>
    destruct (filewrite_timeout_count (channel_with_output S_IFIFO [x61]) (repeat x62 4097) 0
                (World 0 [] [Got 1%N; Got 7%N; Failed 11%positive] [TimedOut]) a)
      as [He [(Hr & _)|(_ & _ & Hs)]]
  end.
  - vm_compute. split; discriminate.
  - vm_compute. reflexivity.
  - vm_compute. discriminate.
  - vm_compute. reflexivity.
  - vm_compute. reflexivity.
  - discriminate Hr.
  - split; [exact He|]. rewrite Hs. vm_compute. reflexivity.
Defined.

(** ** X4: a payload that fits a buffer is taken whole or not at all *)

(** X4. A payload of at most [capacity] bytes never reaches the direct
    loop.  [filewrite] either returns its length with [errno = 0], the
    payload sitting at the end of the pending output (behind what was
    pending, or alone after a flush that sent all of it); or the flush
    failed, 0 is returned with the error, and the channel is as it was. *)
Theorem filewrite_small_payload (f : mill_file) (buf : list byte) (deadline : Z) (w : world)
    (a : after Z) :
  0 <= olen f <= MILL_FILE_BUFLEN ->
  Z.of_nat (length (obuf f)) = MILL_FILE_BUFLEN ->
  Z.of_nat (length buf) <= MILL_FILE_BUFLEN ->
  filewrite f buf deadline w = Ret a ->
  (ret a = Z.of_nat (length buf) /\ errno (env a) = 0 /\
   ((calls a = [] /\ pending_out (file a) = pending_out f ++ buf) \/
    (bytes_sent (calls a) = pending_out f /\ pending_out (file a) = buf))) \/
  (ret a = 0 /\ errno (env a) <> 0 /\ file a = f /\ 0 < Z.of_nat (length buf)).
Proof.
  intros Hol Hob Hlen H. consts.
  destruct (filewrite_cases f buf deadline w a Hol Hob ltac:(lia) H)
    as [(_ & Hr & He & Hc & Hp)|[(Hbig & Hr & He & Hf & _)|[(_ & _ & Hr & He & Hs & _ & Hp)
       |(Hbig & _)]]].
  - left. repeat split; auto.
  - right. repeat split; auto. lia.
  - left. repeat split; auto.
  - lia.
Qed.

Lemma filewrite_small_payload_witness :
  exists a,
    filewrite (channel_with_output S_IFIFO [x61]) (repeat x62 4096) 0
      (World 0 [] [Got 1%N] []) = Ret a /\
    ret a = 4096 /\ pending_out (file a) = repeat x62 4096.
Proof.
  eexists. split; [vm_compute; reflexivity|]. split; [reflexivity|].
  match goal with |- pending_out (file ?a) = _ =>
    destruct (filewrite_small_payload (channel_with_output S_IFIFO [x61]) (repeat x62 4096) 0
                (World 0 [] [Got 1%N] []) a)
      as [(_ & _ & [(Hc & _)|(_ & Hp)])|(Hr & _)]
  end.
  - vm_compute. split; discriminate.
  - vm_compute. reflexivity.
  - vm_compute. discriminate.
  - vm_compute. reflexivity.
  - discriminate Hc.
  - rewrite Hp. reflexivity.
  - discriminate Hr.
Defined.

Lemma skipn_slice (a : list byte) (off n m : Z) :
  0 <= off -> 0 <= n <= m ->
  skipn (Z.to_nat n) (slice a off m) = slice a (off + n) (m - n).
Proof.
  intros Hoff Hn. unfold slice. rewrite skipn_firstn_comm, skipn_skipn.
  replace (Z.to_nat m - Z.to_nat n)%nat with (Z.to_nat (m - n)) by lia.
  replace (Z.to_nat n + Z.to_nat off)%nat with (Z.to_nat (off + n)) by lia.
  reflexivity.
Qed.

Lemma split_at_length (data rest all : list byte) (n : Z) :
  Z.of_nat (length data) = n -> data ++ rest = all ->
  data = firstn (Z.to_nat n) all /\ rest = skipn (Z.to_nat n) all.
Proof.
  intros Hn <-. replace (Z.to_nat n) with (length data) by lia. split.
  - symmetry. apply firstn_app_exact.
  - rewrite skipn_app, skipn_all, Nat.sub_diag, skipn_O. reflexivity.
Qed.

(** ** X5: a read hands over the bytes in arrival order *)

(** X5. Whenever [fileread] returns, with whatever count and [errno], the
    bytes it returns are the first bytes of what was buffered followed by
    what its [read]s delivered, and the input buffer keeps exactly the rest:
    no byte is lost, repeated or reordered, and the count returned is the
    number of bytes handed over. *)
Theorem fileread_fifo (f : mill_file) (len deadline : Z) (w : world)
    (a : after (Z * list byte)) :
  ibuf_inv f ->
  Z.of_nat (length (ibuf f)) = MILL_FILE_BUFLEN ->
  0 <= len < SIZE_MOD ->
  fileread f len deadline w = Ret a ->
  Z.of_nat (length (snd (ret a))) = fst (ret a) /\
  snd (ret a) = firstn (Z.to_nat (fst (ret a))) (pending_in f ++ bytes_read (calls a)) /\
  pending_in (file a) = skipn (Z.to_nat (fst (ret a))) (pending_in f ++ bytes_read (calls a)).
Proof.
  intros Hinv Hbuf Hlen H.
  destruct (fileread_data f len deadline w a Hinv Hbuf Hlen H) as [Hn Hcons].
  split; [exact Hn|]. apply (split_at_length _ _ _ _ Hn Hcons).
Qed.

Lemma fileread_fifo_witness :
  exists a,
    fileread (channel_with_input S_IFREG [x61]) 3 0
      (World 0 [Got [x62]; Got [x63; x64; x65]] [] []) = Ret a /\
    ret a = (3, [x61; x62; x63]) /\
    pending_in (file a) = [x64; x65].
Proof.
  eexists. split; [vm_compute; reflexivity|]. split; [reflexivity|].
  match goal with |- pending_in (file ?a) = _ =>
    destruct (fileread_fifo (channel_with_input S_IFREG [x61]) 3 0
                (World 0 [Got [x62]; Got [x63; x64; x65]] [] []) a) as (_ & _ & Hrest)
  end.
  - unfold ibuf_inv, MILL_FILE_BUFLEN. cbn [ifirst ilen channel_with_input length]. lia.
  - vm_compute. reflexivity.
  - vm_compute. split; [discriminate|reflexivity].
  - vm_compute. reflexivity.
  - rewrite Hrest. vm_compute. reflexivity.
Defined.

(** ** X6: reading at the end of the stream *)

(** X6. When fewer than [len] bytes are buffered and the first [read]
    finds the end of the stream, [fileread] makes that one call, returns
    exactly the bytes that were buffered, empties the input buffer, sets the
    end-of-stream flag and leaves [errno] as it found it. *)
Theorem fileread_at_end_of_stream (f : mill_file) (len deadline : Z) (w : world)
    (rs : list (sysret (list byte))) :
  0 <= ilen f < len -> len < SIZE_MOD ->
  reads w = Got [] :: rs ->
  fileread f len deadline w =
    Ret (After (ilen f, pending_in f) (set_eof (set_in f 0 0) 1)
           (World (errno w) rs (writes w) (waits w))
           [EvRead (fd f) (Z.max MILL_FILE_BUFLEN (len - ilen f)) (Got [])]).
Proof.
  intros Hil Hlen Hrs. consts. unfold fileread.
  destruct (len <=? ilen f) eqn:E; bools; [lia|].
  rewrite (wrap_small (len - ilen f)) by lia.
  destruct (len - ilen f =? 0) eqn:E0; bools; [lia|].
  rewrite Hrs. cbn [fileread_loop]. rewrite !sys_read_eof.
  cbn [read_sz read_bytes errno_after length Z.of_nat]. change (0 =? 0) with true. cbv iota.
  rewrite (wrap_small (len - (len - ilen f))) by lia.
  replace (len - (len - ilen f)) with (ilen f) by lia.
  destruct (MILL_FILE_BUFLEN <? len - ilen f) eqn:Ebig; bools;
    cbn [emit ret file env calls app fd set_in errno];
    [replace (Z.max MILL_FILE_BUFLEN (len - ilen f)) with (len - ilen f) by lia
    |replace (Z.max MILL_FILE_BUFLEN (len - ilen f)) with MILL_FILE_BUFLEN by lia];
    reflexivity.
Qed.

Lemma fileread_at_end_of_stream_witness :
  fileread (channel_with_input S_IFREG [x61]) 10 0 (World 7 [Got []] [] []) =
    Ret (After (1, [x61]) (set_eof (set_in (channel_with_input S_IFREG [x61]) 0 0) 1)
           (World 7 [] [] []) [EvRead 3 4096 (Got [])]).
Proof.
  rewrite (fileread_at_end_of_stream (channel_with_input S_IFREG [x61]) 10 0
             (World 7 [Got []] [] []) []).
  - vm_compute. reflexivity.
  - vm_compute. split; [discriminate|reflexivity].
  - reflexivity.
  - reflexivity.
Defined.

(** ** X7: reads served from the buffer *)

(** X7. When the input buffer holds the [len] bytes asked for, [fileread]
    makes no call on the descriptor: it returns the first [len] buffered
    bytes with [errno = 0] and keeps the rest.  When it holds at least
    [lowwater] bytes, [filereadlh] makes no call either: it returns the
    first [min(ilen, highwater)] buffered bytes and keeps the rest. *)
Theorem buffered_reads_make_no_call (f : mill_file) (deadline : Z) (w : world) :
  ibuf_inv f ->
  (forall len, 0 <= len <= ilen f ->
     exists a, fileread f len deadline w = Ret a /\
       calls a = [] /\ env a = set_errno w 0 /\ fst (ret a) = len /\
       snd (ret a) = firstn (Z.to_nat len) (pending_in f) /\
       pending_in (file a) = skipn (Z.to_nat len) (pending_in f)) /\
  (forall lowwater highwater, 0 <= lowwater <= highwater -> lowwater <= ilen f ->
     exists a, filereadlh f lowwater highwater deadline w = Ret a /\
       calls a = [] /\ env a = set_errno w 0 /\ fst (ret a) = Z.min (ilen f) highwater /\
       snd (ret a) = firstn (Z.to_nat (Z.min (ilen f) highwater)) (pending_in f) /\
       pending_in (file a) = skipn (Z.to_nat (Z.min (ilen f) highwater)) (pending_in f)).
Proof.
  intros Hinv. unfold ibuf_inv in Hinv. consts. split.
  - intros len Hlen. unfold fileread.
    destruct (len <=? ilen f) eqn:E; bools; [|lia].
    eexists. split; [reflexivity|]. cbn [ret file env calls fst snd].
    repeat split; unfold pending_in; cbn [ibuf ifirst ilen set_in].
    + symmetry. apply firstn_slice. lia.
    + rewrite !wrap_small by lia. symmetry. apply skipn_slice; lia.
  - intros lowwater highwater Hlh Hlow. unfold filereadlh.
    destruct (lowwater <=? ilen f) eqn:E1; bools; [|lia]. cbn [andb].
    destruct (ilen f <=? highwater) eqn:E2; bools.
    + eexists. split; [reflexivity|]. cbn [ret file env calls fst snd].
      replace (Z.min (ilen f) highwater) with (ilen f) by lia.
      repeat split; unfold pending_in; cbn [ibuf ifirst ilen set_in].
      * symmetry. apply firstn_slice. lia.
      * rewrite skipn_slice by lia. rewrite Z.sub_diag, !slice_nil. reflexivity.
    + destruct (highwater <=? ilen f) eqn:E3; bools; [|lia].
      eexists. split; [reflexivity|]. cbn [ret file env calls fst snd].
      replace (Z.min (ilen f) highwater) with highwater by lia.
      repeat split; unfold pending_in; cbn [ibuf ifirst ilen set_in].
      * symmetry. apply firstn_slice. lia.
      * rewrite !wrap_small by lia. symmetry. apply skipn_slice; lia.
Qed.

Lemma buffered_reads_make_no_call_witness :
  (exists a, fileread (channel_with_input S_IFIFO [x61; x62; x63]) 2 0 (World 5 [] [] []) = Ret a /\
     calls a = [] /\ ret a = (2, [x61; x62]) /\ pending_in (file a) = [x63]) /\
  (exists a, filereadlh (channel_with_input S_IFIFO [x61; x62; x63]) 1 2 0 (World 5 [] [] []) = Ret a /\
     calls a = [] /\ ret a = (2, [x61; x62]) /\ pending_in (file a) = [x63]).
Proof.
  assert (Hinv : ibuf_inv (channel_with_input S_IFIFO [x61; x62; x63])).
  { unfold ibuf_inv, MILL_FILE_BUFLEN. cbn [ifirst ilen channel_with_input length]. lia. }
  destruct (buffered_reads_make_no_call (channel_with_input S_IFIFO [x61; x62; x63]) 0
              (World 5 [] [] []) Hinv) as [Hr Hlh].
  split.
  - destruct (Hr 2) as (a & Hrun & Hc & _); [cbn [ilen channel_with_input length]; lia|].
    exists a. split; [exact Hrun|]. split; [exact Hc|].
    vm_compute in Hrun. injection Hrun as <-. split; reflexivity.
  - destruct (Hlh 1 2) as (a & Hrun & Hc & _);
      [lia|cbn [ilen channel_with_input length]; lia|].
    exists a. split; [exact Hrun|]. split; [exact Hc|].
    vm_compute in Hrun. injection Hrun as <-. split; reflexivity.
Defined.

(** ** X8: a watermark read above the capacity *)

(** X8. For any [lowwater <= highwater <= SSIZE_MAX], also above the
    capacity of the buffer, [filereadlh] never returns more than
    [highwater] bytes; a count of at least [lowwater] comes with
    [errno = 0]; the bytes returned are the first of what was buffered
    followed by what the [read]s delivered, the input buffer keeps the
    rest, and its invariant is preserved. *)
Theorem filereadlh_any_highwater (f : mill_file) (lowwater highwater deadline : Z) (w : world)
    (a : after (Z * list byte)) :
  ibuf_inv f ->
  Z.of_nat (length (ibuf f)) = MILL_FILE_BUFLEN ->
  0 <= lowwater <= highwater -> highwater <= SSIZE_MAX ->
  filereadlh f lowwater highwater deadline w = Ret a ->
  0 <= fst (ret a) <= highwater /\
  (lowwater <= fst (ret a) -> errno (env a) = 0) /\
  snd (ret a) = firstn (Z.to_nat (fst (ret a))) (pending_in f ++ bytes_read (calls a)) /\
  pending_in (file a) = skipn (Z.to_nat (fst (ret a))) (pending_in f ++ bytes_read (calls a)) /\
  ibuf_inv (file a).
Proof.
  intros Hinv Hbuf Hlh Hhw H.
  destruct (filereadlh_data f lowwater highwater deadline w a Hinv Hbuf Hlh Hhw H)
    as (Hn & Hcons & _).
  assert (Hil : 0 <= ilen f) by (unfold ibuf_inv in Hinv; lia).
  destruct (filereadlh_count f lowwater highwater deadline w a Hil Hlh Hhw H)
    as [Hkeep Hcount].
  destruct (split_at_length _ _ _ _ Hn Hcons) as [Hd Hr].
  split; [destruct Hcount as [[? _]|[? _]]; lia|].
  split; [intros Hge; destruct Hcount as [[_ ?]|[? _]]; [assumption|lia]|].
  split; [exact Hd|]. split; [exact Hr|]. apply Hkeep, Hinv.
Qed.

Lemma filereadlh_any_highwater_witness :
  exists a,
    filereadlh (channel_with_input S_IFIFO [x61]) 3 5000 0
      (World 0 [Got [x62]; Got [x63; x64]] [] [Ready FDW_IN; Ready FDW_IN]) = Ret a /\
    ret a = (4, [x61; x62; x63; x64]) /\ pending_in (file a) = [] /\
    errno (env a) = 0.
Proof.
  eexists. split; [vm_compute; reflexivity|]. split; [reflexivity|].
  match goal with |- pending_in (file ?a) = _ /\ _ =>
    destruct (filereadlh_any_highwater (channel_with_input S_IFIFO [x61]) 3 5000 0
                (World 0 [Got [x62]; Got [x63; x64]] [] [Ready FDW_IN; Ready FDW_IN]) a)
      as (_ & Herr & _ & Hrest & _)
  end.
  - unfold ibuf_inv, MILL_FILE_BUFLEN. cbn [ifirst ilen channel_with_input length]. lia.
  - vm_compute. reflexivity.
  - lia.
  - vm_compute. discriminate.
  - vm_compute. reflexivity.
  - split; [rewrite Hrest; vm_compute; reflexivity|].
    apply Herr. vm_compute. discriminate.
Defined.

(** ** X9: the descriptor and its kind never change *)

Lemma exec_keeps_fd (o : op) (f : mill_file) (w : world) (a : after unit) :
  exec o f w = Ret a -> fd (file a) = fd f /\ mode (file a) = mode f.
Proof.
  intros H. destruct o; simpl in H.
  - apply forget_ret in H. destruct H as (a' & H & ->). cbn [file].
    apply filewrite_ok in H. unfold write_op_ok in H. tauto.
  - apply fileflush_ok in H. destruct H as [H _]. unfold write_op_ok in H. tauto.
  - apply forget_ret in H. destruct H as (a' & H & ->). cbn [file].
    apply fileread_ok in H. unfold read_loop_ok in H. tauto.
  - apply forget_ret in H. destruct H as (a' & H & ->). cbn [file].
    apply filereadlh_ok in H. unfold read_loop_ok in H. tauto.
  - injection H as <-. split; reflexivity.
  - injection H as <-. split; reflexivity.
  - injection H as <-. split; reflexivity.
  - injection H as <-. split; reflexivity.
Qed.

(** X9. Whatever operations a channel goes through, it stays on the same
    descriptor and keeps the [st_mode] it was given: [filedetach] gives
    back the descriptor the channel started with, and the choice between
    waiting and spinning on a would-block never changes. *)
Theorem descriptor_and_kind_fixed (f f' : mill_file) (os : list op) :
  runs f os f' ->
  filedetach f' = filedetach f /\ mode f' = mode f /\ skips_fdwait f' = skips_fdwait f.
Proof.
  intros H. unfold filedetach, skips_fdwait.
  induction H as [f|f o w a os f' Hstep _ IH]; [repeat split|].
  destruct (exec_keeps_fd o f w a Hstep) as [Hfd Hmode].
  destruct IH as (IH1 & IH2 & _).
  rewrite IH1, IH2, Hfd, Hmode. repeat split.
Qed.

Lemma descriptor_and_kind_fixed_witness :
  exists f',
    runs (fresh_channel S_IFIFO) [OpWrite [x61] 0; OpSeek 7 (Got 7); OpRead 1 0] f' /\
    filedetach f' = 3.
Proof.
  assert (Hruns : exists f',
            runs (fresh_channel S_IFIFO) [OpWrite [x61] 0; OpSeek 7 (Got 7); OpRead 1 0] f').
  { eexists.
    eapply (runs_cons _ _ (World 0 [] [] [])); [vm_compute; reflexivity|].
    eapply (runs_cons _ _ (World 0 [] [] [])); [vm_compute; reflexivity|].
    eapply (runs_cons _ _ (World 0 [Got []] [] [])); [vm_compute; reflexivity|].
    cbn [file]. apply runs_nil. }
  destruct Hruns as [f' Hruns]. exists f'. split; [exact Hruns|].
  rewrite (proj1 (descriptor_and_kind_fixed _ _ _ Hruns)). reflexivity.
Defined.

(** ** X10: the end-of-stream flag stays set until a seek *)

(** X10. Once the end-of-stream flag is set, no sequence of operations
    without a [fileseek] clears it: [fileeof] keeps returning 1 through
    writes, flushes and further reads. *)
Theorem eof_stays_set_until_seek (f f' : mill_file) (os : list op) :
  runs f os f' ->
  existsb is_seek os = false ->
  fileeof f = 1 -> fileeof f' = 1.
Proof.
  unfold fileeof. intros H. induction H as [f|f o w a os f' Hstep _ IH]; intros Hns He.
  - exact He.
  - cbn [existsb] in Hns. apply orb_false_elim in Hns. destruct Hns as [Ho Hos].
    apply IH; [exact Hos|].
    destruct (eof_changes_only_at_end_of_stream o f w a Hstep)
      as [Hsame|[[Hone _]|[_ (offset & sought & ->)]]].
    + rewrite Hsame. exact He.
    + exact Hone.
    + discriminate Ho.
Qed.

Lemma eof_stays_set_until_seek_witness :
  exists f',
    runs (set_eof (fresh_channel S_IFREG) 1) [OpWrite [x61] 0; OpFlush 0; OpRead 1 0] f' /\
    fileeof f' = 1.
Proof.
  assert (Hruns : exists f',
            runs (set_eof (fresh_channel S_IFREG) 1) [OpWrite [x61] 0; OpFlush 0; OpRead 1 0] f').
  { eexists.
    eapply (runs_cons _ _ (World 0 [] [] [])); [vm_compute; reflexivity|].
    eapply (runs_cons _ _ (World 0 [] [Got 1%N] [])); [vm_compute; reflexivity|].
    eapply (runs_cons _ _ (World 0 [Got [x62]] [] [])); [vm_compute; reflexivity|].
    cbn [file]. apply runs_nil. }
  destruct Hruns as [f' Hruns]. exists f'. split; [exact Hruns|].
  apply (eof_stays_set_until_seek _ _ _ Hruns); reflexivity.
Defined.

(** ** X11: a seek drops what is buffered *)

(** X11. [fileseek] does not flush: it empties both buffers, whatever
    output was pending, clears the end-of-stream flag and returns what
    [lseek] returned, so that a [fileflush] made right after it performs no
    call at all and reports success. *)
Theorem fileseek_drops_pending_output (f : mill_file) (offset deadline : Z)
    (sought : sysret Z) (w : world) :
  let r := fst (fst (fileseek f offset sought w)) in
  let f' := snd (fst (fileseek f offset sought w)) in
  let w' := snd (fileseek f offset sought w) in
  r = write_sz sought /\
  pending_in f' = [] /\ pending_out f' = [] /\ fileeof f' = 0 /\
  fileflush f' deadline w' = Ret (After tt f' (set_errno w' 0) []).
Proof.
  cbn [fileseek fst snd]. split; [reflexivity|].
  unfold pending_in, pending_out, fileeof. cbn [ibuf obuf ifirst ilen olen eof set_in set_olen set_eof].
  rewrite !slice_nil. repeat split.
Qed.

(** ** Offsets *)

Lemma to_off_small (x : Z) : 0 <= x <= SSIZE_MAX -> to_off x = x.
Proof.
  intros Hx. consts. unfold to_off. rewrite wrap_small by lia.
  destruct (x <=? SSIZE_MAX) eqn:E; bools; lia.
Qed.

Lemma to_off_minus (x : Z) : 0 < x <= SSIZE_MAX + 1 -> to_off (- x) = - x.
Proof.
  intros Hx. consts. unfold to_off.
  assert (Hw : wrap (- x) = SIZE_MOD - x).
  { unfold wrap. symmetry. apply (Z.mod_unique_pos _ _ (-1)); lia. }
  rewrite Hw. destruct (SIZE_MOD - x <=? SSIZE_MAX) eqn:E; bools; lia.
Qed.

Lemma length_memcpy_at_0 (a bs : list byte) :
  (length bs <= length a)%nat -> length (memcpy_at a 0 bs) = length a.
Proof.
  intros Hle. unfold memcpy_at. simpl. rewrite length_app, length_skipn. lia.
Qed.

Lemma length_read_into (f : mill_file) (bs : list byte) :
  Z.of_nat (length (ibuf f)) = MILL_FILE_BUFLEN ->
  0 <= Z.of_nat (length bs) <= xfer_max MILL_FILE_BUFLEN ->
  Z.of_nat (length (ibuf (read_into f (Got bs)))) = MILL_FILE_BUFLEN.
Proof.
  intros Hbuf Hbs. rewrite xfer_max_buflen in Hbs. unfold read_into.
  cbn [ibuf set_ibuf read_bytes]. rewrite length_memcpy_at_0; lia.
Qed.

Lemma direction_eqb_refl (d : direction) : direction_eqb d d = true.
Proof. destruct d; reflexivity. Qed.

Lemma call_to_read (d count dl : Z) (dir : direction) (r : sysret (list byte)) :
  MILL_FILE_BUFLEN <= count -> call_to d dir dl (EvRead d count r) = true.
Proof.
  intros Hc. unfold call_to. rewrite Z.eqb_refl. apply Z.leb_le in Hc. rewrite Hc. reflexivity.
Qed.

Lemma call_to_wait (d dl : Z) (dir : direction) (rc : wait_rc) :
  call_to d dir dl (EvWait d dir dl rc) = true.
Proof.
  unfold call_to. rewrite !Z.eqb_refl, direction_eqb_refl. reflexivity.
Qed.

Lemma call_to_write (d dl : Z) (dir : direction) (data : list byte) (r : sysret Z) :
  call_to d dir dl (EvWrite d data r) = true.
Proof. unfold call_to. apply Z.eqb_refl. Qed.

Ltac calls_norm :=
  cbn [fst snd app ret file env calls forallb fd ibuf set_in set_eof] in *;
  rewrite ?call_to_wait, ?call_to_write;
  rewrite ?call_to_read by (unfold MILL_FILE_BUFLEN in *; lia);
  cbn [andb].

Ltac calls_leaf :=
  split;
  [let Hb := fresh "Hb" in
   intros Hb; first [exact Hb|apply length_read_into; assumption]
  |reflexivity].

Ltac calls_rec IH H :=
  apply IH in H; cbn [fd set_in read_into set_ibuf] in H;
  let Hl := fresh "Hl" in
  let Hc := fresh "Hc" in
  let Hb := fresh "Hb" in
  destruct H as [Hl Hc];
  split;
  [intros Hb; apply Hl; first [exact Hb|apply length_read_into; assumption]
  |exact Hc].

Lemma fileread_loop_calls (rs : list (sysret (list byte))) :
  forall ws wrs eno f len deadline got remaining a,
  fileread_loop rs ws wrs eno f len deadline got remaining = Ret a ->
  (Z.of_nat (length (ibuf f)) = MILL_FILE_BUFLEN ->
   Z.of_nat (length (ibuf (file a))) = MILL_FILE_BUFLEN) /\
  forallb (call_to (fd f) FDW_IN deadline) (calls a) = true.
Proof.
  induction rs as [|r rs IH];
    intros ws wrs eno f len deadline got remaining a H;
    simpl in H; [discriminate|].
  destruct (MILL_FILE_BUFLEN <? remaining) eqn:Ebig; on_read_sz H; paths H; bools.
  all: calls_norm.
  all: try (calls_leaf; fail).
  all: try (calls_rec IH H; fail).
Qed.

Lemma filereadlh_loop_calls (rs : list (sysret (list byte))) :
  forall ws wrs eno f lowwater highwater deadline got remaining received a,
  filereadlh_loop rs ws wrs eno f lowwater highwater deadline got remaining received = Ret a ->
  (Z.of_nat (length (ibuf f)) = MILL_FILE_BUFLEN ->
   Z.of_nat (length (ibuf (file a))) = MILL_FILE_BUFLEN) /\
  forallb (call_to (fd f) FDW_IN deadline) (calls a) = true.
Proof.
  induction rs as [|r rs IH];
    intros ws wrs eno f lowwater highwater deadline got remaining received a H;
    simpl in H; [discriminate|].
  destruct (MILL_FILE_BUFLEN <? remaining) eqn:Ebig; on_read_sz H; paths H; bools.
  all: calls_norm.
  all: try (calls_leaf; fail).
  all: try (calls_rec IH H; fail).
Qed.

Lemma fileflush_loop_calls (wrs : list (sysret N)) :
  forall ws rs eno f deadline pos remaining a,
  fileflush_loop wrs ws rs eno f deadline pos remaining = Ret a ->
  forallb (call_to (fd f) FDW_OUT deadline) (calls a) = true.
Proof.
  induction wrs as [|r wrs IH]; intros ws rs eno f deadline pos remaining a H;
    simpl in H; paths H; calls_norm; try reflexivity; try (apply IH in H; exact H).
Qed.

Lemma filewrite_loop_calls (wrs : list (sysret N)) :
  forall ws rs eno f buf len deadline pos remaining a,
  filewrite_loop wrs ws rs eno f buf len deadline pos remaining = Ret a ->
  file a = f /\ forallb (call_to (fd f) FDW_OUT deadline) (calls a) = true.
Proof.
  induction wrs as [|r wrs IH]; intros ws rs eno f buf len deadline pos remaining a H;
    simpl in H; paths H; calls_norm; try (split; reflexivity); try (apply IH in H; exact H).
Qed.

Lemma fileflush_calls (f : mill_file) (deadline : Z) (w : world) (a : after unit) :
  fileflush f deadline w = Ret a ->
  forallb (call_to (fd f) FDW_OUT deadline) (calls a) = true.
Proof.
  unfold fileflush. intros H. paths H; [reflexivity|].
  apply fileflush_loop_calls in H. exact H.
Qed.

Lemma length_memcpy_at (a src : list byte) (off : Z) :
  0 <= off -> off + Z.of_nat (length src) <= Z.of_nat (length a) ->
  length (memcpy_at a off src) = length a.
Proof.
  intros Hoff Hle. unfold memcpy_at.
  rewrite !length_app, length_firstn, length_skipn. lia.
Qed.

Lemma fileflush_obuf (f : mill_file) (deadline : Z) (w : world) (a : after unit) :
  fileflush f deadline w = Ret a ->
  obuf (file a) = obuf f /\ (olen (file a) = olen f \/ olen (file a) = 0) /\
  fd (file a) = fd f.
Proof.
  intros H. apply fileflush_ok in H. destruct H as [Hok [-> | ->]].
  - repeat split. left. reflexivity.
  - repeat split. right. reflexivity.
Qed.

Lemma filewrite_calls (f : mill_file) (buf : list byte) (deadline : Z) (w : world)
    (a : after Z) :
  filewrite f buf deadline w = Ret a ->
  forallb (call_to (fd f) FDW_OUT deadline) (calls a) = true.
Proof.
  intros H. unfold filewrite, buffer_output in H.
  destruct (wrap (olen f + Z.of_nat (length buf)) <=? MILL_FILE_BUFLEN) eqn:E1.
  - injection H as <-. reflexivity.
  - destruct (fileflush f deadline w) as [a0| |] eqn:Ef; try discriminate.
    pose proof (fileflush_calls f deadline w a0 Ef) as Hc.
    destruct (fileflush_obuf f deadline w a0 Ef) as (_ & _ & Hfd).
    paths H; cbn [calls]; try exact Hc.
    apply filewrite_loop_calls in H. destruct H as [_ Hc2].
    rewrite forallb_app, Hc, <- Hfd, Hc2. reflexivity.
Qed.

Lemma fileread_calls (f : mill_file) (len deadline : Z) (w : world)
    (a : after (Z * list byte)) :
  fileread f len deadline w = Ret a ->
  (Z.of_nat (length (ibuf f)) = MILL_FILE_BUFLEN ->
   Z.of_nat (length (ibuf (file a))) = MILL_FILE_BUFLEN) /\
  forallb (call_to (fd f) FDW_IN deadline) (calls a) = true.
Proof.
  intros H. unfold fileread in H. paths H.
  - split; [intros Hb; exact Hb|reflexivity].
  - apply fileread_loop_calls in H. exact H.
Qed.

Lemma filereadlh_calls (f : mill_file) (lowwater highwater deadline : Z) (w : world)
    (a : after (Z * list byte)) :
  filereadlh f lowwater highwater deadline w = Ret a ->
  (Z.of_nat (length (ibuf f)) = MILL_FILE_BUFLEN ->
   Z.of_nat (length (ibuf (file a))) = MILL_FILE_BUFLEN) /\
  forallb (call_to (fd f) FDW_IN deadline) (calls a) = true.
Proof.
  intros H. unfold filereadlh in H. paths H.
  - split; [intros Hb; exact Hb|reflexivity].
  - split; [intros Hb; exact Hb|reflexivity].
  - apply filereadlh_loop_calls in H. exact H.
Qed.

Lemma filewrite_obuf (f : mill_file) (buf : list byte) (deadline : Z) (w : world)
    (a : after Z) :
  0 <= olen f <= MILL_FILE_BUFLEN ->
  Z.of_nat (length (obuf f)) = MILL_FILE_BUFLEN ->
  Z.of_nat (length buf) <= SSIZE_MAX ->
  filewrite f buf deadline w = Ret a ->
  Z.of_nat (length (obuf (file a))) = MILL_FILE_BUFLEN.
Proof.
  intros Hol Hob Hbuf H. consts. unfold filewrite, buffer_output in H.
  destruct (wrap (olen f + Z.of_nat (length buf)) <=? MILL_FILE_BUFLEN) eqn:E1.
  - injection H as <-. cbn [file obuf set_olen set_obuf].
    rewrite wrap_small in E1 by lia. bools.
    rewrite length_memcpy_at by lia. exact Hob.
  - destruct (fileflush f deadline w) as [a0| |] eqn:Ef; try discriminate.
    destruct (fileflush_obuf f deadline w a0 Ef) as (Hobuf & Holen & _).
    paths H; bools; cbn [file].
    + rewrite Hobuf. exact Hob.
    + cbn [obuf set_olen set_obuf]. rewrite Hobuf.
      rewrite wrap_small in * by lia.
      rewrite length_memcpy_at by lia. exact Hob.
    + apply filewrite_loop_calls in H. destruct H as [-> _].
      rewrite Hobuf. exact Hob.
Qed.

(** ** X12: every call is made on the channel's descriptor *)

(** X12. Every system call an operation makes names the descriptor of the
    channel it was given.  The read operations wait for input and the write
    operations for output, always with the deadline the caller passed, and a
    [read] never asks for less than the capacity of the input buffer. *)
Theorem calls_name_the_descriptor :
  (forall f len deadline w a,
     fileread f len deadline w = Ret a ->
     forallb (call_to (fd f) FDW_IN deadline) (calls a) = true) /\
  (forall f lowwater highwater deadline w a,
     filereadlh f lowwater highwater deadline w = Ret a ->
     forallb (call_to (fd f) FDW_IN deadline) (calls a) = true) /\
  (forall f buf deadline w a,
     filewrite f buf deadline w = Ret a ->
     forallb (call_to (fd f) FDW_OUT deadline) (calls a) = true) /\
  (forall f deadline w a,
     fileflush f deadline w = Ret a ->
     forallb (call_to (fd f) FDW_OUT deadline) (calls a) = true).
Proof.
  split; [|split; [|split]].
  - intros f len deadline w a H. apply (fileread_calls f len deadline w a H).
  - intros f lowwater highwater deadline w a H.
    apply (filereadlh_calls f lowwater highwater deadline w a H).
  - intros f buf deadline w a H. apply (filewrite_calls f buf deadline w a H).
  - intros f deadline w a H. apply (fileflush_calls f deadline w a H).
Qed.

Lemma calls_name_the_descriptor_witness :
  exists a,
    fileread (fresh_channel S_IFIFO) 2 9
      (World 0 [Failed 11%positive; Got [x61; x62]] [] [Ready FDW_IN]) = Ret a /\
    calls a = [EvRead 3 4096 (Failed 11%positive); EvWait 3 FDW_IN 9 (Ready FDW_IN);
               EvRead 3 4096 (Got [x61; x62])] /\
    forallb (call_to 3 FDW_IN 9) (calls a) = true.
Proof.
  eexists. split; [vm_compute; reflexivity|]. split; [reflexivity|].
  apply (proj1 calls_name_the_descriptor (fresh_channel S_IFIFO) 2 9
           (World 0 [Failed 11%positive; Got [x61; x62]] [] [Ready FDW_IN])).
  vm_compute. reflexivity.
Defined.

(** ** X13: the arrays are never overrun *)

Lemma exec_keeps_arrays (o : op) (f : mill_file) (w : world) (a : after unit) :
  payload_ok o -> 0 <= olen f <= MILL_FILE_BUFLEN -> arrays_ok f ->
  exec o f w = Ret a -> arrays_ok (file a).
Proof.
  unfold arrays_ok. intros Hp Hol [Hib Hob] H. destruct o; simpl in H.
  - apply forget_ret in H. destruct H as (a' & H & ->). cbn [file].
    split.
    + apply filewrite_ok in H. unfold write_op_ok in H.
      destruct H as (_ & _ & -> & _). exact Hib.
    + apply (filewrite_obuf f buf deadline w a' Hol Hob Hp H).
  - apply fileflush_ok in H. destruct H as [_ [-> | ->]]; split; assumption.
  - apply forget_ret in H. destruct H as (a' & H & ->). cbn [file].
    split.
    + apply (proj1 (fileread_calls f len deadline w a' H) Hib).
    + apply fileread_ok in H. unfold read_loop_ok in H.
      destruct H as (_ & -> & _). exact Hob.
  - apply forget_ret in H. destruct H as (a' & H & ->). cbn [file].
    split.
    + apply (proj1 (filereadlh_calls f lowwater highwater deadline w a' H) Hib).
    + apply filereadlh_ok in H. unfold read_loop_ok in H.
      destruct H as (_ & -> & _). exact Hob.
  - injection H as <-. split; assumption.
  - injection H as <-. split; assumption.
  - injection H as <-. split; assumption.
  - injection H as <-. split; assumption.
Qed.

(** X13. Through any sequence of operations called with [size_t] lengths,
    watermarks in order and payloads that are objects in memory, the two
    arrays of the channel keep their size and the counters stay within it:
    no [memcpy] into [obuf] and no [read] into [ibuf] goes past the end of
    the array. *)
Theorem arrays_never_overrun (f f' : mill_file) (os : list op) :
  runs f os f' ->
  Forall valid_call os -> Forall payload_ok os ->
  buf_inv f -> arrays_ok f ->
  buf_inv f' /\ arrays_ok f'.
Proof.
  intros H. induction H as [f|f o w a os f' Hstep _ IH]; intros Hv Hp Hinv Harr.
  - split; assumption.
  - inversion Hv as [|? ? Hvo Hvos]; subst. inversion Hp as [|? ? Hpo Hpos]; subst.
    apply IH; [exact Hvos|exact Hpos| |].
    + apply (exec_buf_inv o f w a Hvo Hinv Hstep).
    + apply (exec_keeps_arrays o f w a Hpo); [unfold buf_inv in Hinv; lia|exact Harr|exact Hstep].
Qed.

Lemma arrays_never_overrun_witness :
  exists f',
    runs (fresh_channel S_IFREG) [OpWrite [x61; x62] 0; OpRead 1 0] f' /\
    buf_inv f' /\ arrays_ok f'.
Proof.
  assert (Hruns : exists f',
            runs (fresh_channel S_IFREG) [OpWrite [x61; x62] 0; OpRead 1 0] f').
  { eexists.
    eapply (runs_cons _ _ (World 0 [] [] [])); [vm_compute; reflexivity|].
    eapply (runs_cons _ _ (World 0 [Got [x63; x64]] [] [])); [vm_compute; reflexivity|].
    cbn [file]. apply runs_nil. }
  destruct Hruns as [f' Hruns]. exists f'. split; [exact Hruns|].
  apply (arrays_never_overrun _ _ _ Hruns).
  - repeat constructor; unfold SIZE_MOD, SSIZE_MAX; lia.
  - repeat constructor. unfold payload_ok, SSIZE_MAX. cbn [length]. lia.
  - unfold buf_inv, MILL_FILE_BUFLEN. cbn [ifirst ilen olen fresh_channel]. lia.
  - split; vm_compute; reflexivity.
Defined.

(** ** X14: the assertions *)

Lemma emit_abort {A : Type} (es : list event) (r : run (after A)) :
  emit es r = Abort -> r = Abort.
Proof. destruct r; [discriminate|reflexivity|discriminate]. Qed.

(** Splits the hypothesis that a loop body aborted into the paths through
    the body. *)
Ltac aborts H :=
  repeat match type of H with
  | emit _ _ = Abort => apply emit_abort in H
  | (if ?c then _ else _) = Abort => destruct c eqn:?
  | match ?x with _ => _ end = Abort => destruct x eqn:?
  | Starved = Abort => discriminate H
  | Ret _ = Abort => discriminate H
  end.

Lemma fileread_loop_no_abort (rs : list (sysret (list byte))) :
  forall ws wrs eno f len deadline got remaining,
  fileread_loop rs ws wrs eno f len deadline got remaining <> Abort.
Proof.
  induction rs as [|r rs IH]; intros ws wrs eno f len deadline got remaining H;
    simpl in H; [discriminate|].
  destruct (MILL_FILE_BUFLEN <? remaining) eqn:Ebig; on_read_sz H; aborts H;
    apply IH in H; exact H.
Qed.

Lemma filereadlh_loop_no_abort (rs : list (sysret (list byte))) :
  forall ws wrs eno f lowwater highwater deadline got remaining received,
  filereadlh_loop rs ws wrs eno f lowwater highwater deadline got remaining received <> Abort.
Proof.
  induction rs as [|r rs IH];
    intros ws wrs eno f lowwater highwater deadline got remaining received H;
    simpl in H; [discriminate|].
  destruct (MILL_FILE_BUFLEN <? remaining) eqn:Ebig; on_read_sz H; aborts H;
    apply IH in H; exact H.
Qed.

Ltac wrong_wakeup Hok :=
  subst; cbn [forallb ready_to_write] in Hok;
  try discriminate Hok;
  try (apply andb_true_iff in Hok; destruct Hok as [_ Hok]).

Lemma fileflush_loop_no_abort (wrs : list (sysret N)) :
  forall ws rs eno f deadline pos remaining,
  forallb ready_to_write ws = true ->
  fileflush_loop wrs ws rs eno f deadline pos remaining <> Abort.
Proof.
  induction wrs as [|r wrs IH]; intros ws rs eno f deadline pos remaining Hok H;
    simpl in H; aborts H; wrong_wakeup Hok; apply IH in H; assumption.
Qed.

Lemma filewrite_loop_no_abort (wrs : list (sysret N)) :
  forall ws rs eno f buf len deadline pos remaining,
  forallb ready_to_write ws = true ->
  filewrite_loop wrs ws rs eno f buf len deadline pos remaining <> Abort.
Proof.
  induction wrs as [|r wrs IH]; intros ws rs eno f buf len deadline pos remaining Hok H;
    simpl in H; aborts H; wrong_wakeup Hok; apply IH in H; assumption.
Qed.

(** What a write loop leaves of the answers of the scheduler is a suffix of
    what it found. *)
Lemma fileflush_loop_waits (wrs : list (sysret N)) :
  forall ws rs eno f deadline pos remaining a,
  fileflush_loop wrs ws rs eno f deadline pos remaining = Ret a ->
  exists used, ws = used ++ waits (env a).
Proof.
  induction wrs as [|r wrs IH]; intros ws rs eno f deadline pos remaining a H;
    simpl in H; paths H; cbn [env waits]; subst;
    try (exists []; reflexivity);
    try (apply IH in H; destruct H as [used Hu]);
    try (exists used; exact Hu);
    try (eexists (_ :: used); cbn [app]; f_equal; exact Hu);
    try (eexists [_]; reflexivity).
Qed.

Lemma forallb_suffix {A : Type} (P : A -> bool) (l1 l2 : list A) :
  forallb P (l1 ++ l2) = true -> forallb P l2 = true.
Proof. rewrite forallb_app. intros H. apply andb_true_iff in H. tauto. Qed.

(** A flush that succeeds has met no final failure: the answers it leaves
    still hold one, and still enough answers of the scheduler. *)
Lemma fileflush_loop_leaves (wrs : list (sysret N)) :
  forall ws rs eno f deadline pos remaining a,
  existsb final_write wrs = true ->
  (length wrs <= length ws)%nat ->
  forallb ready_to_write ws = true ->
  fileflush_loop wrs ws rs eno f deadline pos remaining = Ret a ->
  errno (env a) = 0 ->
  existsb final_write (writes (env a)) = true /\
  (length (writes (env a)) <= length (waits (env a)))%nat /\
  forallb ready_to_write (waits (env a)) = true.
Proof.
  induction wrs as [|r wrs IH]; intros ws rs eno f deadline pos remaining a Hfin Hws Hok H He;
    [discriminate|].
  simpl in H. destruct (remaining =? 0) eqn:E0.
  { injection H as <-. cbn [env writes waits]. repeat split; assumption. }
  cbn [existsb] in Hfin. cbn [length] in Hws.
  destruct r as [e|n]; rewrite ?sys_write_failed in H;
    cbn [final_write write_sz errno_after] in *.
  - change (-1 =? -1) with true in H. cbv iota in H.
    destruct (not_would_block (Z.pos e)) eqn:Enwb.
    + paths H. cbn [env errno] in He. discriminate He.
    + cbn [orb] in Hfin. paths H; cbn [env errno] in He; try discriminate He.
      * apply (IH _ _ _ _ _ _ _ _ Hfin) in H; [exact H|lia|exact Hok|exact He].
      * subst ws. cbn [length forallb] in *. apply andb_true_iff in Hok.
        apply (IH _ _ _ _ _ _ _ _ Hfin) in H; [exact H|lia|tauto|exact He].
  - cbn [orb] in Hfin. unfold sys_write in H. cbn [write_sz errno_after] in H.
    paths H; try absurd_sz; cbn [env errno] in He.
    apply (IH _ _ _ _ _ _ _ _ Hfin) in H; [exact H|lia|exact Hok|exact He].
Qed.

Lemma filewrite_loop_returns (wrs : list (sysret N)) :
  forall ws rs eno f buf len deadline pos remaining,
  existsb final_write wrs = true ->
  (length wrs <= length ws)%nat ->
  forallb ready_to_write ws = true ->
  exists a, filewrite_loop wrs ws rs eno f buf len deadline pos remaining = Ret a.
Proof.
  induction wrs as [|r wrs IH]; intros ws rs eno f buf len deadline pos remaining Hfin Hws Hok;
    [discriminate|].
  cbn [existsb] in Hfin. simpl filewrite_loop.
  destruct r as [e|n]; rewrite ?sys_write_failed; cbn [final_write] in Hfin.
  - change (write_sz (Failed e)) with (-1). change (-1 =? -1) with true.
    cbn [errno_after]. cbv iota. forward; next_write IH.
  - cbn [errno_after]. forward; next_write IH.
Qed.

Lemma filewrite_returns (f : mill_file) (buf : list byte) (deadline : Z) (w : world) :
  existsb final_write (writes w) = true ->
  (length (writes w) <= length (waits w))%nat ->
  forallb ready_to_write (waits w) = true ->
  exists a, filewrite f buf deadline w = Ret a.
Proof.
  intros Hfin Hws Hok. unfold filewrite, buffer_output.
  destruct (wrap (olen f + Z.of_nat (length buf)) <=? MILL_FILE_BUFLEN);
    [eexists; reflexivity|].
  destruct (fileflush_returns f deadline w Hfin Hws Hok) as [a0 Ha0]. rewrite Ha0.
  destruct (errno (env a0) =? 0) eqn:E0; cbn [negb]; [|eexists; reflexivity].
  destruct (wrap (olen (file a0) + Z.of_nat (length buf)) <=? MILL_FILE_BUFLEN);
    [eexists; reflexivity|].
  apply emit_returns. apply Z.eqb_eq in E0.
  unfold fileflush in Ha0. destruct (olen f =? 0).
  - injection Ha0 as <-. cbn [env set_errno writes waits reads errno].
    apply filewrite_loop_returns; assumption.
  - destruct (fileflush_loop_leaves _ _ _ _ _ _ _ _ _ Hfin Hws Hok Ha0 E0) as (H1 & H2 & H3).
    apply filewrite_loop_returns; assumption.
Qed.

(** X14. The assertion [mill_assert(remaining)] of [fileread] and
    [filereadlh] never fails, whatever the arguments, the buffer and the
    answers of the descriptor; the assertion [mill_assert(rc == FDW_OUT)] of
    [fileflush] and [filewrite] does not fail as long as [fdwait] never
    reports readiness for input. *)
Theorem assertions_hold :
  (forall f len deadline w,
     0 <= ilen f -> 0 <= len < SIZE_MOD -> fileread f len deadline w <> Abort) /\
  (forall f lowwater highwater deadline w,
     0 <= ilen f -> 0 <= highwater < SIZE_MOD ->
     filereadlh f lowwater highwater deadline w <> Abort) /\
  (forall f deadline w,
     forallb ready_to_write (waits w) = true -> fileflush f deadline w <> Abort) /\
  (forall f buf deadline w,
     forallb ready_to_write (waits w) = true -> filewrite f buf deadline w <> Abort).
Proof.
  split; [|split; [|split]].
  - intros f len deadline w Hil Hlen H. unfold fileread in H.
    destruct (len <=? ilen f) eqn:E; [discriminate|]. bools.
    rewrite (wrap_small (len - ilen f)) in H by lia.
    destruct (len - ilen f =? 0) eqn:E0; bools; [lia|].
    apply fileread_loop_no_abort in H. exact H.
  - intros f lowwater highwater deadline w Hil Hhw H. unfold filereadlh in H.
    destruct ((lowwater <=? ilen f) && (ilen f <=? highwater)); [discriminate|].
    destruct (highwater <=? ilen f) eqn:E; [discriminate|]. bools.
    rewrite (wrap_small (highwater - ilen f)) in H by lia.
    destruct (highwater - ilen f =? 0) eqn:E0; bools; [lia|].
    apply filereadlh_loop_no_abort in H. exact H.
  - intros f deadline w Hok H. unfold fileflush in H.
    destruct (olen f =? 0); [discriminate|].
    apply fileflush_loop_no_abort in H; assumption.
  - intros f buf deadline w Hok H. unfold filewrite, buffer_output in H.
    destruct (wrap (olen f + Z.of_nat (length buf)) <=? MILL_FILE_BUFLEN); [discriminate|].
    destruct (fileflush f deadline w) as [a0| |] eqn:Ef; try discriminate.
    + aborts H. apply filewrite_loop_no_abort in H; [exact H|].
      unfold fileflush in Ef. destruct (olen f =? 0).
      * injection Ef as <-. exact Hok.
      * apply fileflush_loop_waits in Ef. destruct Ef as [used Eu].
        rewrite Eu in Hok. apply forallb_suffix in Hok. exact Hok.
    + unfold fileflush in Ef. destruct (olen f =? 0); [discriminate|].
      apply fileflush_loop_no_abort in Ef; assumption.
Qed.

Lemma assertions_hold_witness :
  fileread (fresh_channel S_IFIFO) 1 0 (World 0 [Got [x61]] [] []) <> Abort /\
  fileflush (channel_with_output S_IFIFO [x61]) 0
    (World 0 [] [Failed 11%positive; Got 1%N] [Ready FDW_OUT]) <> Abort.
Proof.
  split.
  - apply (proj1 assertions_hold).
    + cbn [ilen fresh_channel]. lia.
    + unfold SIZE_MOD. lia.
  - apply (proj1 (proj2 (proj2 assertions_hold))). reflexivity.
Defined.

(** ** X15: the operations return *)

(** X15. Each of the four operations returns, without tripping an
    assertion, whenever the descriptor eventually answers for good (the end
    of the stream or an error other than would-block for the reads, such an
    error for the writes), the scheduler has an answer for every [fdwait],
    and for the writes no answer reports readiness for input. *)
Theorem operations_return :
  (forall f len deadline w,
     0 <= ilen f -> 0 <= len < SIZE_MOD ->
     existsb final_read (reads w) = true ->
     (length (reads w) <= length (waits w))%nat ->
     exists a, fileread f len deadline w = Ret a) /\
  (forall f lowwater highwater deadline w,
     0 <= ilen f -> 0 <= highwater < SIZE_MOD ->
     existsb final_read (reads w) = true ->
     (length (reads w) <= length (waits w))%nat ->
     exists a, filereadlh f lowwater highwater deadline w = Ret a) /\
  (forall f deadline w,
     existsb final_write (writes w) = true ->
     (length (writes w) <= length (waits w))%nat ->
     forallb ready_to_write (waits w) = true ->
     exists a, fileflush f deadline w = Ret a) /\
  (forall f buf deadline w,
     existsb final_write (writes w) = true ->
     (length (writes w) <= length (waits w))%nat ->
     forallb ready_to_write (waits w) = true ->
     exists a, filewrite f buf deadline w = Ret a).
Proof.
  split; [|split; [|split]].
  - intros f len deadline w. apply fileread_returns.
  - intros f lowwater highwater deadline w. apply filereadlh_returns.
  - intros f deadline w. apply fileflush_returns.
  - intros f buf deadline w. apply filewrite_returns.
Qed.

Lemma operations_return_witness :
  exists a,
    fileread (fresh_channel S_IFIFO) 4 0
      (World 0 [Got [x61]; Failed 11%positive; Got []]
         [] [Ready FDW_IN; Ready FDW_IN; Ready FDW_IN]) = Ret a.
Proof.
  apply (proj1 operations_return).
  - cbn [ilen fresh_channel]. lia.
  - unfold SIZE_MOD. lia.
  - reflexivity.
  - cbn [reads waits length]. lia.
Defined.

(** ** X16: the position accounts for the bytes read ahead *)

(** X16. [filetell] accounts for the bytes read ahead: when the descriptor
    stood at [p] before a [fileread] and stands [n] bytes further after it,
    [n] being what its [read]s delivered, the position [filetell] reports
    has advanced by exactly the count [fileread] returned, however many
    bytes were read ahead into the buffer. *)
Theorem filetell_follows_fileread (f : mill_file) (len deadline p : Z) (w : world)
    (a : after (Z * list byte)) :
  ibuf_inv f ->
  Z.of_nat (length (ibuf f)) = MILL_FILE_BUFLEN ->
  0 <= len < SIZE_MOD ->
  fileread f len deadline w = Ret a ->
  ilen f <= p ->
  p + Z.of_nat (length (bytes_read (calls a))) <= SSIZE_MAX ->
  filetell (file a) (Got (p + Z.of_nat (length (bytes_read (calls a))))) =
    filetell f (Got p) + fst (ret a).
Proof.
  intros Hinv Hbuf Hlen H Hp Hmax.
  destruct (fileread_data f len deadline w a Hinv Hbuf Hlen H) as [Hn Hcons].
  assert (Hil : 0 <= ilen f) by (unfold ibuf_inv in Hinv; lia).
  destruct (fileread_count f len deadline w a Hil Hlen H) as [Hkeep _].
  specialize (Hkeep Hinv).
  pose proof (proj1 (fileread_calls f len deadline w a H) Hbuf) as Hbuf'.
  assert (Hpl : Z.of_nat (length (pending_in f)) = ilen f)
    by (unfold ibuf_inv in Hinv; apply length_slice; lia).
  assert (Hpl' : Z.of_nat (length (pending_in (file a))) = ilen (file a))
    by (unfold ibuf_inv in Hkeep; apply length_slice; lia).
  apply (f_equal (@length byte)) in Hcons. rewrite !length_app in Hcons.
  unfold filetell. cbn [write_sz].
  unfold ibuf_inv in Hkeep.
  rewrite !to_off_small by lia. lia.
Qed.

Lemma filetell_follows_fileread_witness :
  exists a,
    fileread (channel_with_input S_IFREG [x61]) 3 0
      (World 0 [Got [x62; x63; x64; x65]] [] []) = Ret a /\
    filetell (channel_with_input S_IFREG [x61]) (Got 1) = 0 /\
    filetell (file a) (Got 5) = 3.
Proof.
  eexists. split; [vm_compute; reflexivity|]. split; [reflexivity|].
  match goal with |- filetell (file ?a) _ = _ =>
    pose proof (filetell_follows_fileread (channel_with_input S_IFREG [x61]) 3 0 1
                  (World 0 [Got [x62; x63; x64; x65]] [] []) a) as Htell
  end.
  cbn [calls bytes_read app length ret fst Z.of_nat] in Htell.
  apply Htell.
  - unfold ibuf_inv, MILL_FILE_BUFLEN. cbn [ifirst ilen channel_with_input length]. lia.
  - vm_compute. reflexivity.
  - vm_compute. split; [discriminate|reflexivity].
  - vm_compute. reflexivity.
  - vm_compute. discriminate.
  - vm_compute. discriminate.
Defined.

(** ** X17: the size counts the output not yet written *)

(** X17. On a regular file, a [filewrite] that fits in the output buffer
    makes no call on the descriptor and yet raises what [filesize] reports
    by the length of the payload: the size is the end position of the
    descriptor plus the bytes still pending. *)
Theorem filesize_counts_buffered_output (f : mill_file) (buf : list byte) (deadline last : Z)
    (cur back : sysret Z) (w : world) (a : after Z) :
  S_ISREG (mode f) = true ->
  0 <= olen f -> olen f + Z.of_nat (length buf) <= MILL_FILE_BUFLEN ->
  0 <= last -> last + MILL_FILE_BUFLEN <= SSIZE_MAX ->
  filewrite f buf deadline w = Ret a ->
  calls a = [] /\
  filesize f cur (Got last) back = last + olen f /\
  filesize (file a) cur (Got last) back =
    filesize f cur (Got last) back + Z.of_nat (length buf).
Proof.
  intros Hreg Hol Hfit Hlast Hmax H. consts.
  unfold filewrite, buffer_output in H.
  rewrite (wrap_small (olen f + Z.of_nat (length buf))) in H by lia.
  destruct (olen f + Z.of_nat (length buf) <=? MILL_FILE_BUFLEN) eqn:E; bools; [|lia].
  injection H as <-. cbn [calls file]. split; [reflexivity|].
  unfold filesize. cbn [mode olen set_olen set_obuf write_sz]. rewrite Hreg. cbn [negb].
  rewrite (wrap_small last) by lia. rewrite !to_off_small by lia. lia.
Qed.

Lemma filesize_counts_buffered_output_witness :
  exists a,
    filewrite (fresh_channel S_IFREG) [x61; x62] 0 (World 0 [] [] []) = Ret a /\
    filesize (fresh_channel S_IFREG) (Got 0) (Got 10) (Got 0) = 10 /\
    filesize (file a) (Got 0) (Got 10) (Got 0) = 12.
Proof.
  eexists. split; [vm_compute; reflexivity|]. split; [reflexivity|].
  match goal with |- filesize (file ?a) _ _ _ = _ =>
    destruct (filesize_counts_buffered_output (fresh_channel S_IFREG) [x61; x62] 0 10
                (Got 0) (Got 0) (World 0 [] [] []) a) as (_ & _ & Hsz)
  end.
  - reflexivity.
  - cbn [olen fresh_channel]. lia.
  - unfold MILL_FILE_BUFLEN. cbn [olen fresh_channel length]. lia.
  - lia.
  - unfold MILL_FILE_BUFLEN, SSIZE_MAX. lia.
  - vm_compute. reflexivity.
  - rewrite Hsz. reflexivity.
Defined.

(** ** X18: a failed [lseek] behind the accessors *)

(** X18. When [lseek] fails, the accessors do not return [-1] unless the
    buffers are empty: [filetell] returns [-1 - ilen], and on a regular
    file [filesize] returns [olen - 1], which is not negative as soon as
    some output is pending. *)
Theorem lseek_failure_is_masked (f : mill_file) (e : positive) (cur back : sysret Z) :
  (0 <= ilen f <= MILL_FILE_BUFLEN -> filetell f (Failed e) = -1 - ilen f) /\
  (S_ISREG (mode f) = true -> 0 <= olen f <= MILL_FILE_BUFLEN ->
   filesize f cur (Failed e) back = olen f - 1).
Proof.
  consts. split.
  - intros Hil. unfold filetell. cbn [write_sz].
    replace (-1 - ilen f) with (- (1 + ilen f)) by lia.
    apply to_off_minus. lia.
  - intros Hreg Hol. unfold filesize. rewrite Hreg. cbn [negb write_sz].
    assert (Hw : wrap (-1) = SIZE_MOD - 1) by reflexivity.
    rewrite Hw. unfold to_off.
    destruct (olen f =? 0) eqn:E0; bools.
    + rewrite E0, Z.add_0_r, wrap_small by lia.
      destruct (SIZE_MOD - 1 <=? SSIZE_MAX) eqn:E; bools; lia.
    + assert (Hw2 : wrap (SIZE_MOD - 1 + olen f) = olen f - 1).
      { unfold wrap. symmetry. apply (Z.mod_unique_pos _ _ 1); lia. }
      rewrite Hw2. destruct (olen f - 1 <=? SSIZE_MAX) eqn:E; bools; lia.
Qed.

Lemma lseek_failure_is_masked_witness :
  filetell (channel_with_input S_IFREG [x61; x62]) (Failed 9%positive) = -3 /\
  filesize (channel_with_output S_IFREG [x61; x62]) (Got 0) (Failed 9%positive) (Got 0) = 1.
Proof.
  split.
  - rewrite (proj1 (lseek_failure_is_masked (channel_with_input S_IFREG [x61; x62])
                      9%positive (Got 0) (Got 0))); [reflexivity|].
    unfold MILL_FILE_BUFLEN. cbn [ilen channel_with_input length]. lia.
  - rewrite (proj2 (lseek_failure_is_masked (channel_with_output S_IFREG [x61; x62])
                      9%positive (Got 0) (Got 0))); [reflexivity|reflexivity|].
    unfold MILL_FILE_BUFLEN. cbn [olen channel_with_output length]. lia.
Defined.

(** ** X19: a channel is returned exactly when [errno] is cleared *)

(** X19. [fileopen] and [fileattach] return [NULL] exactly when they leave
    [errno] non-zero.  A channel they return is on the descriptor that was
    opened or passed, with both buffers empty; [fileopen] also records the
    [st_mode] that [fstat] found. *)
Theorem creation_reports_failure_in_errno :
  (forall opened block st w,
     (fst (fileopen opened block st w) = None <->
      errno (snd (fileopen opened block st w)) <> 0) /\
     (forall f, fst (fileopen opened block st w) = Some f ->
        opened = Got (filedetach f) /\ st = Got (mode f) /\
        pending_in f = [] /\ pending_out f = [])) /\
  (forall d block getfl setfl w r,
     fileattach d block getfl setfl w = Ret r ->
     (fst r = None <-> errno (snd r) <> 0) /\
     (forall f, fst r = Some f ->
        filedetach f = d /\ pending_in f = [] /\ pending_out f = [])).
Proof.
  split.
  - intros opened block st w. unfold fileopen.
    destruct opened as [e|d]; [|destruct block as [f0|]; [destruct st as [e|m]|]];
      cbn [fst snd set_errno errno]; (split; [split|]); try discriminate;
      try (intros _; reflexivity); try (intros H; exfalso; apply H; reflexivity).
    intros f H. injection H as <-.
    unfold filedetach, pending_in, pending_out.
    cbn [fd mode ibuf obuf ifirst ilen olen set_mode set_eof set_olen set_in set_fd].
    rewrite !slice_nil. repeat split.
  - intros d block getfl setfl w r H. unfold fileattach in H.
    destruct block as [f0|]; [destruct (mill_filetune getfl setfl); [|discriminate]|];
      injection H as <-; cbn [fst snd set_errno errno]; (split; [split|]); try discriminate;
      try (intros _; reflexivity); try (intros H; exfalso; apply H; reflexivity).
    intros f H. injection H as <-.
    unfold filedetach, pending_in, pending_out.
    cbn [fd ibuf obuf ifirst ilen olen set_olen set_in set_fd].
    rewrite !slice_nil. repeat split.
Qed.

Lemma creation_reports_failure_in_errno_witness :
  fst (fileopen (Got 5) None (Got S_IFREG) (World 0 [] [] [])) = None /\
  exists f, fst (fileopen (Got 5) (Some (fresh_channel 0)) (Got S_IFREG) (World 7 [] [] [])) = Some f /\
    filedetach f = 5.
Proof.
  split.
  - apply (proj1 (proj1 creation_reports_failure_in_errno (Got 5) None (Got S_IFREG)
                    (World 0 [] [] []))).
    vm_compute. discriminate.
  - eexists. split; [reflexivity|].
    match goal with |- filedetach ?f = _ =>
      destruct (proj2 (proj1 creation_reports_failure_in_errno (Got 5)
                  (Some (fresh_channel 0)) (Got S_IFREG) (World 7 [] [] [])) f eq_refl)
        as (Hfd & _)
    end.
    apply (f_equal write_sz) in Hfd. cbn [write_sz] in Hfd. symmetry. exact Hfd.
Defined.

(** ** X20: what is written is what is sent *)

Lemma fileflush_sends_all (f : mill_file) (deadline : Z) (w : world) (a : after unit) :
  0 <= olen f < SIZE_MOD ->
  fileflush f deadline w = Ret a ->
  errno (env a) = 0 ->
  bytes_sent (calls a) = pending_out f /\ olen (file a) = 0.
Proof.
  intros Hol H He.
  destruct (fileflush_sent f deadline w a Hol H) as [Hb Hs].
  destruct (fileflush_spec f deadline w a Hol H) as [_ [(Hf & _ & Hw & _)|(_ & _ & Hend)]].
  - rewrite Hs, Hw, Hf. unfold pending_out. rewrite firstn_slice by lia.
    split; reflexivity.
  - exfalso. destruct Hend as [[_ Ht]|Ht]; [rewrite He in Ht; discriminate|].
    apply ends_in_error_pos in Ht. lia.
Qed.

(** X20. When a [filewrite] returns the full length of its payload and a
    [fileflush] after it returns with [errno = 0], the bytes the two calls
    put on the descriptor are the bytes that were pending before followed by
    the payload, each once and in order, and nothing is left pending. *)
Theorem write_then_flush_sends_everything (f : mill_file) (buf : list byte)
    (deadline deadline' : Z) (w w' : world) (a : after Z) (a' : after unit) :
  0 <= olen f <= MILL_FILE_BUFLEN ->
  Z.of_nat (length (obuf f)) = MILL_FILE_BUFLEN ->
  Z.of_nat (length buf) <= SSIZE_MAX ->
  filewrite f buf deadline w = Ret a ->
  ret a = Z.of_nat (length buf) ->
  fileflush (file a) deadline' w' = Ret a' ->
  errno (env a') = 0 ->
  bytes_sent (calls a) ++ bytes_sent (calls a') = pending_out f ++ buf /\
  pending_out (file a') = [].
Proof.
  intros Hol Hob Hlen H Hret H' He'. consts.
  pose proof (filewrite_olen f buf deadline w a Hol H) as Hol'.
  destruct (fileflush_sends_all (file a) deadline' w' a') as [Hs' Ho']; [lia|exact H'|exact He'|].
  split; [|unfold pending_out; rewrite Ho'; apply slice_nil].
  rewrite Hs'.
  destruct (filewrite_cases f buf deadline w a Hol Hob Hlen H)
    as [(_ & _ & _ & Hc & Hp)|[(Hbig & Hr & _)|[(_ & _ & _ & _ & Hs & _ & Hp)
       |(Hbig & Ho & sent & Hsent & Hs & Hout)]]].
  - rewrite Hc, Hp. reflexivity.
  - lia.
  - rewrite Hs, Hp. reflexivity.
  - assert (Hp : pending_out (file a) = []) by (unfold pending_out; rewrite Ho; reflexivity).
    destruct Hout as [(_ & Hall & _)|[(_ & _ & Hr & Hlt)|(_ & Hr)]]; try lia.
    rewrite Hs, Hp, Hall, Nat2Z.id, firstn_all, app_nil_r. reflexivity.
Qed.

Lemma write_then_flush_sends_everything_witness :
  exists a a',
    filewrite (channel_with_output S_IFIFO [x61]) [x62; x63] 0 (World 0 [] [] []) = Ret a /\
    fileflush (file a) 0 (World 0 [] [Got 2%N; Got 1%N] []) = Ret a' /\
    bytes_sent (calls a) ++ bytes_sent (calls a') = [x61; x62; x63].
Proof.
  eexists. eexists. split; [vm_compute; reflexivity|]. split; [vm_compute; reflexivity|].
  match goal with |- bytes_sent (calls ?a) ++ bytes_sent (calls ?a') = _ =>
    destruct (write_then_flush_sends_everything (channel_with_output S_IFIFO [x61])
                [x62; x63] 0 0 (World 0 [] [] []) (World 0 [] [Got 2%N; Got 1%N] []) a a')
      as [Hall _]
  end.
  - vm_compute. split; discriminate.
  - vm_compute. reflexivity.
  - vm_compute. discriminate.
  - vm_compute. reflexivity.
  - reflexivity.
  - vm_compute. reflexivity.
  - reflexivity.
  - rewrite Hall. vm_compute. reflexivity.
Defined.

(** ** X21: consecutive reads *)

(** X21. Two [fileread]s in a row hand over consecutive parts of the
    stream: what the first returns, then what the second returns, then what
    stays in the input buffer, is what was buffered at first followed by
    what the [read]s of the two calls delivered. *)
Theorem consecutive_reads_in_order (f : mill_file) (len len' deadline deadline' : Z)
    (w w' : world) (a a' : after (Z * list byte)) :
  ibuf_inv f ->
  Z.of_nat (length (ibuf f)) = MILL_FILE_BUFLEN ->
  0 <= len < SIZE_MOD -> 0 <= len' < SIZE_MOD ->
  fileread f len deadline w = Ret a ->
  fileread (file a) len' deadline' w' = Ret a' ->
  snd (ret a) ++ snd (ret a') ++ pending_in (file a') =
    pending_in f ++ bytes_read (calls a) ++ bytes_read (calls a').
Proof.
  intros Hinv Hbuf Hlen Hlen' H H'.
  destruct (fileread_data f len deadline w a Hinv Hbuf Hlen H) as [_ Hcons].
  assert (Hil : 0 <= ilen f) by (unfold ibuf_inv in Hinv; lia).
  destruct (fileread_count f len deadline w a Hil Hlen H) as [Hkeep _].
  pose proof (proj1 (fileread_calls f len deadline w a H) Hbuf) as Hbuf'.
  destruct (fileread_data (file a) len' deadline' w' a' (Hkeep Hinv) Hbuf' Hlen' H')
    as [_ Hcons'].
  rewrite Hcons', app_assoc, Hcons, app_assoc. reflexivity.
Qed.

Lemma consecutive_reads_in_order_witness :
  exists a a',
    fileread (fresh_channel S_IFREG) 2 0 (World 0 [Got [x61; x62; x63]] [] []) = Ret a /\
    fileread (file a) 2 0 (World 0 [Got [x64; x65]] [] []) = Ret a' /\
    snd (ret a) = [x61; x62] /\ snd (ret a') = [x63; x64] /\
    snd (ret a) ++ snd (ret a') ++ pending_in (file a') = [x61; x62; x63; x64; x65].
Proof.
  eexists. eexists. split; [vm_compute; reflexivity|]. split; [vm_compute; reflexivity|].
  split; [reflexivity|]. split; [reflexivity|].
  match goal with |- snd (ret ?a) ++ snd (ret ?a') ++ _ = _ =>
    rewrite (consecutive_reads_in_order (fresh_channel S_IFREG) 2 2 0 0
               (World 0 [Got [x61; x62; x63]] [] []) (World 0 [Got [x64; x65]] [] []) a a')
  end.
  - vm_compute. reflexivity.
  - unfold ibuf_inv, MILL_FILE_BUFLEN. cbn [ifirst ilen fresh_channel]. lia.
  - vm_compute. reflexivity.
  - vm_compute. split; [discriminate|reflexivity].
  - vm_compute. split; [discriminate|reflexivity].
  - vm_compute. reflexivity.
  - vm_compute. reflexivity.
Defined.
